(** * Conditional Permutation Importance (hidimstat/cpi.py)

    A shallow embedding of the [CPI] class: the constructor, [fit],
    [predict] and [score], over

    - 2-D arrays as a column count and a list of rows,
    - a store of Python objects in which the imputation models live
      (they are fitted in place and cloned by allocation),
    - the collaborator interfaces the class calls into (scalars, the
      predictive estimator, the imputation models, the random generator)
      as type classes,
    - a state-and-exception monad for the methods: a raised exception
      keeps the mutations made before it.

    What the embedding fixes:

    - [Parallel(n_jobs=...)] is modelled as joblib runs it in-process
      ([n_jobs=1], the default): the delayed calls are executed one
      after the other, in the order of the generator, on the objects
      themselves;
    - column indices and [n_perm] are natural numbers (Python's
      negative indices are left out);
    - the methods of the collaborators ([predict], [predict_proba],
      [fit], the loss) return: what they may raise themselves is not
      part of the class;
    - the predictive model is a value of its own: it is not one of the
      objects that [fit] fits in place. *)

From stdpp Require Import gmap strings list fin_maps.

(** ** Exceptions and results *)

Inductive exn :=
  | NotFittedError
  | ValueError
  | KeyError
  | IndexError
  | TypeError
  | AttributeError.

#[global] Instance exn_eq_dec : EqDecision exn.
Proof. solve_decision. Defined.

Abbreviation result A := (sum exn A).

Definition rbind {A B} (r : result A) (f : A → result B) : result B :=
  match r with
  | inl e => inl e
  | inr a => f a
  end.

Fixpoint rmapM {A B} (f : A → result B) (l : list A) : result (list B) :=
  match l with
  | [] => inr []
  | x :: l' => rbind (f x) (λ y, rbind (rmapM f l') (λ ys, inr (y :: ys)))
  end.

(** ** Arrays *)

Section arrays.
Context {F : Type}.

(** A 2-D array of shape [(length rows, n_cols)]. *)
Record Matrix := mkMatrix { n_cols : nat; rows : list (list F) }.

Definition n_rows (X : Matrix) : nat := length (rows X).

(** Every row has [n_cols] entries, as in any numpy array. *)
Definition wf_matrix (X : Matrix) : Prop :=
  Forall (λ r, length r = n_cols X) (rows X).

Definition in_range (p : nat) (ids : list nat) : bool :=
  forallb (λ i, i <? p) ids.

(** [l[ids]]: fancy indexing with a list of positions. *)
Definition take_idx {A} (ids : list nat) (l : list A) : list A :=
  omap (λ i, l !! i) ids.

(** [np.delete(l, ids)] on one axis, the positions counted from [k]. *)
Fixpoint delete_from {A} (k : nat) (ids : list nat) (l : list A) : list A :=
  match l with
  | [] => []
  | x :: l' =>
      if bool_decide (k ∈ ids) then delete_from (S k) ids l'
      else x :: delete_from (S k) ids l'
  end.

(** [np.delete(np.arange(p), ids)]; [IndexError] on a position that is
    not below [p]. *)
Definition np_delete_arange (p : nat) (ids : list nat) : result (list nat) :=
  if in_range p ids then inr (delete_from 0 ids (seq 0 p)) else inl IndexError.

(** [X[:, ids]]: the array for positions within the columns, and the
    operation, which raises [IndexError] on any other. *)
Definition cols (ids : list nat) (X : Matrix) : Matrix :=
  mkMatrix (length ids) (take_idx ids <$> rows X).

Definition take_cols (ids : list nat) (X : Matrix) : result Matrix :=
  if in_range (n_cols X) ids then inr (cols ids X) else inl IndexError.

(** [np.delete(X, ids, axis=1)], in the same two steps. *)
Definition without_cols (ids : list nat) (X : Matrix) : Matrix :=
  mkMatrix (length (delete_from 0 ids (seq 0 (n_cols X))))
           (delete_from 0 ids <$> rows X).

Definition np_delete_cols (ids : list nat) (X : Matrix) : result Matrix :=
  if in_range (n_cols X) ids then inr (without_cols ids X) else inl IndexError.

(** [a.reshape((n, p))] of an array whose entries, in row-major order,
    are [flat]; [ValueError] when there are not [n * p] of them. *)
Fixpoint chunks (n p : nat) (flat : list F) : list (list F) :=
  match n with
  | 0 => []
  | S n' => take p flat :: chunks n' p (drop p flat)
  end.

Definition reshape (n p : nat) (flat : list F) : result Matrix :=
  if length flat =? n * p then inr (mkMatrix p (chunks n p flat))
  else inl ValueError.

(** Entrywise operation on two arrays of one shape. *)
Definition mat_zip (f : F → F → F) (A B : Matrix) : Matrix :=
  mkMatrix (n_cols A) (zip_with (zip_with f) (rows A) (rows B)).

(** [np.empty_like(X)]: the shape of [X], the entries whatever the
    allocated memory holds ([uninit i c] at row [i], column [c]). *)
Definition empty_like (uninit : nat → nat → F) (X : Matrix) : Matrix :=
  mkMatrix (n_cols X) (imap (λ i _, uninit i <$> seq 0 (n_cols X)) (rows X)).

(** [r[ids] = vals] on one row: the assignments happen in the order of
    [ids], so the last one wins on a repeated position. *)
Definition assign_idx (ids : list nat) (vals : list F) (r : list F) : list F :=
  foldl (λ acc iv, <[iv.1 := iv.2]> acc) r (zip ids vals).

(** [X[:, ids] = V], for [V] of shape [(n_rows X, length ids)] and
    [ids] within the columns of [X], which is how [predict] calls it. *)
Definition set_cols (ids : list nat) (V : Matrix) (X : Matrix) : Matrix :=
  mkMatrix (n_cols X) (zip_with (assign_idx ids) (rows V) (rows X)).

(** Lines 155-157: the new array, the kept columns written into it,
    then the group's columns. *)
Definition assemble_X_perm (uninit : nat → nat → F) (X X_minus_j : Matrix)
    (group_ids non_group_ids : list nat) (X_j_perm : Matrix) : Matrix :=
  let X_perm := empty_like uninit X in
  let X_perm := set_cols non_group_ids X_minus_j X_perm in
  set_cols group_ids X_j_perm X_perm.

(** [x[idx]] on the first axis. *)
Definition take_rows (idx : list nat) (A : Matrix) : Matrix :=
  mkMatrix (n_cols A) (take_idx idx (rows A)).
End arrays.

Arguments Matrix F : clear implicits.

(** ** Collaborator interfaces *)

(** Scalars (numpy floats): [+], [-] and [np.mean]. *)
Class Scalar (F : Type) := {
  fadd : F → F → F;
  fsub : F → F → F;
  fmean : list F → F
}.

(** The predictive model: a value with [predict] and [predict_proba];
    [est_is_fitted] is whether [check_is_fitted] passes on it. *)
Class Predictor (E F Pred : Type) := {
  est_is_fitted : E → bool;
  est_predict : E → Matrix F → Pred;
  est_predict_proba : E → Matrix F → Pred
}.

(** The state of an imputation model. [im_fit m A B] is the state after
    [m.fit(A, B)], [im_predict m A] the entries of [m.predict(A)] in
    row-major order, [im_clone m] the state of [clone(m)]. *)
Class Imputer (Mo F : Type) := {
  im_is_fitted : Mo → bool;
  im_fit : Mo → Matrix F → Matrix F → Mo;
  im_predict : Mo → Matrix F → list F;
  im_clone : Mo → Mo;
  im_fit_fitted : ∀ m A B, im_is_fitted (im_fit m A B) = true
}.

(** [np.random.RandomState]: [rs_seed s] is the state of
    [RandomState(s)]; [rs_shuffled_arange r n] is what
    [idx = np.arange(n); r.shuffle(idx)] leaves in [idx], with the state
    after it. [r.permutation(x)] of an array is [x[idx]] for that [idx]. *)
Class RandomStateOps (R : Type) := {
  rs_seed : Z → R;
  rs_shuffled_arange : R → nat → list nat * R;
  rs_shuffled_perm : ∀ r n, (rs_shuffled_arange r n).1 ≡ₚ seq 0 n
}.

(** ** The object store, the instance, the method monad *)

(** References to Python objects. *)
Abbreviation loc := positive.

(** The [imputation_model] argument of the constructor: one estimator
    ([isinstance(_, list)] is false) or a list of estimators. *)
Inductive imputation_arg :=
  | Single (l : loc)
  | Multi (ls : list loc).

(** The keys of the [groups] dictionary: integers or names. *)
Abbreviation group_key := (nat + string)%type.

Section model.
Context {F Pred Y E Mo R : Type}.
Context `{!Scalar F, !Predictor E F Pred, !Imputer Mo F, !RandomStateOps R}.

(** What a reference holds: an imputation estimator in some state, or
    an object without the estimator interface (the model itself creates
    such an object only as the list that [clone] returns for a list). *)
Inductive pyobj :=
  | Estimator (m : Mo)
  | NotEstimator.

(** The attributes of a [CPI] instance. [nb_groups] does not exist
    before [fit] sets it. *)
Record CPI := mkCPI {
  estimator : E;
  imputation_model : imputation_arg;
  list_imputation_mod : list loc;
  n_perm : nat;
  groups : option (gmap group_key (list nat));
  random_state : option Z;
  loss : Y → Pred → F;
  score_proba : bool;
  n_jobs : Z;
  rng : R;
  nb_groups : option nat
}.

Definition set_list_imputation_mod (ls : list loc) (c : CPI) : CPI :=
  mkCPI (estimator c) (imputation_model c) ls (n_perm c) (groups c)
        (random_state c) (loss c) (score_proba c) (n_jobs c) (rng c)
        (nb_groups c).

Definition set_groups (g : gmap group_key (list nat)) (c : CPI) : CPI :=
  mkCPI (estimator c) (imputation_model c) (list_imputation_mod c) (n_perm c)
        (Some g) (random_state c) (loss c) (score_proba c) (n_jobs c) (rng c)
        (nb_groups c).

Definition set_nb_groups (n : nat) (c : CPI) : CPI :=
  mkCPI (estimator c) (imputation_model c) (list_imputation_mod c) (n_perm c)
        (groups c) (random_state c) (loss c) (score_proba c) (n_jobs c) (rng c)
        (Some n).

Definition set_rng (r : R) (c : CPI) : CPI :=
  mkCPI (estimator c) (imputation_model c) (list_imputation_mod c) (n_perm c)
        (groups c) (random_state c) (loss c) (score_proba c) (n_jobs c) r
        (nb_groups c).

(** The program state a method runs in: the instance and the store. *)
Record world := mkWorld { self : CPI; heap : gmap loc pyobj }.

(** A method body: from a state to a value or a raised exception, and
    the state left behind in both cases. *)
Definition M (A : Type) : Type := world → result A * world.

Definition ret {A} (a : A) : M A := λ w, (inr a, w).

Definition raise {A} (e : exn) : M A := λ w, (inl e, w).

Definition bind {A B} (m : M A) (f : A → M B) : M B :=
  λ w, match m w with
       | (inl e, w') => (inl e, w')
       | (inr a, w') => f a w'
       end.

Definition lift {A} (r : result A) : M A := λ w, (r, w).

Definition get_self : M CPI := λ w, (inr (self w), w).

Definition update_self (f : CPI → CPI) : M unit :=
  λ w, (inr tt, mkWorld (f (self w)) (heap w)).

Notation "'let!' x ':=' m 'in' k" := (bind m (λ x, k))
  (at level 10, x name, m at level 100, k at level 200, only parsing).

(** [[body for _ in range(n)]] *)
Fixpoint repeatM {A} (n : nat) (body : M A) : M (list A) :=
  match n with
  | 0 => ret []
  | S n' => let! a := body in let! l := repeatM n' body in ret (a :: l)
  end.

(** [[f(x) for x in l]] *)
Fixpoint forM {A B} (f : A → M B) (l : list A) : M (list B) :=
  match l with
  | [] => ret []
  | x :: l' => let! y := f x in let! ys := forM f l' in ret (y :: ys)
  end.

(** [Parallel(n_jobs=1)(delayed(f)(j, x) for j, x in enumerate(l))],
    the count starting at [j]. *)
Fixpoint for_enumerate {A B} (f : nat → A → M B) (j : nat) (l : list A)
  : M (list B) :=
  match l with
  | [] => ret []
  | x :: l' => let! y := f j x in let! ys := for_enumerate f (S j) l' in ret (y :: ys)
  end.

Definition Parallel {A B} (f : nat → A → M B) (l : list A) : M (list B) :=
  for_enumerate f 0 l.

(** ** Calls into the store *)

(** [self.groups[j]] *)
Definition lookup_group (j : nat) : M (list nat) :=
  let! c := get_self in
  match groups c with
  | None => raise TypeError
  | Some g =>
      match g !! (inl j : group_key) with
      | Some ids => ret ids
      | None => raise KeyError
      end
  end.

(** [self.nb_groups] *)
Definition get_nb_groups : M nat :=
  let! c := get_self in
  match nb_groups c with
  | None => raise AttributeError
  | Some nb => ret nb
  end.

(** A new object. *)
Definition alloc (o : pyobj) : M loc :=
  λ w, let l := fresh (dom (heap w)) in
       (inr l, mkWorld (self w) (<[l := o]> (heap w))).

(** [clone(e)] of one estimator: a new object with the parameters of
    [e]; [TypeError] on an object that is not an estimator. *)
Definition clone_estimator (l : loc) : M loc :=
  λ w, match heap w !! l with
       | Some (Estimator m) => alloc (Estimator (im_clone m)) w
       | _ => (inl TypeError, w)
       end.

(** [clone(self.imputation_model)]: of a list, a new list of the clones
    of its elements. *)
Definition clone (a : imputation_arg) : M loc :=
  match a with
  | Single l => clone_estimator l
  | Multi ls => let! _ := forM clone_estimator ls in alloc NotEstimator
  end.

(** [check_is_fitted(estimator)] on the predictive model. *)
Definition check_is_fitted_estimator (e : E) : result unit :=
  if est_is_fitted e then inr tt else inl NotFittedError.

(** [check_is_fitted(m)] on an object of the store. *)
Definition check_is_fitted (l : loc) : M unit :=
  λ w, match heap w !! l with
       | Some (Estimator m) =>
           if im_is_fitted m then (inr tt, w) else (inl NotFittedError, w)
       | _ => (inl TypeError, w)
       end.

(** [estimator.fit(A, B)]: the object is fitted in place. *)
Definition estimator_fit (l : loc) (A B : Matrix F) : M unit :=
  λ w, match heap w !! l with
       | Some (Estimator m) =>
           (inr tt, mkWorld (self w) (<[l := Estimator (im_fit m A B)]> (heap w)))
       | _ => (inl AttributeError, w)
       end.

(** [imputation_model.predict(A)], its entries in row-major order. *)
Definition estimator_predict (l : loc) (A : Matrix F) : M (list F) :=
  λ w, match heap w !! l with
       | Some (Estimator m) => (inr (im_predict m A), w)
       | _ => (inl AttributeError, w)
       end.

(** [self.rng.permutation(A)] *)
Definition rng_permutation (A : Matrix F) : M (Matrix F) :=
  λ w, let ir := rs_shuffled_arange (rng (self w)) (n_rows A) in
       (inr (take_rows ir.1 A), mkWorld (set_rng ir.2 (self w)) (heap w)).

(** The prediction of the predictive model (lines 159-162). *)
Definition estimator_output (c : CPI) (X : Matrix F) : Pred :=
  if score_proba c then est_predict_proba (estimator c) X
  else est_predict (estimator c) X.

(** ** The class *)

(** [CPI.__init__]. [os_entropy] is the generator state that
    [RandomState(None)] draws from the operating system. *)
Definition __init__ (estimator : E) (imputation_model : imputation_arg)
    (n_perm : nat) (groups : option (gmap group_key (list nat)))
    (loss : Y → Pred → F) (score_proba : bool) (random_state : option Z)
    (n_jobs : Z) (os_entropy : R) : result CPI :=
  rbind (check_is_fitted_estimator estimator) (λ _,
    inr (mkCPI estimator imputation_model
           (match imputation_model with Multi ls => ls | Single _ => [] end)
           n_perm groups random_state loss score_proba n_jobs
           (match random_state with Some s => rs_seed s | None => os_entropy end)
           None)).

(** [{j: [j] for j in range(n)}] *)
Definition singleton_groups (n : nat) : gmap group_key (list nat) :=
  list_to_map ((λ j, (inl j, [j])) <$> seq 0 n).

Definition joblib_fit_one_gp (estimator : loc) (X : Matrix F) (y : Y)
    (j : nat) : M loc :=
  let! ids := lookup_group j in
  let! X_j := lift (take_cols ids X) in
  let! ids' := lookup_group j in
  let! X_minus_j := lift (np_delete_cols ids' X) in
  let! _ := estimator_fit estimator X_minus_j X_j in
  ret estimator.

(** Lines 81-85: the groups and their number. *)
Definition prepare_groups (X : Matrix F) : M unit :=
  let! c := get_self in
  match groups c with
  | None =>
      let! _ := update_self (set_nb_groups (n_cols X)) in
      let! nb := get_nb_groups in
      update_self (set_groups (singleton_groups nb))
  | Some g => update_self (set_nb_groups (size g))
  end.

(** Lines 87-90: one clone per group when no list of models is there. *)
Definition prepare_models : M unit :=
  let! c := get_self in
  if length (list_imputation_mod c) =? 0 then
    let! nb := get_nb_groups in
    let! ls := repeatM nb (clone (imputation_model c)) in
    update_self (set_list_imputation_mod ls)
  else ret tt.

(** Lines 103-106: the fitting tasks, and the list they return. *)
Definition fit_imputation_models (X : Matrix F) (y : Y) : M unit :=
  let! c := get_self in
  let! fitted :=
    Parallel (λ j estimator, joblib_fit_one_gp estimator X y j)
             (list_imputation_mod c) in
  update_self (set_list_imputation_mod fitted).

(** [CPI.fit]. It returns [self]: the instance of the final state. *)
Definition fit (X : Matrix F) (y : Y) : M unit :=
  let! _ := prepare_groups X in
  let! _ := prepare_models in
  fit_imputation_models X y.

(** The body of the permutation loop up to the call of the predictive
    model (lines 154-157), for the permuted residual [P]. *)
Definition build_X_perm (uninit : nat → nat → F) (X X_minus_j X_j_hat : Matrix F)
    (group_ids non_group_ids : list nat) (P : Matrix F) : Matrix F :=
  let X_j_perm := mat_zip fadd X_j_hat P in
  assemble_X_perm uninit X X_minus_j group_ids non_group_ids X_j_perm.

(** One round of the permutation loop (lines 154-163). *)
Definition permutation_round (uninit : nat → nat → F)
    (X X_minus_j X_j_hat residual_j : Matrix F)
    (group_ids non_group_ids : list nat) : M Pred :=
  let! P := rng_permutation residual_j in
  let X_perm :=
    build_X_perm uninit X X_minus_j X_j_hat group_ids non_group_ids P in
  let! c := get_self in
  ret (estimator_output c X_perm).

Definition joblib_predict_one_gp (uninit : nat → nat → F)
    (imputation_model : loc) (X : Matrix F) (j : nat) : M (list Pred) :=
  let! ids := lookup_group j in
  let! X_j := lift (take_cols ids X) in
  let! ids' := lookup_group j in
  let! X_minus_j := lift (np_delete_cols ids' X) in
  let! flat := estimator_predict imputation_model X_minus_j in
  let! X_j_hat := lift (reshape (n_rows X_j) (n_cols X_j) flat) in
  let residual_j := mat_zip fsub X_j X_j_hat in
  let! group_ids := lookup_group j in
  let! non_group_ids := lift (np_delete_arange (n_cols X) group_ids) in
  let! c := get_self in
  repeatM (n_perm c)
    (permutation_round uninit X X_minus_j X_j_hat residual_j
       group_ids non_group_ids).

(** Lines 134-137 and 196-199: the list of models is not empty and
    every model in it is fitted. *)
Definition check_imputation_models : M unit :=
  let! c := get_self in
  if length (list_imputation_mod c) =? 0 then raise ValueError
  else
    let! _ := forM check_is_fitted (list_imputation_mod c) in
    ret tt.

(** [CPI.predict]: the stacked predictions, first axis the groups,
    second axis the permutations. *)
Definition predict (uninit : nat → nat → F) (X : Matrix F) (y : option Y)
  : M (list (list Pred)) :=
  let! _ := check_imputation_models in
  let! c := get_self in
  Parallel (λ j imputation_model,
              joblib_predict_one_gp uninit imputation_model X j)
           (list_imputation_mod c).

(** The dictionary [score] returns, one field per key. *)
Record out_dict := mkOut {
  loss_reference : F;
  loss_perm : gmap nat (list F);
  importance : list F
}.

(** Lines 213-218: [loss_perm[j]] for each row of the predictions. *)
Definition fill_loss_perm (loss : Y → Pred → F) (y : Y)
    (y_pred_perm : list (list Pred)) : gmap nat (list F) :=
  foldl (λ d jr, <[jr.1 := loss y <$> jr.2]> d) ∅
        (imap (λ j y_pred_j, (j, y_pred_j)) y_pred_perm).

Definition score (uninit : nat → nat → F) (X : Matrix F) (y : Y) : M out_dict :=
  let! c := get_self in
  let! _ := lift (check_is_fitted_estimator (estimator c)) in
  let! _ := check_imputation_models in
  let! c := get_self in
  let y_pred := estimator_output c X in
  let loss_reference := loss c y y_pred in
  let! y_pred_perm := predict uninit X (Some y) in
  let! c := get_self in
  let loss_perm := fill_loss_perm (loss c) y y_pred_perm in
  let! nb := get_nb_groups in
  let! imp :=
    lift (rmapM (λ j, match loss_perm !! j with
                      | Some l => inr (fsub (fmean l) loss_reference)
                      | None => inl KeyError
                      end) (seq 0 nb)) in
  ret (mkOut loss_reference loss_perm imp).
End model.

Arguments pyobj : clear implicits.
Arguments CPI : clear implicits.
Arguments world : clear implicits.
Arguments M : clear implicits.
Arguments out_dict : clear implicits.

(** ** Vocabulary of the statements *)

Section vocabulary.
Context {F Pred Y E Mo R : Type}.
Context `{!Scalar F, !Predictor E F Pred, !Imputer Mo F, !RandomStateOps R}.
Implicit Types (c : CPI F Pred Y E R) (w : world F Pred Y E Mo R).
Implicit Types (X : Matrix F).

(** The groups and their number once [fit] has looked at [X]. *)
Definition fit_groups c X : gmap group_key (list nat) :=
  match groups c with
  | None => singleton_groups (n_cols X)
  | Some g => g
  end.

Definition fit_nb_groups c X : nat :=
  match groups c with
  | None => n_cols X
  | Some g => size g
  end.

(** The state after lines 81-85 of [fit]. *)
Definition fit_prepared w X : world F Pred Y E Mo R :=
  mkWorld (set_groups (fit_groups (self w) X)
             (set_nb_groups (fit_nb_groups (self w) X) (self w)))
          (heap w).

(** The first [k] index arrays a generator in state [r] shuffles for
    arrays of [n] rows, and the state after them. *)
Fixpoint draws (k n : nat) (r : R) : list (list nat) * R :=
  match k with
  | 0 => ([], r)
  | S k' =>
      let ir := rs_shuffled_arange r n in
      let dr := draws k' n ir.2 in
      (ir.1 :: dr.1, dr.2)
  end.

Definition rng_after (k n : nat) (r : R) : R := (draws k n r).2.

(** The array that the round with the shuffled indices [idx] hands to
    the predictive model, for the group of columns [ids] and the
    imputation model in state [m]. *)
Definition perturbed (uninit : nat → nat → F) X (ids : list nat) (m : Mo)
    (idx : list nat) : Matrix F :=
  let X_j := cols ids X in
  let X_minus_j := without_cols ids X in
  let X_j_hat := mkMatrix (n_cols X_j)
                   (chunks (n_rows X_j) (n_cols X_j) (im_predict m X_minus_j)) in
  build_X_perm uninit X X_minus_j X_j_hat ids
    (delete_from 0 ids (seq 0 (n_cols X)))
    (take_rows idx (mat_zip fsub X_j X_j_hat)).

(** The state [w] with the generator in state [r]. *)
Definition with_rng (r : R) w : world F Pred Y E Mo R :=
  mkWorld (set_rng r (self w)) (heap w).

(** Group [j] is usable on [X] with the model at [l]: the group is in
    the dictionary under the key [j], its columns are columns of [X],
    and [l] holds a fitted estimator whose prediction has as many
    entries as the group's columns of [X]. *)
Definition group_ready w X (j : nat) (l : loc) : Prop :=
  ∃ g ids m X_minus_j,
    groups (self w) = Some g ∧ g !! (inl j : group_key) = Some ids ∧
    np_delete_cols ids X = inr X_minus_j ∧
    heap w !! l = Some (Estimator m) ∧ im_is_fitted m = true ∧
    length (im_predict m X_minus_j) = n_rows X * length ids.

(** Every model of a non-empty list is ready for its group. *)
Definition models_ready w X : Prop :=
  list_imputation_mod (self w) ≠ [] ∧
  ∀ j l, list_imputation_mod (self w) !! j = Some l → group_ready w X j l.

(** A method body that leaves [groups] and [nb_groups] as they are,
    whether it returns or raises. *)
Definition keeps_groups {A} (m : M F Pred Y E Mo R A) : Prop :=
  ∀ w, groups (self (m w).2) = groups (self w) ∧
       nb_groups (self (m w).2) = nb_groups (self w).

(** The imputation models handed to the constructor are estimators of
    the store [h]; a list has one model per group, all different
    objects. *)
Definition models_supplied (h : gmap loc (pyobj Mo)) (a : imputation_arg)
    (nb : nat) : Prop :=
  match a with
  | Single l0 => ∃ m0, h !! l0 = Some (Estimator m0)
  | Multi ls =>
      length ls = nb ∧ NoDup ls ∧
      ∀ l, l ∈ ls → ∃ m, h !! l = Some (Estimator m)
  end.

(** The list of imputation models is empty, or holds an object that is
    not a fitted estimator. *)
Definition models_not_fitted w : Prop :=
  list_imputation_mod (self w) = [] ∨
  ∃ l, l ∈ list_imputation_mod (self w) ∧
       ∀ m, heap w !! l = Some (Estimator m) → im_is_fitted m = false.

(** A fitted imputation model predicts one value per row and per column
    of the targets it was fitted on. *)
Definition imputer_shapes : Prop :=
  ∀ (m : Mo) (A B A' : Matrix F),
    length (im_predict (im_fit m A B) A') = n_rows A' * n_cols B.

(** Two constructions are given imputation models in the same states:
    one estimator each, or lists of as many different estimators as
    there are groups, in the same states position by position. *)
Definition models_alike (h1 : gmap loc (pyobj Mo)) (a1 : imputation_arg)
    (h2 : gmap loc (pyobj Mo)) (a2 : imputation_arg) (nb : nat) : Prop :=
  match a1, a2 with
  | Single l1, Single l2 =>
      ∃ m, h1 !! l1 = Some (Estimator m) ∧ h2 !! l2 = Some (Estimator m)
  | Multi ls1, Multi ls2 =>
      length ls1 = nb ∧ NoDup ls1 ∧ NoDup ls2 ∧
      ∃ ms, Forall2 (λ l m, h1 !! l = Some (Estimator m)) ls1 ms ∧
            Forall2 (λ l m, h2 !! l = Some (Estimator m)) ls2 ms
  | _, _ => False
  end.

(** The state in which [fit] finds the model of group [j] of a freshly
    constructed instance: a clone of the single model, or the [j]-th
    model of the list. *)
Definition prefit_state (h : gmap loc (pyobj Mo)) (a : imputation_arg)
    (j : nat) (m0 : Mo) : Prop :=
  match a with
  | Single l0 => ∃ m, h !! l0 = Some (Estimator m) ∧ m0 = im_clone m
  | Multi ls => ∃ l, ls !! j = Some l ∧ h !! l = Some (Estimator m0)
  end.

(** Lines 213-226 of [score] as a function of the predictions. *)
Definition collect_scores (lo : Y → Pred → F) (y : Y) (loss_reference : F)
    (y_pred_perm : list (list Pred)) (nb : nat) : result (out_dict F) :=
  rbind (rmapM (λ j, match fill_loss_perm lo y y_pred_perm !! j with
                     | Some l => inr (fsub (fmean l) loss_reference)
                     | None => inl KeyError
                     end) (seq 0 nb))
        (λ imp, inr (mkOut loss_reference (fill_loss_perm lo y y_pred_perm) imp)).

(** Group [j] can be fitted on [X]: it is in the dictionary under the
    key [j] and its columns are columns of [X]. *)
Definition group_fittable (g : gmap group_key (list nat)) X (j : nat) : Prop :=
  ∃ ids, g !! (inl j : group_key) = Some ids ∧ in_range (n_cols X) ids = true.
End vocabulary.

(** ** A small concrete setting *)

(** Integer scalars, a linear predictive model, imputation by the column
    means of the training targets, a generator that rotates the indices
    by its counter. The statements below are applied to it. *)
Module Example.

#[export] Instance Z_scalar : Scalar Z := {|
  fadd := Z.add;
  fsub := Z.sub;
  fmean := λ l, (foldr Z.add 0 l / Z.of_nat (length l))%Z
|}.

(** A linear model: its weights, and whether it is fitted. *)
Record linear := mkLinear { lin_fitted : bool; lin_weights : list Z }.

Definition dot (ws xs : list Z) : Z := foldr Z.add 0%Z (zip_with Z.mul ws xs).

#[export] Instance linear_predictor : Predictor linear Z (list Z) := {|
  est_is_fitted := lin_fitted;
  est_predict := λ e X, dot (lin_weights e) <$> rows X;
  est_predict_proba := λ e X, (λ r, dot (lin_weights e) r + 1)%Z <$> rows X
|}.

(** Imputation by the mean: the means of the target columns seen by
    [fit], predicted for every row. *)
Record mean_model := mkMean { mean_fitted : bool; mean_values : list Z }.

Definition column_means (B : Matrix Z) : list Z :=
  (λ col, fmean (omap (λ r, r !! col) (rows B))) <$> seq 0 (n_cols B).

#[export] Instance mean_imputer : Imputer mean_model Z := {|
  im_is_fitted := mean_fitted;
  im_fit := λ _ _ B, mkMean true (column_means B);
  im_predict := λ m A, mjoin (replicate (n_rows A) (mean_values m));
  im_clone := λ m, mkMean false [];
  im_fit_fitted := λ _ _ _, eq_refl
|}.

(** A generator that is a counter: the indices rotated by it. *)
Lemma rotate_seq_perm (r n : nat) : rotate r (seq 0 n) ≡ₚ seq 0 n.
Proof. unfold rotate. rewrite Permutation_app_comm. by rewrite take_drop. Qed.

#[export] Instance counter_rng : RandomStateOps nat := {|
  rs_seed := Z.to_nat;
  rs_shuffled_arange := λ r n, (rotate r (seq 0 n), S r);
  rs_shuffled_perm := rotate_seq_perm
|}.

Definition ex_X : Matrix Z := mkMatrix 2 [[1; 10]; [2; 20]; [6; 30]]%Z.
Definition ex_y : list Z := [11; 22; 36]%Z.
Definition ex_estimator : linear := mkLinear true [1; 1]%Z.
Definition ex_loss (y p : list Z) : Z :=
  foldr Z.add 0%Z (zip_with (λ a b, (a - b) * (a - b))%Z y p).
Definition ex_uninit (i col : nat) : Z := 77%Z.

(** The store before construction: one unfitted imputation model. *)
Definition ex_heap : gmap loc (pyobj mean_model) :=
  {[ 1%positive := Estimator (mkMean false []) ]}.

(** [CPI(estimator, model, n_perm=2, random_state=0)] *)
Definition ex_init : result (CPI Z (list Z) (list Z) linear nat) :=
  __init__ ex_estimator (Single 1%positive) 2 None ex_loss false (Some 0%Z) 1%Z 0.

Definition ex_cpi : CPI Z (list Z) (list Z) linear nat :=
  mkCPI ex_estimator (Single 1%positive) [] 2 None (Some 0%Z) ex_loss false 1%Z 0 None.

(** The same construction with a list of two models, in a store that
    holds them at the addresses 4 and 7. *)
Definition ex_heap_two : gmap loc (pyobj mean_model) :=
  {[ 4%positive := Estimator (mkMean false []);
     7%positive := Estimator (mkMean false [5%Z]) ]}.

Definition ex_cpi_list : CPI Z (list Z) (list Z) linear nat :=
  mkCPI ex_estimator (Multi [4%positive; 7%positive]) [4%positive; 7%positive]
    2 None (Some 0%Z) ex_loss false 1%Z 0 None.

(** A second store: the same unfitted model at another address, beside
    an object that is not an estimator. *)
Definition ex_heap' : gmap loc (pyobj mean_model) :=
  {[ 5%positive := Estimator (mkMean false []); 2%positive := NotEstimator ]}.

Definition ex_cpi' : CPI Z (list Z) (list Z) linear nat :=
  mkCPI ex_estimator (Single 5%positive) [] 2 None (Some 0%Z) ex_loss false
    1%Z 0 None.

Definition ex_uninit' (i col : nat) : Z := (5 + Z.of_nat i)%Z.

(** A store with a model fitted elsewhere, and an instance built on it
    from a list of models and explicit groups, never fitted. *)
Definition ex_heap_fitted : gmap loc (pyobj mean_model) :=
  {[ 1%positive := Estimator (mkMean true [3%Z]) ]}.

Definition ex_groups : gmap group_key (list nat) := {[ inl 0 := [0] ]}.

Definition ex_cpi_unfitted : CPI Z (list Z) (list Z) linear nat :=
  mkCPI ex_estimator (Multi [1%positive]) [1%positive] 2 (Some ex_groups)
    (Some 0%Z) ex_loss false 1%Z 0 None.

(** The state after [fit(ex_X, ex_y)]. *)
Definition ex_fitted : world Z (list Z) (list Z) linear mean_model nat :=
  (fit ex_X ex_y (mkWorld ex_cpi ex_heap)).2.
End Example.

(** ** Vocabulary of the statements on errors and on what is left alone *)

Section behaviour_vocabulary.
Context {F Pred Y E Mo R : Type}.
Context `{!Scalar F, !Predictor E F Pred, !Imputer Mo F, !RandomStateOps R}.
Implicit Types (c : CPI F Pred Y E R) (w : world F Pred Y E Mo R).
Implicit Types (X : Matrix F).

(** The attributes that only the constructor assigns have in [c'] the
    values they have in [c]. *)
Definition same_settings c c' : Prop :=
  estimator c' = estimator c ∧ imputation_model c' = imputation_model c ∧
  n_perm c' = n_perm c ∧ random_state c' = random_state c ∧
  loss c' = loss c ∧ score_proba c' = score_proba c ∧
  n_jobs c' = n_jobs c ∧ rng c' = rng c.

(** The imputation models handed to the constructor are estimators of
    the store [h]. *)
Definition models_given (h : gmap loc (pyobj Mo)) (a : imputation_arg) : Prop :=
  match a with
  | Single l0 => ∃ m0, h !! l0 = Some (Estimator m0)
  | Multi ls => ∀ l, l ∈ ls → ∃ m, h !! l = Some (Estimator m)
  end.

(** What the index operations of the fitting task of group [j] raise
    (lines 97-98), if anything. *)
Definition fit_task_error (g : gmap group_key (list nat)) X (j : nat)
  : option exn :=
  match g !! (inl j : group_key) with
  | None => Some KeyError
  | Some ids => if in_range (n_cols X) ids then None else Some IndexError
  end.

(** What the prediction task of group [j] raises before its
    permutation loop (lines 145-151), if anything, when its imputation
    model is in state [m]. *)
Definition predict_task_error c X (j : nat) (m : Mo) : option exn :=
  match groups c with
  | None => Some TypeError
  | Some g =>
      match g !! (inl j : group_key) with
      | None => Some KeyError
      | Some ids =>
          if in_range (n_cols X) ids then
            if length (im_predict m (without_cols ids X))
                 =? n_rows X * length ids
            then None else Some ValueError
          else Some IndexError
      end
  end.

(** A method body that changes nothing but the state of the generator,
    whether it returns or raises. *)
Definition only_rng {A} (m : M F Pred Y E Mo R A) : Prop :=
  ∀ w, ∃ r, (m w).2 = with_rng r w.

(** Every model of the list is a fitted estimator of the store: the
    checks of lines 136-137 pass. *)
Definition models_fitted w : Prop :=
  ∀ l, l ∈ list_imputation_mod (self w) →
       ∃ m, heap w !! l = Some (Estimator m) ∧ im_is_fitted m = true.
End behaviour_vocabulary.

(** ** Further concrete settings *)

(** Instances on the models of [Example] that [fit], [predict] or
    [score] cannot serve, and the arrays they are run on. *)
Module Scenarios.
Import Example.

(** Two groups under their integers, the second with a column that
    [ex_X] does not have. *)
Definition sc_groups_wide : gmap group_key (list nat) :=
  {[ inl 0 := [0]; inl 1 := [5] ]}.

Definition sc_cpi_wide : CPI Z (list Z) (list Z) linear nat :=
  mkCPI ex_estimator (Multi [4%positive; 7%positive]) [4%positive; 7%positive]
    2 (Some sc_groups_wide) (Some 0%Z) ex_loss false 1%Z 0 None.

(** Two groups under their names. *)
Definition sc_groups_named : gmap group_key (list nat) :=
  {[ inr "age" := [0]; inr "income" := [1] ]}.

Definition sc_cpi_named : CPI Z (list Z) (list Z) linear nat :=
  mkCPI ex_estimator (Single 1%positive) [] 2 (Some sc_groups_named)
    (Some 0%Z) ex_loss false 1%Z 0 None.

(** An array with the first column of [ex_X] only, and one with its
    three rows and no column. *)
Definition sc_X_narrow : Matrix Z := mkMatrix 1 [[1]; [2]; [6]]%Z.
Definition sc_X_empty : Matrix Z := mkMatrix 0 [[]; []; []].

(** A list with one model for the two columns of [ex_X]. *)
Definition sc_cpi_short : CPI Z (list Z) (list Z) linear nat :=
  mkCPI ex_estimator (Multi [4%positive]) [4%positive]
    2 None (Some 0%Z) ex_loss false 1%Z 0 None.

(** A list with the same object for the two columns of [ex_X]. *)
Definition sc_cpi_shared : CPI Z (list Z) (list Z) linear nat :=
  mkCPI ex_estimator (Multi [4%positive; 4%positive]) [4%positive; 4%positive]
    2 None (Some 0%Z) ex_loss false 1%Z 0 None.

(** An empty list of models. *)
Definition sc_cpi_empty : CPI Z (list Z) (list Z) linear nat :=
  mkCPI ex_estimator (Multi []) [] 2 None (Some 0%Z) ex_loss false 1%Z 0 None.
End Scenarios.

(** * The DNN learner (hidimstat/Dnn_learner.py)

    [Dnn_learner] keeps one [Dnn_learner_single] per column of the
    targets. The embedding has

    - arrays of any dimension as a shape and the entries in row-major
      order, with [np.squeeze], the stacking of copies, [a[i, ...]] and
      [y[:, [c]]] on them;
    - the class [Dnn_learner_single], which is defined in another file,
      as an interface: its constructor, [fit], [predict] and the
      attribute [X_test], all of which return;
    - the estimators as values in the list [list_estimators]: they are
      created by [fit] and reached through the list only;
    - the methods as functions from the instance to a result, or a
      raised exception, and the instance they leave.

    [np.array(list_res)] is the list of its entries along the first
    axis. [set_params], [hyper_tuning], [encode_outcome] and the
    [np.squeeze] of [predict_proba] depend on what is behind the
    interface and are left out. *)

(** ** Arrays of any dimension *)

Section ndarrays.
Context {F : Type}.

Record ndarray := mkNd { shape : list nat; data : list F }.

(** The number of entries of an array of shape [s]. *)
Definition size_of (s : list nat) : nat := foldr Nat.mul 1 s.

(** The entries fill the shape, as in any numpy array. *)
Definition wf_nd (a : ndarray) : Prop := length (data a) = size_of (shape a).

(** [np.squeeze(a)]: the axes of length one are removed. *)
Definition np_squeeze (a : ndarray) : ndarray :=
  mkNd (filter (λ n, n ≠ 1) (shape a)) (data a).

(** [np.array([a for i in range(k)])]: [k] copies along a new first
    axis; of the empty list, the empty array of shape [(0,)]. *)
Definition np_array_repeat (k : nat) (a : ndarray) : ndarray :=
  match k with
  | 0 => mkNd [0] []
  | S _ => mkNd (k :: shape a) (mjoin (replicate k (data a)))
  end.

(** [a[i, ...]]; [IndexError] on an array without axes and on an index
    that is not below the length of the first axis. *)
Definition index_first (i : nat) (a : ndarray) : result ndarray :=
  match shape a with
  | [] => inl IndexError
  | n :: s =>
      if i <? n
      then inr (mkNd s (take (size_of s) (drop (i * size_of s) (data a))))
      else inl IndexError
  end.

(** [y[:, [c]]]; [IndexError] on an array with fewer than two axes and
    on an index that is not below the length of the second axis. *)
Definition index_column (c : nat) (y : ndarray) : result ndarray :=
  match shape y with
  | n :: k :: s =>
      if c <? k
      then inr (mkNd (n :: 1 :: s)
                  (mjoin ((λ i, take (size_of s)
                                  (drop ((i * k + c) * size_of s) (data y)))
                            <$> seq 0 n)))
      else inl IndexError
  | _ => inl IndexError
  end.

(** [y.shape[-1]], for the default [y=None] too. *)
Definition last_dim (y : option ndarray) : result nat :=
  match y with
  | None => inl AttributeError
  | Some a =>
      match last (shape a) with
      | Some k => inr k
      | None => inl IndexError
      end
  end.
End ndarrays.

Arguments ndarray F : clear implicits.

(** ** The class *)

Module Dnn.
Section learner.
(** [V]: the values of the keyword arguments; [Est]: the states of a
    [Dnn_learner_single]; [Pr]: what its [predict] returns; [XT]: the
    values of its attribute [X_test]. *)
Context {F V Est Pr XT : Type}.

(** The keyword arguments of the constructor. *)
Record hyperparameters := mkHyper {
  encode : V;
  do_hypertuning : V;
  dict_hypertuning : V;
  n_ensemble : Z;
  min_keep : V;
  batch_size : V;
  batch_size_val : V;
  n_epoch : V;
  verbose : V;
  sampling_with_repitition : V;
  split_percentage : V;
  problem_type : V;
  list_continuous : V;
  list_grps : V;
  beta1 : V;
  beta2 : V;
  lr : V;
  epsilon : V;
  l1_weight : V;
  l2_weight : V;
  n_jobs : V;
  group_stacking : V;
  input_dimensions : V;
  random_state : V
}.

(** What a call of [predict] is given: an array, or a list of arrays. *)
Inductive predict_input :=
  | OneArray (X : ndarray F)
  | ArrayList (Xs : list (ndarray F)).

(** [Dnn_learner_single]: the constructor called with the keyword
    arguments, [fit] and [predict] with the state they leave the
    estimator in, the attribute [X_test]. *)
Class SingleLearner := {
  single_new : hyperparameters → Est;
  single_fit : Est → ndarray F → ndarray F → Est;
  single_predict : Est → predict_input → bool → Pr * Est;
  single_X_test : Est → XT
}.
Context `{!SingleLearner}.

(** The attributes of a [Dnn_learner]. An entry of [list_estimators]
    is [None] until the estimator of its column is constructed;
    [X_test] does not exist before [fit] sets it. *)
Record Dnn_learner := mkDnn {
  list_estimators : list (option Est);
  params : hyperparameters;
  pred : list (option Pr);
  enc_y : list V;
  is_encoded : bool;
  dim_repeat : nat;
  X_test : option (list (option XT))
}.

Definition set_list_estimators (l : list (option Est)) (self : Dnn_learner) :=
  mkDnn l (params self) (pred self) (enc_y self) (is_encoded self)
        (dim_repeat self) (X_test self).

Definition set_dim_repeat (k : nat) (self : Dnn_learner) :=
  mkDnn (list_estimators self) (params self) (pred self) (enc_y self)
        (is_encoded self) k (X_test self).

Definition set_X_test (xt : list (option XT)) (self : Dnn_learner) :=
  mkDnn (list_estimators self) (params self) (pred self) (enc_y self)
        (is_encoded self) (dim_repeat self) (Some xt).

(** [Dnn_learner.__init__] *)
Definition __init__ (kw : hyperparameters) : Dnn_learner :=
  mkDnn [] kw (replicate (Z.to_nat (n_ensemble kw)) None) [] false 1 None.

(** [Dnn_learner.check_X_dim] *)
Definition check_X_dim (self : Dnn_learner) (X : ndarray F) : ndarray F :=
  if negb (length (shape X) =? 3) || negb (hd 0 (shape X) =? dim_repeat self)
  then np_array_repeat (dim_repeat self) (np_squeeze X)
  else X.

(** Lines 140-143 of [fit]: the array the columns are fitted on. *)
Definition fit_reshape (X : ndarray F) (y : option (ndarray F))
    (self : Dnn_learner) : result (ndarray F) * Dnn_learner :=
  match (if negb (length (shape X) =? 3) then inr true
         else rbind (last_dim y) (λ k, inr (negb (hd 0 (shape X) =? k)))) with
  | inl e => (inl e, self)
  | inr true =>
      let X := np_squeeze X in
      match last_dim y with
      | inl e => (inl e, self)
      | inr k =>
          let X := np_array_repeat k X in
          match last_dim y with
          | inl e => (inl e, self)
          | inr k' => (inr X, set_dim_repeat k' self)
          end
      end
  | inr false => (inr X, self)
  end.

(** Lines 149-176: the estimator of one column is constructed, stored
    and fitted. *)
Definition fit_column (X : ndarray F) (y : option (ndarray F)) (y_col : nat)
    (self : Dnn_learner) : result unit * Dnn_learner :=
  if y_col <? length (list_estimators self) then
    let self :=
      set_list_estimators
        (<[y_col := Some (single_new (params self))]> (list_estimators self))
        self in
    match list_estimators self !! y_col with
    | Some (Some est) =>
        match index_first y_col X with
        | inl e => (inl e, self)
        | inr X_col =>
            match y with
            | None => (inl TypeError, self)
            | Some ya =>
                match index_column y_col ya with
                | inl e => (inl e, self)
                | inr y_c =>
                    (inr tt,
                     set_list_estimators
                       (<[y_col := Some (single_fit est X_col y_c)]>
                          (list_estimators self)) self)
                end
            end
        end
    | Some None => (inl AttributeError, self)
    | None => (inl IndexError, self)
    end
  else (inl IndexError, self).

(** [for y_col in cols: ...] *)
Fixpoint fit_columns (X : ndarray F) (y : option (ndarray F))
    (cols : list nat) (self : Dnn_learner) : result unit * Dnn_learner :=
  match cols with
  | [] => (inr tt, self)
  | y_col :: cols' =>
      match fit_column X y y_col self with
      | (inl e, self) => (inl e, self)
      | (inr _, self) => fit_columns X y cols' self
      end
  end.

(** [Dnn_learner.fit]. It returns [self]: the instance it leaves. *)
Definition fit (X : ndarray F) (y : option (ndarray F)) (self : Dnn_learner)
  : result unit * Dnn_learner :=
  match fit_reshape X y self with
  | (inl e, self) => (inl e, self)
  | (inr X, self) =>
      match last_dim y with
      | inl e => (inl e, self)
      | inr k =>
          let self := set_list_estimators (replicate k None) self in
          match last_dim y with
          | inl e => (inl e, self)
          | inr k' =>
              let self := set_X_test (replicate k' None) self in
              match last_dim y with
              | inl e => (inl e, self)
              | inr k'' => fit_columns X y (seq 0 k'') self
              end
          end
      end
  end.

(** Lines 262-267: the round of the loop of [predict] for the estimator
    at [estimator_ind]. *)
Definition predict_one (X : predict_input) (scale : bool) (estimator_ind : nat)
    (self : Dnn_learner) : result Pr * Dnn_learner :=
  match list_estimators self !! estimator_ind with
  | None => (inl IndexError, self)
  | Some estimator =>
      match X with
      | ArrayList Xs =>
          match rmapM (index_first estimator_ind) Xs with
          | inl e => (inl e, self)
          | inr curr_X =>
              match estimator with
              | None => (inl AttributeError, self)
              | Some est =>
                  let (res, est) := single_predict est (ArrayList curr_X) scale in
                  (inr res,
                   set_list_estimators
                     (<[estimator_ind := Some est]> (list_estimators self)) self)
              end
          end
      | OneArray Xa =>
          match estimator with
          | None => (inl AttributeError, self)
          | Some est =>
              match index_first estimator_ind Xa with
              | inl e => (inl e, self)
              | inr X_ind =>
                  let (res, est) := single_predict est (OneArray X_ind) scale in
                  let self :=
                    set_list_estimators
                      (<[estimator_ind := Some est]> (list_estimators self))
                      self in
                  match X_test self with
                  | None => (inl AttributeError, self)
                  | Some xt =>
                      if estimator_ind <? length xt
                      then (inr res,
                            set_X_test
                              (<[estimator_ind := Some (single_X_test est)]> xt)
                              self)
                      else (inl IndexError, self)
                  end
              end
          end
      end
  end.

(** [for estimator_ind, estimator in enumerate(...)], over the
    positions [inds], with the results appended to [list_res]. *)
Fixpoint predict_each (X : predict_input) (scale : bool) (inds : list nat)
    (list_res : list Pr) (self : Dnn_learner) : result (list Pr) * Dnn_learner :=
  match inds with
  | [] => (inr list_res, self)
  | estimator_ind :: inds' =>
      match predict_one X scale estimator_ind self with
      | (inl e, self) => (inl e, self)
      | (inr res, self) => predict_each X scale inds' (list_res ++ [res]) self
      end
  end.

(** [Dnn_learner.predict] *)
Definition predict (X : predict_input) (scale : bool) (self : Dnn_learner)
  : result (list Pr) * Dnn_learner :=
  let X :=
    match X with
    | ArrayList Xs => ArrayList (check_X_dim self <$> Xs)
    | OneArray Xa => OneArray (check_X_dim self Xa)
    end in
  predict_each X scale (seq 0 (length (list_estimators self))) [] self.

(** Two learners hold what the constructor stored of the same keyword
    arguments. *)
Definition same_keywords (self1 self2 : Dnn_learner) : Prop :=
  params self1 = params self2 ∧ pred self1 = pred self2 ∧
  enc_y self1 = enc_y self2 ∧ is_encoded self1 = is_encoded self2.
End learner.

Arguments hyperparameters V : clear implicits.
Arguments predict_input F : clear implicits.
Arguments SingleLearner F V Est Pr XT : clear implicits.
Arguments Dnn_learner V Est Pr XT : clear implicits.
End Dnn.

(** ** A small concrete learner *)

(** Integer entries and keyword arguments; estimators that remember the
    arrays they were fitted on and the input of their last [predict],
    and predict the entries of their targets. *)
Module DnnExample.

Record memo := mkMemo {
  memo_fitted : option (ndarray Z * ndarray Z);
  memo_seen : option (Dnn.predict_input Z)
}.

#[export] Instance memo_learner
  : Dnn.SingleLearner Z Z memo (list Z) (option (Dnn.predict_input Z)) := {|
  Dnn.single_new := λ _, mkMemo None None;
  Dnn.single_fit := λ e X y, mkMemo (Some (X, y)) (memo_seen e);
  Dnn.single_predict := λ e X _,
    (match memo_fitted e with Some (_, y) => data y | None => [] end,
     mkMemo (memo_fitted e) (Some X));
  Dnn.single_X_test := memo_seen
|}.

Definition dn_kw : Dnn.hyperparameters Z :=
  (Dnn.mkHyper 0 0 0 3 10 32 128 200 0 1 0 0 0 0 0 0 0 0 0 0 1 0 0 2023)%Z.

(** A new learner, a matrix of two rows and two columns, targets with
    two columns. *)
Definition dn_new : Dnn.Dnn_learner Z memo (list Z) (option (Dnn.predict_input Z)) :=
  Dnn.__init__ dn_kw.

Definition dn_X : ndarray Z := mkNd [2; 2] [1; 2; 3; 4]%Z.
Definition dn_y : ndarray Z := mkNd [2; 2] [10; 20; 30; 40]%Z.

(** The learner after [fit(dn_X, dn_y)]. *)
Definition dn_fitted : Dnn.Dnn_learner Z memo (list Z) (option (Dnn.predict_input Z)) :=
  (Dnn.fit dn_X (Some dn_y) dn_new).2.

(** One sample, a matrix to predict on, targets with one axis, and an
    array stacked for two columns. *)
Definition dn_X_row : ndarray Z := mkNd [1; 3] [7; 8; 9]%Z.
Definition dn_X_test : ndarray Z := mkNd [2; 2] [5; 6; 7; 8]%Z.
Definition dn_y_vector : ndarray Z := mkNd [3] [10; 20; 30]%Z.
Definition dn_X_stacked : ndarray Z := mkNd [2; 2; 2] [1; 2; 3; 4; 1; 2; 3; 4]%Z.
End DnnExample.

(** * Facts about the array operations *)

Section array_facts.
Context {F : Type}.
Implicit Types (X V : Matrix F) (r vals junk : list F) (ids : list nat).

Lemma in_range_Forall p ids : in_range p ids = true ↔ Forall (λ i, i < p) ids.
Proof.
  unfold in_range. rewrite forallb_forall, Forall_forall.
  split; intros H i Hi.
  - apply Nat.ltb_lt, H. by apply list_elem_of_In.
  - apply Nat.ltb_lt, H. by apply list_elem_of_In.
Qed.

Lemma take_idx_Forall2 {A} ids (l : list A) :
  Forall (λ i, i < length l) ids →
  Forall2 (λ i x, l !! i = Some x) ids (take_idx ids l).
Proof.
  unfold take_idx. induction 1 as [|i ids Hi _ IH]; simpl; [constructor|].
  destruct (lookup_lt_is_Some_2 l i Hi) as [x Hx]. rewrite Hx.
  by constructor.
Qed.

Lemma length_take_idx {A} ids (l : list A) :
  Forall (λ i, i < length l) ids → length (take_idx ids l) = length ids.
Proof. intros H. symmetry. eapply Forall2_length, take_idx_Forall2, H. Qed.

Lemma take_idx_ext {A} ids (l l' : list A) :
  (∀ i, i ∈ ids → l !! i = l' !! i) → take_idx ids l = take_idx ids l'.
Proof.
  unfold take_idx. induction ids as [|i ids IH]; intros H; simpl; [done|].
  rewrite (H i) by left. destruct (l' !! i); simpl.
  - f_equal. apply IH. intros; apply H. by right.
  - apply IH. intros; apply H. by right.
Qed.

Lemma take_idx_seq_from {A} (l0 l : list A) :
  take_idx (seq (length l0) (length l)) (l0 ++ l) = l.
Proof.
  unfold take_idx. revert l0. induction l as [|x l IH]; intros l0; simpl; [done|].
  rewrite list_lookup_middle by done. simpl. f_equal.
  specialize (IH (l0 ++ [x])). rewrite length_app in IH. simpl in IH.
  rewrite Nat.add_1_r in IH. by rewrite <- app_assoc in IH.
Qed.

Lemma take_idx_seq {A} (l : list A) : take_idx (seq 0 (length l)) l = l.
Proof. apply (take_idx_seq_from []). Qed.

(** Fancy indexing with a permutation of the positions permutes. *)
Lemma take_idx_Permutation {A} idx (l : list A) :
  idx ≡ₚ seq 0 (length l) → take_idx idx l ≡ₚ l.
Proof.
  intros H. unfold take_idx. rewrite H. apply reflexive_eq, take_idx_seq.
Qed.

Lemma take_idx_of_Forall2 {A} ids (l vals : list A) :
  Forall2 (λ i v, l !! i = Some v) ids vals → take_idx ids l = vals.
Proof.
  unfold take_idx. induction 1 as [|i v ids vals Hi _ IH]; simpl; [done|].
  rewrite Hi. simpl. by f_equal.
Qed.

(** [np.delete] keeps exactly the positions that are not listed. *)
Lemma delete_from_seq k n ids :
  delete_from k ids (seq k n) = filter (λ c, c ∉ ids) (seq k n).
Proof.
  revert k. induction n as [|n IH]; intros k; simpl; [done|].
  rewrite filter_cons. case_bool_decide; case_decide; try done;
    rewrite ?IH; done.
Qed.

Lemma delete_from_Forall2 {A} k ids (l : list A) :
  Forall2 (λ c v, l !! (c - k) = Some v ∧ k ≤ c)
          (delete_from k ids (seq k (length l))) (delete_from k ids l).
Proof.
  revert k. induction l as [|x l IH]; intros k; simpl; [constructor|].
  assert (Forall2 (λ c v, (x :: l) !! (c - k) = Some v ∧ k ≤ c)
            (delete_from (S k) ids (seq (S k) (length l)))
            (delete_from (S k) ids l)) as Htl.
  { eapply Forall2_impl; [apply IH|]. intros c v [Hc Hle]. split; [|lia].
    replace (c - k) with (S (c - S k)) by lia. done. }
  case_bool_decide; [done|]. constructor; [|done].
  rewrite Nat.sub_diag. done.
Qed.

Lemma delete_from_lookups {A} ids (l : list A) :
  Forall2 (λ c v, l !! c = Some v)
          (delete_from 0 ids (seq 0 (length l))) (delete_from 0 ids l).
Proof.
  eapply Forall2_impl; [apply (delete_from_Forall2 0)|].
  intros c v [Hc _]. by rewrite Nat.sub_0_r in Hc.
Qed.

Lemma length_delete_from {A} ids (l : list A) :
  length (delete_from 0 ids l) = length (delete_from 0 ids (seq 0 (length l))).
Proof. symmetry. eapply Forall2_length, delete_from_lookups. Qed.

Lemma delete_from_take_idx {A} ids (l : list A) :
  delete_from 0 ids l = take_idx (filter (λ c, c ∉ ids) (seq 0 (length l))) l.
Proof.
  rewrite <- delete_from_seq. symmetry.
  apply take_idx_of_Forall2, delete_from_lookups.
Qed.

Lemma elem_of_delete_arange p ids c :
  c ∈ delete_from 0 ids (seq 0 p) ↔ c < p ∧ c ∉ ids.
Proof.
  rewrite delete_from_seq, list_elem_of_filter, elem_of_seq. intuition lia.
Qed.

Lemma NoDup_delete_arange p ids : NoDup (delete_from 0 ids (seq 0 p)).
Proof. rewrite delete_from_seq. apply NoDup_filter, NoDup_seq. Qed.

(** Assignment through a list of positions. *)
Lemma assign_idx_cons i ids v vals r :
  assign_idx (i :: ids) (v :: vals) r = assign_idx ids vals (<[i:=v]> r).
Proof. done. Qed.

Lemma length_assign_idx ids vals r :
  length (assign_idx ids vals r) = length r.
Proof.
  revert vals r. induction ids as [|i ids IH]; intros [|v vals] r; try done.
  rewrite assign_idx_cons, IH. apply length_insert.
Qed.

Lemma assign_idx_lookup_other ids vals r c :
  c ∉ ids → assign_idx ids vals r !! c = r !! c.
Proof.
  revert vals r. induction ids as [|i ids IH]; intros [|v vals] r Hc; try done.
  rewrite assign_idx_cons, IH by (intros ?; apply Hc; by right).
  apply list_lookup_insert_ne. intros ->. apply Hc. by left.
Qed.

Lemma assign_idx_lookups ids vals r :
  NoDup ids → Forall (λ i, i < length r) ids → length vals = length ids →
  Forall2 (λ i v, assign_idx ids vals r !! i = Some v) ids vals.
Proof.
  revert vals r. induction ids as [|i ids IH]; intros [|v vals] r Hnd Hr Hl;
    simplify_eq/=; [constructor|].
  apply NoDup_cons in Hnd as [Hi Hnd]. apply Forall_cons in Hr as [Hir Hr].
  rewrite assign_idx_cons. constructor.
  - rewrite assign_idx_lookup_other by done. by apply list_lookup_insert_eq.
  - apply IH; [done| |done]. eapply Forall_impl; [apply Hr|].
    intros j Hj. simpl in Hj. by rewrite length_insert.
Qed.

Lemma assign_idx_agree ids vals r r' :
  length vals = length ids → length r = length r' →
  (∀ c, c ∉ ids → r !! c = r' !! c) →
  assign_idx ids vals r = assign_idx ids vals r'.
Proof.
  revert vals r r'. induction ids as [|i ids IH]; intros [|v vals] r r' Hl Hlen H;
    simplify_eq/=.
  - apply list_eq. intros c. apply H. by intros ?%elem_of_nil.
  - rewrite !assign_idx_cons. apply IH; [done|by rewrite !length_insert|].
    intros c Hc. destruct (decide (c = i)) as [->|Hne].
    + destruct (decide (i < length r)).
      * rewrite !list_lookup_insert_eq by lia. done.
      * rewrite !list_insert_ge by lia. rewrite !lookup_ge_None_2 by lia. done.
    + rewrite !list_lookup_insert_ne by done. apply H.
      intros [?|?]%elem_of_cons; done.
Qed.

(** One row of the perturbed design: the memory [junk], then the kept
    columns of the row [x], then the group's columns [v]. *)
Lemma row_outside_group p ids (x : list F) junk (v : list F) c :
  length x = p → length junk = p → c < p → c ∉ ids →
  assign_idx ids v
    (assign_idx (delete_from 0 ids (seq 0 p)) (delete_from 0 ids x) junk) !! c
  = x !! c.
Proof.
  intros Hx Hj Hc Hni. rewrite assign_idx_lookup_other by done.
  assert (c ∈ delete_from 0 ids (seq 0 p)) as Hin
    by (apply elem_of_delete_arange; done).
  apply list_elem_of_lookup in Hin as [k Hk].
  pose proof (delete_from_lookups ids x) as Hx2. rewrite Hx in Hx2.
  destruct (Forall2_lookup_l _ _ _ _ _ Hx2 Hk) as (y & Hy & Hxy).
  rewrite Hxy.
  assert (Forall2 (λ i w, assign_idx (delete_from 0 ids (seq 0 p))
                            (delete_from 0 ids x) junk !! i = Some w)
            (delete_from 0 ids (seq 0 p)) (delete_from 0 ids x)) as Ha.
  { apply assign_idx_lookups.
    - apply NoDup_delete_arange.
    - apply Forall_forall. intros i Hi%elem_of_delete_arange. lia.
    - rewrite length_delete_from. by rewrite Hx. }
  destruct (Forall2_lookup_l _ _ _ _ _ Ha Hk) as (y' & Hy' & Hxy').
  congruence.
Qed.

Lemma row_group_cols p ids (x : list F) junk (v : list F) :
  NoDup ids → Forall (λ i, i < p) ids → length junk = p →
  length v = length ids →
  take_idx ids
    (assign_idx ids v
       (assign_idx (delete_from 0 ids (seq 0 p)) (delete_from 0 ids x) junk))
  = v.
Proof.
  intros Hnd Hr Hj Hv. apply take_idx_of_Forall2, assign_idx_lookups; [done| |done].
  by rewrite length_assign_idx, Hj.
Qed.

Lemma row_junk_irrelevant p ids (x : list F) junk (junk' v : list F) :
  length x = p → length junk = p → length junk' = p →
  length v = length ids →
  assign_idx ids v
    (assign_idx (delete_from 0 ids (seq 0 p)) (delete_from 0 ids x) junk)
  = assign_idx ids v
    (assign_idx (delete_from 0 ids (seq 0 p)) (delete_from 0 ids x) junk').
Proof.
  intros Hx Hj Hj' Hv. apply assign_idx_agree; [done| |].
  - by rewrite !length_assign_idx, Hj, Hj'.
  - intros c Hc. destruct (decide (c < p)) as [Hlt|Hge].
    + pose proof (row_outside_group p ids x junk [] c Hx Hj Hlt Hc) as H1.
      pose proof (row_outside_group p ids x junk' [] c Hx Hj' Hlt Hc) as H2.
      unfold assign_idx at 1 in H1. unfold assign_idx at 1 in H2.
      rewrite zip_with_nil_r in H1, H2. simpl in H1, H2. congruence.
    + rewrite !lookup_ge_None_2; [done| |]; rewrite length_assign_idx; lia.
Qed.

Lemma length_chunks n p (flat : list F) : length (chunks n p flat) = n.
Proof. revert flat. induction n; intros; simpl; [done|]. by rewrite IHn. Qed.

Lemma chunks_widths n p (flat : list F) :
  length flat = n * p → Forall (λ r, length r = p) (chunks n p flat).
Proof.
  revert flat. induction n as [|n IH]; intros flat Hl; simpl; constructor.
  - rewrite length_take. lia.
  - apply IH. rewrite length_drop. lia.
Qed.
End array_facts.

(** * The perturbed design matrix *)

Section design_facts.
Context {F : Type}.
Implicit Types (X V : Matrix F) (ids ng : list nat).

Lemma assemble_X_perm_n_cols uninit X X_minus_j ids ng V :
  n_cols (assemble_X_perm uninit X X_minus_j ids ng V) = n_cols X.
Proof. done. Qed.

Lemma assemble_X_perm_row uninit X X_minus_j ids ng V i (x v : list F) :
  np_delete_cols ids X = inr X_minus_j →
  np_delete_arange (n_cols X) ids = inr ng →
  rows X !! i = Some x → rows V !! i = Some v →
  rows (assemble_X_perm uninit X X_minus_j ids ng V) !! i =
    Some (assign_idx ids v
            (assign_idx (delete_from 0 ids (seq 0 (n_cols X)))
               (delete_from 0 ids x) (uninit i <$> seq 0 (n_cols X)))).
Proof.
  unfold np_delete_cols, np_delete_arange, without_cols.
  destruct (in_range (n_cols X) ids); [|done]. intros [= <-] [= <-] Hx Hv.
  unfold assemble_X_perm, set_cols, empty_like. simpl.
  rewrite !lookup_zip_with, Hv. simpl.
  rewrite list_lookup_fmap, Hx. simpl.
  rewrite list_lookup_imap, Hx. done.
Qed.

Lemma assemble_X_perm_n_rows uninit X X_minus_j ids ng V :
  np_delete_cols ids X = inr X_minus_j → n_rows V = n_rows X →
  n_rows (assemble_X_perm uninit X X_minus_j ids ng V) = n_rows X.
Proof.
  unfold np_delete_cols, without_cols. destruct (in_range (n_cols X) ids); [|done].
  intros [= <-] HV. unfold n_rows, assemble_X_perm, set_cols, empty_like in *. simpl.
  rewrite !length_zip_with, length_fmap, length_imap. lia.
Qed.

(** The group's columns of the assemble_X_perm array are [V]. *)
Lemma assemble_X_perm_group_cols uninit X X_minus_j ids ng V :
  np_delete_cols ids X = inr X_minus_j →
  np_delete_arange (n_cols X) ids = inr ng →
  NoDup ids → n_rows V = n_rows X → n_cols V = length ids → wf_matrix V →
  take_cols ids (assemble_X_perm uninit X X_minus_j ids ng V) = inr V.
Proof.
  intros Hd Ha Hnd Hn Hc Hwf. unfold take_cols. rewrite assemble_X_perm_n_cols.
  assert (in_range (n_cols X) ids = true) as Hr.
  { unfold np_delete_cols in Hd. by destruct (in_range (n_cols X) ids). }
  rewrite Hr. f_equal. unfold cols.
  pose proof (assemble_X_perm_n_rows uninit X X_minus_j ids ng V Hd Hn) as Hl.
  rewrite <- Hc.
  transitivity (mkMatrix (n_cols V) (rows V)); [|by destruct V]. f_equal.
  apply list_eq. intros i. rewrite list_lookup_fmap.
  destruct (rows V !! i) as [v|] eqn:Hv.
  - destruct (lookup_lt_is_Some_2 (rows X) i) as [x Hx].
    { apply lookup_lt_Some in Hv. unfold n_rows in Hn. lia. }
    rewrite (assemble_X_perm_row _ _ _ _ _ V _ x v Hd Ha Hx Hv).
    simpl. f_equal.
    apply (row_group_cols (n_cols X)); [done| |by rewrite length_fmap, length_seq|].
    + by apply in_range_Forall.
    + eapply Forall_lookup_1 in Hwf; [|apply Hv]. simpl in Hwf. lia.
  - rewrite lookup_ge_None_2; [done|].
    unfold n_rows in *. rewrite Hl, <- Hn. by apply lookup_ge_None.
Qed.

(** A column outside the group is the column of [X]. *)
Lemma assemble_X_perm_other_col uninit X X_minus_j ids ng V c :
  np_delete_cols ids X = inr X_minus_j →
  np_delete_arange (n_cols X) ids = inr ng →
  wf_matrix X → n_rows V = n_rows X → c < n_cols X → c ∉ ids →
  take_cols [c] (assemble_X_perm uninit X X_minus_j ids ng V) = take_cols [c] X.
Proof.
  intros Hd Ha Hwf Hn Hc Hni. unfold take_cols. rewrite assemble_X_perm_n_cols.
  destruct (in_range (n_cols X) [c]); [|done]. f_equal. unfold cols. f_equal.
  apply list_eq. intros i. rewrite !list_lookup_fmap.
  destruct (rows X !! i) as [x|] eqn:Hx.
  - destruct (lookup_lt_is_Some_2 (rows V) i) as [v Hv].
    { apply lookup_lt_Some in Hx. unfold n_rows in Hn. lia. }
    rewrite (assemble_X_perm_row _ _ _ _ _ _ _ x v Hd Ha Hx Hv).
    cbn [fmap option_fmap option_map]. f_equal.
    apply take_idx_ext. intros c' ->%list_elem_of_singleton.
    apply (row_outside_group (n_cols X)); [|by rewrite length_fmap, length_seq|done|done].
    eapply Forall_lookup_1 in Hwf; [|apply Hx]. done.
  - rewrite lookup_ge_None_2; [done|].
    pose proof (assemble_X_perm_n_rows uninit X X_minus_j ids ng V Hd Hn) as Hl.
    unfold n_rows in *. rewrite Hl. by apply lookup_ge_None.
Qed.

(** What the allocated memory held does not show in the result. *)
Lemma assemble_X_perm_memory_irrelevant uninit uninit' X X_minus_j ids ng V :
  np_delete_cols ids X = inr X_minus_j →
  np_delete_arange (n_cols X) ids = inr ng →
  wf_matrix X → n_rows V = n_rows X → n_cols V = length ids → wf_matrix V →
  assemble_X_perm uninit X X_minus_j ids ng V = assemble_X_perm uninit' X X_minus_j ids ng V.
Proof.
  intros Hd Ha Hwf Hn Hc HwfV.
  assert (∀ u, n_rows (assemble_X_perm u X X_minus_j ids ng V) = n_rows X) as Hl
    by (intros; by apply assemble_X_perm_n_rows).
  unfold n_rows in *.
  destruct (assemble_X_perm uninit X X_minus_j ids ng V) as [p1 r1] eqn:E1.
  destruct (assemble_X_perm uninit' X X_minus_j ids ng V) as [p2 r2] eqn:E2.
  assert (p1 = n_cols X) as -> by (by rewrite <- (assemble_X_perm_n_cols uninit X X_minus_j ids ng V), E1).
  assert (p2 = n_cols X) as -> by (by rewrite <- (assemble_X_perm_n_cols uninit' X X_minus_j ids ng V), E2).
  f_equal. apply list_eq. intros i.
  change r1 with (rows (mkMatrix (n_cols X) r1)).
  change r2 with (rows (mkMatrix (n_cols X) r2)). rewrite <- E1, <- E2.
  destruct (rows X !! i) as [x|] eqn:Hx.
  - destruct (lookup_lt_is_Some_2 (rows V) i) as [v Hv].
    { apply lookup_lt_Some in Hx. lia. }
    rewrite !(assemble_X_perm_row _ _ _ _ _ _ _ x v Hd Ha Hx Hv). f_equal.
    apply (row_junk_irrelevant (n_cols X)); rewrite ?length_fmap, ?length_seq; try done.
    + eapply Forall_lookup_1 in Hwf; [|apply Hx]. done.
    + eapply Forall_lookup_1 in HwfV; [|apply Hv]. simpl in HwfV. lia.
  - rewrite !lookup_ge_None_2; [done| |]; rewrite Hl; by apply lookup_ge_None.
Qed.
End design_facts.

(** * The methods *)

(** Rewrite with a fact about the state and reduce the exposed match. *)
Ltac step H := rewrite H; cbv beta iota.

Section method_facts.
Context {F Pred Y E Mo R : Type}.
Context `{!Scalar F, !Predictor E F Pred, !Imputer Mo F, !RandomStateOps R}.
Implicit Types (c : CPI F Pred Y E R) (w : world F Pred Y E Mo R).
Implicit Types (X : Matrix F) (h : gmap loc (pyobj Mo)) (ls : list loc).
Implicit Types (g : gmap group_key (list nat)).

Lemma bind_run {A B} (m : M F Pred Y E Mo R A) (f : A → M F Pred Y E Mo R B) w a w' :
  m w = (inr a, w') → bind m f w = f a w'.
Proof. intros H. unfold bind. by rewrite H. Qed.

Lemma bind_raise {A B} (m : M F Pred Y E Mo R A) (f : A → M F Pred Y E Mo R B) w e w' :
  m w = (inl e, w') → bind m f w = (inl e, w').
Proof. intros H. unfold bind. by rewrite H. Qed.

Lemma set_rng_same c : set_rng (rng c) c = c.
Proof. by destruct c. Qed.

Lemma with_rng_same w : with_rng (rng (self w)) w = w.
Proof. unfold with_rng. rewrite set_rng_same. by destruct w. Qed.

Lemma in_range_take_cols ids X :
  in_range (n_cols X) ids = true → ∃ X_j, take_cols ids X = inr X_j.
Proof. intros H. unfold take_cols. rewrite H. eauto. Qed.

Lemma in_range_np_delete_cols ids X :
  in_range (n_cols X) ids = true → ∃ X_mj, np_delete_cols ids X = inr X_mj.
Proof. intros H. unfold np_delete_cols. rewrite H. eauto. Qed.

Lemma take_cols_in_range ids X :
  in_range (n_cols X) ids = true → take_cols ids X = inr (cols ids X).
Proof. intros H. unfold take_cols. by rewrite H. Qed.

Lemma np_delete_cols_in_range ids X :
  in_range (n_cols X) ids = true →
  np_delete_cols ids X = inr (without_cols ids X).
Proof. intros H. unfold np_delete_cols. by rewrite H. Qed.

Lemma np_delete_cols_inv ids X X_mj :
  np_delete_cols ids X = inr X_mj →
  in_range (n_cols X) ids = true ∧ X_mj = without_cols ids X.
Proof. unfold np_delete_cols. destruct (in_range _ _); [|done]. by intros [= <-]. Qed.

(** ** [{j: [j] for j in range(n)}] *)

Lemma singleton_groups_lookup n (k : group_key) :
  singleton_groups n !! k =
    match k with
    | inl j => if decide (j < n) then Some [j] else None
    | inr _ => None
    end.
Proof.
  unfold singleton_groups.
  destruct k as [j|s]; [case_decide as Hj|].
  - apply elem_of_list_to_map_1.
    + rewrite <- list_fmap_compose. simpl.
      apply (NoDup_fmap_2 _), NoDup_seq.
    + apply list_elem_of_fmap. exists j. split; [done|]. apply elem_of_seq. lia.
  - apply not_elem_of_list_to_map_1. rewrite <- list_fmap_compose.
    intros (i & [= ->] & Hi%elem_of_seq)%list_elem_of_fmap. lia.
  - apply not_elem_of_list_to_map_1. rewrite <- list_fmap_compose.
    by intros (i & ? & _)%list_elem_of_fmap.
Qed.

Lemma singleton_groups_size n : size (singleton_groups n) = n.
Proof.
  unfold singleton_groups. rewrite <- length_map_to_list.
  rewrite map_to_list_to_map.
  - by rewrite length_fmap, length_seq.
  - rewrite <- list_fmap_compose. apply (NoDup_fmap_2 _), NoDup_seq.
Qed.

(** ** One fitting task, the loop of tasks, the clones *)

Lemma joblib_fit_one_gp_run l X (y : Y) j w g ids m X_j X_mj :
  groups (self w) = Some g → g !! (inl j : group_key) = Some ids →
  take_cols ids X = inr X_j → np_delete_cols ids X = inr X_mj →
  heap w !! l = Some (Estimator m) →
  joblib_fit_one_gp l X y j w =
    (inr l, mkWorld (self w) (<[l := Estimator (im_fit m X_mj X_j)]> (heap w))).
Proof.
  intros Hg Hj HXj HXmj Hl.
  cbv [joblib_fit_one_gp bind lookup_group get_self lift estimator_fit ret].
  by repeat first [step Hg | step Hj | step HXj | step HXmj | step Hl].
Qed.

Lemma fit_loop X (y : Y) g ls : ∀ j w,
  groups (self w) = Some g → NoDup ls →
  (∀ i l, ls !! i = Some l →
     group_fittable g X (j + i) ∧ ∃ m, heap w !! l = Some (Estimator m)) →
  ∃ h', for_enumerate (λ j e, joblib_fit_one_gp e X y j) j ls w
          = (inr ls, mkWorld (self w) h') ∧
        dom h' = dom (heap w) ∧
        (∀ l, l ∉ ls → h' !! l = heap w !! l) ∧
        (∀ i l ids m X_j X_mj,
           ls !! i = Some l → g !! (inl (j + i) : group_key) = Some ids →
           heap w !! l = Some (Estimator m) →
           take_cols ids X = inr X_j → np_delete_cols ids X = inr X_mj →
           h' !! l = Some (Estimator (im_fit m X_mj X_j))).
Proof.
  induction ls as [|l ls IH]; intros j w Hg Hnd Hok.
  - exists (heap w). simpl. unfold ret. destruct w. done.
  - apply NoDup_cons in Hnd as [Hl Hnd].
    destruct (Hok 0 l eq_refl) as [(ids & Hids & Hr) [m Hm]].
    rewrite Nat.add_0_r in Hids.
    destruct (in_range_take_cols _ _ Hr) as [X_j HXj].
    destruct (in_range_np_delete_cols _ _ Hr) as [X_mj HXmj].
    set (w1 := mkWorld (self w) (<[l := Estimator (im_fit m X_mj X_j)]> (heap w))).
    destruct (IH (S j) w1) as (h' & Hrun & Hdom & Hother & Hfit); [done|done| |].
    { intros i l' Hl'. destruct (Hok (S i) l' Hl') as [Hgf [m' Hm']].
      split; [by replace (S j + i) with (j + S i) by lia|].
      exists m'. simpl. rewrite lookup_insert_ne; [done|].
      intros ->. apply Hl. by eapply list_elem_of_lookup_2. }
    exists h'. split; [|split; [|split]].
    + simpl.
      rewrite (bind_run _ _ _ _ _
                 (joblib_fit_one_gp_run l X y j w g ids m X_j X_mj Hg Hids HXj HXmj Hm)).
      by rewrite (bind_run _ _ _ _ _ Hrun).
    + rewrite Hdom. simpl. apply dom_insert_lookup_L. eauto.
    + intros l' Hl'. apply not_elem_of_cons in Hl' as [Hne Hl'].
      rewrite Hother by done. simpl. by rewrite lookup_insert_ne.
    + intros [|i] l' ids' m' X_j' X_mj' Hl' Hids' Hm' HXj' HXmj'; simplify_eq/=.
      * rewrite Nat.add_0_r in Hids'.
        rewrite Hids in Hids'. try rewrite Hm in Hm'. simplify_eq.
        rewrite HXj in HXj'. rewrite HXmj in HXmj'. simplify_eq.
        rewrite Hother by done. simpl. by rewrite lookup_insert_eq.
      * eapply (Hfit i); try done.
        -- by rewrite Nat.add_succ_r in Hids'.
        -- simpl. rewrite lookup_insert_ne; [done|].
           intros ->. apply Hl. by eapply list_elem_of_lookup_2.
Qed.

Lemma clone_loop l0 m0 : ∀ n w,
  heap w !! l0 = Some (Estimator m0) →
  ∃ ls h', (repeatM n (clone (Single l0)) w = (inr ls, mkWorld (self w) h')) ∧
           length ls = n ∧ NoDup ls ∧
           (∀ l, l ∈ ls →
              (l ∉ dom (heap w)) ∧ h' !! l = Some (Estimator (im_clone m0))) ∧
           (∀ l, l ∉ ls → h' !! l = heap w !! l).
Proof.
  induction n as [|n IH]; intros w Hl0.
  - exists [], (heap w). simpl. unfold ret. destruct w.
    split_and!; try done; [constructor|]. by intros l ?%elem_of_nil.
  - set (l1 := fresh (dom (heap w))).
    assert (l1 ∉ dom (heap w)) as Hfresh by apply is_fresh.
    set (w1 := mkWorld (self w) (<[l1 := Estimator (im_clone m0)]> (heap w))).
    assert (l0 ≠ l1) as Hne.
    { intros <-. apply Hfresh, elem_of_dom; eauto. }
    destruct (IH w1) as (ls & h' & Hrun & Hlen & Hnd & Hin & Hout).
    { simpl. by rewrite lookup_insert_ne. }
    assert (l1 ∉ ls) as Hl1.
    { intros [Hd _]%Hin. apply Hd. simpl. rewrite dom_insert_L.
      by apply elem_of_union_l, elem_of_singleton. }
    exists (l1 :: ls), h'. split_and!.
    + assert (clone (Single l0) w = (inr l1, w1)) as Hclone.
      { cbv [clone clone_estimator alloc]. by rewrite Hl0. }
      simpl. by rewrite (bind_run _ _ _ _ _ Hclone), (bind_run _ _ _ _ _ Hrun).
    + simpl. by rewrite Hlen.
    + by constructor.
    + intros l [->|Hl]%elem_of_cons.
      * split; [done|]. rewrite Hout by done. simpl. by rewrite lookup_insert_eq.
      * destruct (Hin l Hl) as [Hd Hh]. split; [|done].
        intros Hd'. apply Hd. simpl. rewrite dom_insert_L.
        by apply elem_of_union_r.
    + intros l [Hne' Hl]%not_elem_of_cons. rewrite Hout by done. simpl.
      by rewrite lookup_insert_ne.
Qed.


(** ** [fit] *)

Lemma prepare_groups_run X w : prepare_groups X w = (inr tt, fit_prepared w X).
Proof.
  unfold fit_prepared, fit_groups, fit_nb_groups.
  cbv [prepare_groups bind get_self update_self get_nb_groups ret].
  destruct w as [c h]. cbn [self heap].
  destruct c as [? ? ? ? gr ? ? ? ? ? ?]. cbn [groups].
  destruct gr as [g|]; done.
Qed.

Lemma fit_prepared_nb_groups w X :
  nb_groups (self (fit_prepared w X)) = Some (fit_nb_groups (self w) X).
Proof. done. Qed.

Lemma fit_prepared_list w X :
  list_imputation_mod (self (fit_prepared w X)) = list_imputation_mod (self w).
Proof. done. Qed.

Lemma prepare_models_list w :
  list_imputation_mod (self w) ≠ [] → prepare_models w = (inr tt, w).
Proof.
  intros Hne. cbv [prepare_models bind get_self ret].
  destruct (list_imputation_mod (self w)); done.
Qed.

Lemma prepare_models_single w l0 m0 nb :
  list_imputation_mod (self w) = [] → nb_groups (self w) = Some nb →
  imputation_model (self w) = Single l0 →
  heap w !! l0 = Some (Estimator m0) →
  ∃ ls h',
    prepare_models w = (inr tt, mkWorld (set_list_imputation_mod ls (self w)) h') ∧
    length ls = nb ∧ NoDup ls ∧
    (∀ l, l ∈ ls →
       (l ∉ dom (heap w)) ∧ h' !! l = Some (Estimator (im_clone m0))) ∧
    (∀ l, l ∉ ls → h' !! l = heap w !! l).
Proof.
  intros Hls Hnb Ha Hl0.
  destruct (clone_loop l0 m0 nb w Hl0) as (ls & h' & Hrun & Hrest).
  exists ls, h'. split; [|done].
  cbv [prepare_models bind get_self get_nb_groups ret update_self].
  rewrite Hls. cbn [length Nat.eqb]. step Hnb. rewrite Ha. by step Hrun.
Qed.

Lemma prepare_models_no_group w :
  list_imputation_mod (self w) = [] → nb_groups (self w) = Some 0 →
  prepare_models w = (inr tt, w).
Proof.
  intros Hls Hnb.
  cbv [prepare_models bind get_self get_nb_groups ret update_self].
  rewrite Hls. cbn [length Nat.eqb]. step Hnb. cbn [repeatM]. unfold ret.
  destruct w as [c h]. cbn. f_equal. f_equal. cbn in Hls.
  destruct c. cbn in *. by subst.
Qed.

(** The tasks of [fit], from a prepared state whose models are all
    different objects. *)
Lemma fit_tasks_run X (y : Y) w g ls :
  groups (self w) = Some g → list_imputation_mod (self w) = ls → NoDup ls →
  (∀ i l, ls !! i = Some l →
     group_fittable g X i ∧ ∃ m, heap w !! l = Some (Estimator m)) →
  ∃ h',
    fit_imputation_models X y w = (inr tt, mkWorld (self w) h') ∧
    dom h' = dom (heap w) ∧
    (∀ l, l ∉ ls → h' !! l = heap w !! l) ∧
    (∀ i l ids m X_j X_mj,
       ls !! i = Some l → g !! (inl i : group_key) = Some ids →
       heap w !! l = Some (Estimator m) →
       take_cols ids X = inr X_j → np_delete_cols ids X = inr X_mj →
       h' !! l = Some (Estimator (im_fit m X_mj X_j))).
Proof.
  intros Hg Hls Hnd Hok.
  destruct (fit_loop X y g ls 0 w Hg Hnd Hok) as (h' & Hrun & Hrest).
  exists h'. split; [|done].
  cbv [fit_imputation_models bind get_self update_self Parallel].
  rewrite Hls, Hrun. cbn [self heap].
  do 2 f_equal. destruct w as [c h]. cbn in *. destruct c. cbn in *. by subst.
Qed.

Lemma fit_list_run X (y : Y) w ls :
  list_imputation_mod (self w) = ls →
  ls ≠ [] ∨ fit_nb_groups (self w) X = 0 → NoDup ls →
  (∀ i l, ls !! i = Some l →
     group_fittable (fit_groups (self w) X) X i ∧
     ∃ m, heap w !! l = Some (Estimator m)) →
  ∃ h', fit X y w = (inr tt, mkWorld (self (fit_prepared w X)) h') ∧
        dom h' = dom (heap w) ∧
        (∀ l, l ∉ ls → h' !! l = heap w !! l) ∧
        (∀ i l ids m X_j X_mj,
           ls !! i = Some l →
           fit_groups (self w) X !! (inl i : group_key) = Some ids →
           heap w !! l = Some (Estimator m) →
           take_cols ids X = inr X_j → np_delete_cols ids X = inr X_mj →
           h' !! l = Some (Estimator (im_fit m X_mj X_j))).
Proof.
  intros Hls Hne Hnd Hok.
  assert (prepare_models (fit_prepared w X) = (inr tt, fit_prepared w X)) as Hpm.
  { destruct Hne as [Hne|Hnb].
    - apply prepare_models_list. rewrite fit_prepared_list. by rewrite Hls.
    - destruct ls as [|l ls].
      + apply prepare_models_no_group; [done|]. by rewrite fit_prepared_nb_groups, Hnb.
      + apply prepare_models_list. rewrite fit_prepared_list. by rewrite Hls. }
  destruct (fit_tasks_run X y (fit_prepared w X) (fit_groups (self w) X) ls)
    as (h' & Hrun & Hrest); [done|done|done|done|].
  exists h'. split; [|done]. unfold fit.
  rewrite (bind_run _ _ _ _ _ (prepare_groups_run X w)).
  by rewrite (bind_run _ _ _ _ _ Hpm).
Qed.

Lemma fit_single_run X (y : Y) w l0 m0 :
  list_imputation_mod (self w) = [] → imputation_model (self w) = Single l0 →
  heap w !! l0 = Some (Estimator m0) →
  (∀ j, j < fit_nb_groups (self w) X →
     group_fittable (fit_groups (self w) X) X j) →
  ∃ ls h',
    fit X y w =
      (inr tt,
       mkWorld (set_list_imputation_mod ls (self (fit_prepared w X))) h') ∧
    length ls = fit_nb_groups (self w) X ∧ NoDup ls ∧
    (∀ l, l ∈ ls → l ∉ dom (heap w)) ∧
    (∀ l, l ∉ ls → h' !! l = heap w !! l) ∧
    (∀ i l ids X_j X_mj,
       ls !! i = Some l →
       fit_groups (self w) X !! (inl i : group_key) = Some ids →
       take_cols ids X = inr X_j → np_delete_cols ids X = inr X_mj →
       h' !! l = Some (Estimator (im_fit (im_clone m0) X_mj X_j))).
Proof.
  intros Hls Ha Hl0 Hok.
  destruct (prepare_models_single (fit_prepared w X) l0 m0
              (fit_nb_groups (self w) X))
    as (ls & h1 & Hpm & Hlen & Hnd & Hin & Hout); [done..|].
  set (w2 := mkWorld (set_list_imputation_mod ls (self (fit_prepared w X))) h1).
  destruct (fit_tasks_run X y w2 (fit_groups (self w) X) ls)
    as (h' & Hrun & Hdom & Hother & Hfit); [done|done|done| |].
  { intros i l Hl. split.
    - apply Hok. rewrite <- Hlen. by eapply lookup_lt_Some.
    - exists (im_clone m0). apply Hin. by eapply list_elem_of_lookup_2. }
  exists ls, h'. split_and!; try done.
  - unfold fit. rewrite (bind_run _ _ _ _ _ (prepare_groups_run X w)).
    by rewrite (bind_run _ _ _ _ _ Hpm).
  - intros l Hl. by apply Hin.
  - intros l Hl. rewrite Hother by done. by apply Hout.
  - intros i l ids X_j X_mj Hl Hids HXj HXmj.
    eapply Hfit; try done. apply Hin. by eapply list_elem_of_lookup_2.
Qed.

Lemma init_inv (est : E) arg n grp (lo : Y → Pred → F) sp rs nj (ent : R) c :
  __init__ est arg n grp lo sp rs nj ent = inr c →
  est_is_fitted est = true ∧
  c = mkCPI est arg (match arg with Multi ls => ls | Single _ => [] end)
        n grp rs lo sp nj
        (match rs with Some s => rs_seed s | None => ent end) None.
Proof.
  unfold __init__, check_is_fitted_estimator.
  destruct (est_is_fitted est); simpl; [|done]. by intros [= <-].
Qed.

(** ** The generator *)

Lemma draws_length k n (r : R) : length (draws k n r).1 = k.
Proof. revert r. induction k as [|k IH]; intros r; simpl; [done|]. by rewrite IH. Qed.

Lemma draws_perm k n (r : R) idx :
  idx ∈ (draws k n r).1 → idx ≡ₚ seq 0 n.
Proof.
  revert r. induction k as [|k IH]; intros r; simpl.
  - by intros ?%elem_of_nil.
  - intros [->|Hin]%elem_of_cons; [apply rs_shuffled_perm|by eapply IH].
Qed.

Lemma draws_add a b n (r : R) :
  draws (a + b) n r =
    ((draws a n r).1 ++ (draws b n (rng_after a n r)).1,
     rng_after b n (rng_after a n r)).
Proof.
  unfold rng_after. revert r. induction a as [|a IH]; intros r; simpl.
  - by destruct (draws b n r).
  - by rewrite IH.
Qed.

Lemma rng_after_add a b n (r : R) :
  rng_after (a + b) n r = rng_after b n (rng_after a n r).
Proof. unfold rng_after at 1. by rewrite draws_add. Qed.

Lemma with_rng_with_rng (r r' : R) w : with_rng r' (with_rng r w) = with_rng r' w.
Proof. done. Qed.

(** ** [predict] *)

Lemma rounds_run uninit X X_mj X_j_hat resid ids ng : ∀ k w,
  repeatM k (permutation_round uninit X X_mj X_j_hat resid ids ng) w =
    (inr ((λ idx, estimator_output (self w)
                    (build_X_perm uninit X X_mj X_j_hat ids ng
                       (take_rows idx resid)))
            <$> (draws k (n_rows resid) (rng (self w))).1),
     with_rng (rng_after k (n_rows resid) (rng (self w))) w).
Proof.
  induction k as [|k IH]; intros w.
  - simpl. unfold ret, rng_after. simpl. by rewrite with_rng_same.
  - set (ir := rs_shuffled_arange (rng (self w)) (n_rows resid)).
    assert (permutation_round uninit X X_mj X_j_hat resid ids ng w =
              (inr (estimator_output (self w)
                      (build_X_perm uninit X X_mj X_j_hat ids ng
                         (take_rows ir.1 resid))),
               with_rng ir.2 w)) as Hround by done.
    cbn [repeatM]. rewrite (bind_run _ _ _ _ _ Hround).
    rewrite (bind_run _ _ _ _ _ (IH (with_rng ir.2 w))). done.
Qed.

Lemma n_rows_cols ids X : n_rows (cols ids X) = n_rows X.
Proof. unfold n_rows, cols. simpl. apply length_fmap. Qed.

Lemma n_rows_residual (f : F → F → F) ids X flat :
  n_rows (mat_zip f (cols ids X)
            (mkMatrix (length ids) (chunks (n_rows X) (length ids) flat)))
  = n_rows X.
Proof.
  unfold n_rows, mat_zip, cols. simpl.
  rewrite length_zip_with, length_fmap, length_chunks. lia.
Qed.

Lemma joblib_predict_one_gp_run uninit l X j w g ids m :
  groups (self w) = Some g → g !! (inl j : group_key) = Some ids →
  in_range (n_cols X) ids = true →
  heap w !! l = Some (Estimator m) →
  length (im_predict m (without_cols ids X)) = n_rows X * length ids →
  joblib_predict_one_gp uninit l X j w =
    (inr ((λ idx, estimator_output (self w) (perturbed uninit X ids m idx))
            <$> (draws (n_perm (self w)) (n_rows X) (rng (self w))).1),
     with_rng (rng_after (n_perm (self w)) (n_rows X) (rng (self w))) w).
Proof.
  intros Hg Hj Hr Hl Hlen.
  assert (lookup_group j w = (inr ids, w)) as Hlk.
  { cbv [lookup_group bind get_self ret]. by rewrite Hg, Hj. }
  assert (estimator_predict l (without_cols ids X) w =
            (inr (im_predict m (without_cols ids X)), w)) as Hp.
  { unfold estimator_predict. by rewrite Hl. }
  assert (reshape (n_rows (cols ids X)) (n_cols (cols ids X))
            (im_predict m (without_cols ids X)) =
          inr (mkMatrix (length ids)
                 (chunks (n_rows X) (length ids)
                    (im_predict m (without_cols ids X))))) as Hre.
  { unfold reshape. rewrite n_rows_cols. cbn [n_cols cols].
    by rewrite Hlen, Nat.eqb_refl. }
  unfold joblib_predict_one_gp.
  rewrite (bind_run _ _ _ _ _ Hlk), (take_cols_in_range _ _ Hr).
  unfold lift at 1, bind at 1.
  rewrite (bind_run _ _ _ _ _ Hlk), (np_delete_cols_in_range _ _ Hr).
  unfold lift at 1, bind at 1.
  rewrite (bind_run _ _ _ _ _ Hp), Hre. unfold lift at 1, bind at 1.
  rewrite (bind_run _ _ _ _ _ Hlk). unfold np_delete_arange. rewrite Hr.
  unfold lift at 1, bind at 1. unfold get_self at 1, bind at 1.
  rewrite rounds_run. rewrite n_rows_residual.
  unfold perturbed. rewrite n_rows_cols. done.
Qed.

Lemma group_ready_with_rng (r : R) w X j l :
  group_ready w X j l → group_ready (with_rng r w) X j l.
Proof. done. Qed.

(** The tasks of [predict] run one after the other: task [i] starts
    from the generator state the tasks before it left. *)
Lemma predict_loop uninit X ls : ∀ j0 w,
  (∀ i l, ls !! i = Some l → group_ready w X (j0 + i) l) →
  ∃ designs : list (list (Matrix F)),
    for_enumerate (λ j l, joblib_predict_one_gp uninit l X j) j0 ls w =
      (inr ((λ D : list (Matrix F), estimator_output (self w) <$> D) <$> designs),
       with_rng (rng_after (length ls * n_perm (self w)) (n_rows X)
                   (rng (self w))) w) ∧
    length designs = length ls ∧
    ∀ i l g ids m,
      ls !! i = Some l → groups (self w) = Some g →
      g !! (inl (j0 + i) : group_key) = Some ids →
      heap w !! l = Some (Estimator m) →
      designs !! i =
        Some (perturbed uninit X ids m
                <$> (draws (n_perm (self w)) (n_rows X)
                       (rng_after (i * n_perm (self w)) (n_rows X)
                          (rng (self w)))).1).
Proof.
  induction ls as [|l ls IH]; intros j0 w Hok.
  - exists []. simpl. unfold ret, rng_after. simpl. rewrite with_rng_same.
    split_and!; try done.
  - destruct (Hok 0 l eq_refl) as (g & ids & m & X_mj & Hg & Hids & Hd & Hm & Hf & Hlen).
    rewrite Nat.add_0_r in Hids.
    apply np_delete_cols_inv in Hd as [Hr ->].
    pose proof (joblib_predict_one_gp_run uninit l X j0 w g ids m Hg Hids Hr Hm Hlen)
      as Htask.
    set (k := n_perm (self w)) in *. set (n := n_rows X) in *.
    set (r0 := rng (self w)) in *.
    destruct (IH (S j0) (with_rng (rng_after k n r0) w)) as (designs & Hrun & Hlo & Hout).
    { intros i l' Hl'. apply group_ready_with_rng.
      replace (S j0 + i) with (j0 + S i) by lia. by apply Hok. }
    exists ((perturbed uninit X ids m <$> (draws k n r0).1) :: designs).
    split_and!.
    + cbn [for_enumerate]. rewrite (bind_run _ _ _ _ _ Htask).
      rewrite (bind_run _ _ _ _ _ Hrun). unfold ret.
      rewrite with_rng_with_rng. cbn [self with_rng set_rng n_perm rng length].
      fold k. rewrite <- rng_after_add. rewrite fmap_cons.
      rewrite <- list_fmap_compose. done.
    + simpl. by rewrite Hlo.
    + intros [|i] l' g' ids' m' Hl' Hg' Hids' Hm'.
      * rewrite Nat.add_0_r in Hids'. simpl in Hl'.
        assert (l' = l) as -> by congruence.
        assert (g' = g) as -> by congruence.
        assert (ids' = ids) as -> by congruence.
        assert (m' = m) as -> by congruence.
        done.
      * simpl in Hl'. rewrite lookup_cons.
        rewrite (Hout i l' g' ids' m' Hl' Hg');
          [|by replace (S j0 + i) with (j0 + S i) by lia|done].
        cbn [self with_rng set_rng n_perm rng]. fold k.
        rewrite <- rng_after_add. done.
Qed.

(** The checks of lines 134-137 leave the state as it is. *)
Lemma forM_check_is_fitted ls w :
  ∃ r, forM check_is_fitted ls w = (r, w) ∧
       ((∃ us, r = inr us) ↔
        ∀ l, l ∈ ls → ∃ m, heap w !! l = Some (Estimator m) ∧
                           im_is_fitted m = true).
Proof.
  induction ls as [|l ls (r & Hrun & Hiff)].
  - exists (inr []). split; [done|]. split; [|by eauto].
    by intros _ l ?%elem_of_nil.
  - cbn [forM]. unfold bind at 1, check_is_fitted at 1.
    destruct (heap w !! l) as [[m|]|] eqn:Hl.
    + destruct (im_is_fitted m) eqn:Hf.
      * unfold bind at 1. rewrite Hrun. destruct r as [e|us].
        -- exists (inl e). split; [done|]. split; [by intros [? ?]|].
           intros Hall. apply Hiff. intros l' Hl'. apply Hall. by right.
        -- exists (inr (tt :: us)). split; [done|]. split; [|by eauto].
           intros _ l' [->|Hl']%elem_of_cons; [by eauto|].
           apply Hiff; [by eauto|done].
      * exists (inl NotFittedError). split; [done|]. split; [by intros [? ?]|].
        intros Hall. destruct (Hall l) as (m' & Hm' & Hf'); [by left|].
        congruence.
    + exists (inl TypeError). split; [done|]. split; [by intros [? ?]|].
      intros Hall. destruct (Hall l) as (m' & Hm' & Hf'); [by left|]. congruence.
    + exists (inl TypeError). split; [done|]. split; [by intros [? ?]|].
      intros Hall. destruct (Hall l) as (m' & Hm' & Hf'); [by left|]. congruence.
Qed.

Lemma check_imputation_models_ok w :
  list_imputation_mod (self w) ≠ [] →
  (∀ l, l ∈ list_imputation_mod (self w) →
     ∃ m, heap w !! l = Some (Estimator m) ∧ im_is_fitted m = true) →
  check_imputation_models w = (inr tt, w).
Proof.
  intros Hne Hall. cbv [check_imputation_models bind get_self ret].
  destruct (list_imputation_mod (self w)) as [|l ls] eqn:Hls; [done|].
  cbn [length Nat.eqb].
  destruct (forM_check_is_fitted (l :: ls) w) as (r & -> & Hiff).
  destruct (proj2 Hiff Hall) as [us ->]. done.
Qed.

Lemma check_imputation_models_raises w :
  list_imputation_mod (self w) = [] ∨
  (∃ l, l ∈ list_imputation_mod (self w) ∧
        ∀ m, heap w !! l = Some (Estimator m) → im_is_fitted m = false) →
  ∃ e, check_imputation_models w = (inl e, w).
Proof.
  intros Hbad. cbv [check_imputation_models bind get_self ret raise].
  destruct (list_imputation_mod (self w)) as [|l ls] eqn:Hls; [by eauto|].
  cbn [length Nat.eqb].
  destruct Hbad as [?|(l' & Hl' & Hunfit)]; [done|].
  destruct (forM_check_is_fitted (l :: ls) w) as (r & -> & Hiff).
  destruct r as [e|us]; [by eauto|].
  destruct (proj1 Hiff (ex_intro _ us eq_refl) l' Hl') as (m & Hm & Hf).
  rewrite (Hunfit m Hm) in Hf. done.
Qed.

Lemma models_ready_fitted w X :
  models_ready w X →
  ∀ l, l ∈ list_imputation_mod (self w) →
       ∃ m, heap w !! l = Some (Estimator m) ∧ im_is_fitted m = true.
Proof.
  intros [_ Hall] l [j Hj]%list_elem_of_lookup.
  destruct (Hall j l Hj) as (g & ids & m & X_mj & _ & _ & _ & Hm & Hf & _).
  eauto.
Qed.

Lemma predict_run uninit X (y : option Y) w :
  models_ready w X →
  ∃ designs : list (list (Matrix F)),
    predict uninit X y w =
      (inr ((λ D : list (Matrix F), estimator_output (self w) <$> D) <$> designs),
       with_rng (rng_after (length (list_imputation_mod (self w))
                              * n_perm (self w)) (n_rows X)
                   (rng (self w))) w) ∧
    length designs = length (list_imputation_mod (self w)) ∧
    ∀ j l g ids m,
      list_imputation_mod (self w) !! j = Some l →
      groups (self w) = Some g → g !! (inl j : group_key) = Some ids →
      heap w !! l = Some (Estimator m) →
      designs !! j =
        Some (perturbed uninit X ids m
                <$> (draws (n_perm (self w)) (n_rows X)
                       (rng_after (j * n_perm (self w)) (n_rows X)
                          (rng (self w)))).1).
Proof.
  intros Hready.
  destruct (predict_loop uninit X (list_imputation_mod (self w)) 0 w)
    as (designs & Hrun & Hrest); [by apply Hready|].
  exists designs. split; [|done]. unfold predict.
  rewrite (bind_run _ _ _ _ _
             (check_imputation_models_ok w (proj1 Hready)
                (models_ready_fitted w X Hready))).
  unfold get_self at 1, bind at 1. done.
Qed.

(** Row [j] of the arrays [predict] hands to the predictive model. *)
Lemma predict_row uninit X (y : option Y) w (designs : list (list (Matrix F))) j l :
  models_ready w X → list_imputation_mod (self w) !! j = Some l →
  (∀ j l g ids m,
      list_imputation_mod (self w) !! j = Some l →
      groups (self w) = Some g → g !! (inl j : group_key) = Some ids →
      heap w !! l = Some (Estimator m) →
      designs !! j =
        Some (perturbed uninit X ids m
                <$> (draws (n_perm (self w)) (n_rows X)
                       (rng_after (j * n_perm (self w)) (n_rows X)
                          (rng (self w)))).1)) →
  ∃ g ids m,
    groups (self w) = Some g ∧ g !! (inl j : group_key) = Some ids ∧
    heap w !! l = Some (Estimator m) ∧
    in_range (n_cols X) ids = true ∧
    length (im_predict m (without_cols ids X)) = n_rows X * length ids ∧
    designs !! j =
      Some (perturbed uninit X ids m
              <$> (draws (n_perm (self w)) (n_rows X)
                     (rng_after (j * n_perm (self w)) (n_rows X)
                        (rng (self w)))).1).
Proof.
  intros Hready Hl Hrows.
  destruct (proj2 Hready j l Hl) as (g & ids & m & X_mj & Hg & Hids & Hd & Hm & Hf & Hsz).
  apply np_delete_cols_inv in Hd as [Hr ->].
  exists g, ids, m. split_and!; try done. by eapply Hrows.
Qed.

(** ** [score] *)

Lemma fill_loss_perm_from (lo : Y → Pred → F) (y : Y) (outs : list (list Pred)) :
  ∀ k (d : gmap nat (list F)) j,
    foldl (λ d jr, <[jr.1 := lo y <$> jr.2]> d) d
          (imap (λ i y_pred_j, (k + i, y_pred_j)) outs) !! j =
      if decide (k ≤ j < k + length outs)
      then fmap (lo y) <$> outs !! (j - k)
      else d !! j.
Proof.
  induction outs as [|o outs IH]; intros k d j.
  - simpl. case_decide; [lia|done].
  - cbn [imap foldl length].
    rewrite (imap_ext _ (λ i y_pred_j, (S k + i, y_pred_j))) by (intros; simpl; f_equal; lia).
    rewrite IH. cbn [fst snd]. rewrite Nat.add_0_r.
    repeat case_decide; try lia.
    + replace (j - k) with (S (j - S k)) by lia. done.
    + assert (j = k) as -> by lia. rewrite Nat.sub_diag. simpl.
      by rewrite lookup_insert_eq.
    + rewrite lookup_insert_ne by lia. done.
Qed.

Lemma fill_loss_perm_lookup (lo : Y → Pred → F) (y : Y) outs j :
  fill_loss_perm lo y outs !! j = fmap (lo y) <$> outs !! j.
Proof.
  unfold fill_loss_perm. rewrite (fill_loss_perm_from lo y outs 0).
  rewrite Nat.sub_0_r. case_decide as Hj; [done|].
  rewrite lookup_empty, lookup_ge_None_2 by lia. done.
Qed.

Lemma rmapM_seq_ok {B} (f : nat → result B) (g : nat → B) : ∀ n k,
  (∀ j, k ≤ j < k + n → f j = inr (g j)) →
  rmapM f (seq k n) = inr (g <$> seq k n).
Proof.
  induction n as [|n IH]; intros k Hf; simpl; [done|].
  rewrite Hf by lia. simpl. rewrite IH; [done|]. intros j Hj. apply Hf. lia.
Qed.

Lemma score_run uninit X (y : Y) w outs w' nb :
  est_is_fitted (estimator (self w)) = true →
  list_imputation_mod (self w) ≠ [] →
  (∀ l, l ∈ list_imputation_mod (self w) →
     ∃ m, heap w !! l = Some (Estimator m) ∧ im_is_fitted m = true) →
  predict uninit X (Some y) w = (inr outs, w') →
  loss (self w') = loss (self w) → nb_groups (self w') = Some nb →
  score uninit X y w =
    (collect_scores (loss (self w)) y
       (loss (self w) y (estimator_output (self w) X)) outs nb,
     w').
Proof.
  intros Hest Hne Hall Hpred Hlo Hnb. unfold score.
  unfold get_self at 1, bind at 1. unfold check_is_fitted_estimator.
  rewrite Hest. unfold lift at 1, bind at 1.
  rewrite (bind_run _ _ _ _ _ (check_imputation_models_ok w Hne Hall)).
  unfold get_self at 1, bind at 1.
  rewrite (bind_run _ _ _ _ _ Hpred).
  unfold get_self at 1, bind at 1.
  assert (get_nb_groups w' = (inr nb, w')) as Hget.
  { cbv [get_nb_groups bind get_self ret]. by rewrite Hnb. }
  rewrite (bind_run _ _ _ _ _ Hget). rewrite Hlo.
  unfold collect_scores, lift, bind, ret, rbind.
  by destruct (rmapM _ _).
Qed.

(** The dictionary, when the predictions have a row for every group. *)
Lemma collect_scores_rows (lo : Y → Pred → F) (y : Y) (ref : F)
    (outs : list (list Pred)) nb :
  (∀ j, j < nb → is_Some (outs !! j)) →
  ∃ out,
    collect_scores lo y ref outs nb = inr out ∧
    loss_reference out = ref ∧
    length (importance out) = nb ∧
    ∀ j preds,
      j < nb → outs !! j = Some preds →
      loss_perm out !! j = Some (lo y <$> preds) ∧
      importance out !! j = Some (fsub (fmean (lo y <$> preds)) ref).
Proof.
  intros Hrow. set (d := fill_loss_perm lo y outs).
  unfold collect_scores.
  rewrite (rmapM_seq_ok _ (λ j, fsub (fmean (default [] (d !! j))) ref)).
  2:{ intros j Hj. destruct (Hrow j) as [preds Hp]; [lia|].
      fold d. unfold d at 1 2. rewrite fill_loss_perm_lookup, Hp. done. }
  eexists. split_and!; [done|done|..].
  - simpl. by rewrite length_fmap, length_seq.
  - intros j preds Hj Hp. split.
    + simpl. by rewrite fill_loss_perm_lookup, Hp.
    + simpl. rewrite list_lookup_fmap, lookup_seq_lt by done. simpl.
      unfold d. by rewrite fill_loss_perm_lookup, Hp.
Qed.

(** ** The claims about [predict] and [score] *)

(** C1. For a fitted instance, [score] returns a dictionary whose
    ['loss_reference'] is the loss between [y] and the prediction of the
    predictive model on [X] itself ([predict_proba] when [score_proba]
    is set, [predict] otherwise), and whose ['importance'] holds, at
    each group [j], the mean of the losses of the [n_perm] predictions
    [predict] makes for group [j], minus that reference loss. Those
    predictions are the ones the predictive model makes, by the same
    method, on the [n_perm] perturbed arrays of group [j]. *)
Theorem score_importance uninit X (y : Y) w nb :
  est_is_fitted (estimator (self w)) = true →
  models_ready w X →
  nb_groups (self w) = Some nb →
  length (list_imputation_mod (self w)) = nb →
  ∃ out y_pred_perm w',
    score uninit X y w = (inr out, w') ∧
    predict uninit X (Some y) w = (inr y_pred_perm, w') ∧
    loss_reference out =
      loss (self w) y
        (if score_proba (self w)
         then est_predict_proba (estimator (self w)) X
         else est_predict (estimator (self w)) X) ∧
    length (importance out) = nb ∧
    (∀ j, j < nb →
       ∃ preds,
         y_pred_perm !! j = Some preds ∧ length preds = n_perm (self w) ∧
         loss_perm out !! j = Some (loss (self w) y <$> preds) ∧
         importance out !! j =
           Some (fsub (fmean (loss (self w) y <$> preds)) (loss_reference out))) ∧
    ∀ j l g ids m,
      list_imputation_mod (self w) !! j = Some l →
      groups (self w) = Some g → g !! (inl j : group_key) = Some ids →
      heap w !! l = Some (Estimator m) →
      y_pred_perm !! j =
        Some ((λ idx,
                 if score_proba (self w)
                 then est_predict_proba (estimator (self w))
                        (perturbed uninit X ids m idx)
                 else est_predict (estimator (self w))
                        (perturbed uninit X ids m idx))
                <$> (draws (n_perm (self w)) (n_rows X)
                       (rng_after (j * n_perm (self w)) (n_rows X)
                          (rng (self w)))).1).
Proof.
  intros Hest Hready Hnb Hlen.
  destruct (predict_run uninit X (Some y) w Hready) as (designs & Hrun & Hlo & Hrows).
  set (outs := (λ D : list (Matrix F), estimator_output (self w) <$> D) <$> designs) in *.
  assert (∀ j, j < nb → ∃ preds, outs !! j = Some preds ∧
                                   length preds = n_perm (self w)) as Hrow.
  { intros j Hj.
    destruct (lookup_lt_is_Some_2 (list_imputation_mod (self w)) j) as [l Hl]; [lia|].
    destruct (predict_row uninit X (Some y) w designs j l Hready Hl Hrows)
      as (g & ids & m & _ & _ & _ & _ & _ & HD).
    eexists. unfold outs. rewrite list_lookup_fmap, HD. split; [done|].
    by rewrite !length_fmap, draws_length. }
  pose proof (score_run uninit X y w outs _ nb Hest (proj1 Hready)
                (models_ready_fitted w X Hready) Hrun eq_refl Hnb) as Hscore.
  destruct (collect_scores_rows (loss (self w)) y
              (loss (self w) y (estimator_output (self w) X)) outs nb)
    as (out & Hout & Href & Hli & Himp).
  { intros j Hj. destruct (Hrow j Hj) as (preds & -> & _). by eexists. }
  rewrite Hout in Hscore.
  eexists out, outs, _. split_and!; [exact Hscore|exact Hrun|done|done| |].
  - intros j Hj. destruct (Hrow j Hj) as (preds & Hp & Hlp).
    destruct (Himp j preds Hj Hp) as [H1 H2].
    exists preds. rewrite Href. split_and!; done.
  - intros j l g ids m Hl Hg Hids Hm. unfold outs.
    rewrite list_lookup_fmap, (Hrows j l g ids m Hl Hg Hids Hm). simpl.
    by rewrite <- list_fmap_compose.
Qed.

(** ** Shapes on the way to the perturbed design *)

Lemma wf_cols ids X :
  wf_matrix X → in_range (n_cols X) ids = true → wf_matrix (cols ids X).
Proof.
  intros Hwf Hr. unfold wf_matrix, cols. simpl. apply Forall_fmap.
  eapply Forall_impl; [apply Hwf|]. intros x Hx. simpl.
  apply length_take_idx. rewrite Hx. by apply in_range_Forall.
Qed.

Lemma wf_chunks n p (flat : list F) :
  length flat = n * p → wf_matrix (mkMatrix p (chunks n p flat)).
Proof. apply chunks_widths. Qed.

Lemma wf_mat_zip (f : F → F → F) (A B : Matrix F) :
  wf_matrix A → wf_matrix B → n_cols A = n_cols B → wf_matrix (mat_zip f A B).
Proof.
  unfold wf_matrix, mat_zip. simpl. intros HA HB Hc.
  apply Forall_forall. intros r Hr.
  apply list_elem_of_lookup in Hr as [i Hi].
  apply lookup_zip_with_Some in Hi as (a & b & -> & Ha & Hb).
  rewrite length_zip_with.
  eapply Forall_lookup_1 in HA; [|apply Ha].
  eapply Forall_lookup_1 in HB; [|apply Hb]. simpl in *. lia.
Qed.

Lemma take_idx_subseteq {A} idx (l : list A) x : x ∈ take_idx idx l → x ∈ l.
Proof.
  unfold take_idx. intros (i & _ & Hi)%list_elem_of_omap.
  by eapply list_elem_of_lookup_2.
Qed.

Lemma wf_take_rows idx (A : Matrix F) : wf_matrix A → wf_matrix (take_rows idx A).
Proof.
  unfold wf_matrix, take_rows. simpl. intros HA.
  apply Forall_forall. intros r Hr%take_idx_subseteq.
  by eapply Forall_forall in HA.
Qed.

Lemma n_rows_take_rows idx (A : Matrix F) :
  idx ≡ₚ seq 0 (n_rows A) → n_rows (take_rows idx A) = n_rows A.
Proof.
  intros Hp. unfold n_rows, take_rows in *. simpl.
  rewrite length_take_idx.
  - by rewrite Hp, length_seq.
  - rewrite Hp. apply Forall_forall. intros i Hi%elem_of_seq. lia.
Qed.

Section perturbed_shape.
Context (X : Matrix F) (ids : list nat) (m : Mo) (idx : list nat).
Context (Hwf : wf_matrix X) (Hr : in_range (n_cols X) ids = true).
Context (Hsz : length (im_predict m (without_cols ids X)) = n_rows X * length ids).
Context (Hidx : idx ≡ₚ seq 0 (n_rows X)).

Let X_j := cols ids X.
Let X_j_hat :=
  mkMatrix (length ids)
    (chunks (n_rows X) (length ids) (im_predict m (without_cols ids X))).
Let X_j_perm := mat_zip fadd X_j_hat (take_rows idx (mat_zip fsub X_j X_j_hat)).

Lemma perturbed_eq uninit :
  perturbed uninit X ids m idx =
    assemble_X_perm uninit X (without_cols ids X) ids
      (delete_from 0 ids (seq 0 (n_cols X))) X_j_perm.
Proof. unfold perturbed, build_X_perm. rewrite n_rows_cols. done. Qed.

Lemma X_j_perm_n_rows : n_rows X_j_perm = n_rows X.
Proof.
  assert (n_rows (take_rows idx (mat_zip fsub X_j X_j_hat)) = n_rows X) as H.
  { rewrite n_rows_take_rows; unfold X_j, X_j_hat; by rewrite n_rows_residual. }
  unfold n_rows in *. unfold X_j_perm, mat_zip at 1. cbn [rows].
  rewrite length_zip_with, H. unfold X_j_hat. cbn [rows].
  rewrite length_chunks. lia.
Qed.

Lemma X_j_perm_wf : wf_matrix X_j_perm.
Proof.
  assert (wf_matrix X_j_hat) as Hhat by (by apply wf_chunks).
  apply wf_mat_zip; [done| |done].
  apply wf_take_rows, wf_mat_zip; [by apply wf_cols|done|done].
Qed.

Lemma perturbed_group_cols uninit :
  NoDup ids → take_cols ids (perturbed uninit X ids m idx) = inr X_j_perm.
Proof.
  intros Hnd. rewrite perturbed_eq.
  apply assemble_X_perm_group_cols; try done.
  - by apply np_delete_cols_in_range.
  - unfold np_delete_arange. by rewrite Hr.
  - apply X_j_perm_n_rows.
  - apply X_j_perm_wf.
Qed.

Lemma perturbed_other_col uninit (col : nat) :
  col < n_cols X → col ∉ ids →
  take_cols [col] (perturbed uninit X ids m idx) = take_cols [col] X.
Proof.
  intros Hc Hni. rewrite perturbed_eq.
  apply assemble_X_perm_other_col; try done.
  - by apply np_delete_cols_in_range.
  - unfold np_delete_arange. by rewrite Hr.
  - apply X_j_perm_n_rows.
Qed.

Lemma perturbed_shape uninit :
  n_cols (perturbed uninit X ids m idx) = n_cols X ∧
  n_rows (perturbed uninit X ids m idx) = n_rows X.
Proof.
  rewrite perturbed_eq. split; [done|].
  apply assemble_X_perm_n_rows; [by apply np_delete_cols_in_range|].
  apply X_j_perm_n_rows.
Qed.

Lemma perturbed_memory_irrelevant uninit uninit' :
  perturbed uninit X ids m idx = perturbed uninit' X ids m idx.
Proof.
  rewrite !perturbed_eq.
  apply assemble_X_perm_memory_irrelevant; try done.
  - by apply np_delete_cols_in_range.
  - unfold np_delete_arange. by rewrite Hr.
  - apply X_j_perm_n_rows.
  - apply X_j_perm_wf.
Qed.
End perturbed_shape.

(** C3. In [predict], for every group [j] and every permutation round,
    the group's columns of the perturbed design matrix are the
    imputation model's prediction of the group (from the other columns,
    reshaped to the group's shape) plus a permutation of the rows of the
    residual, the group's columns minus that prediction; the residual
    is the same in every round of the group. *)
Theorem predict_group_columns uninit X (y : option Y) w :
  models_ready w X → wf_matrix X →
  ∃ (designs : list (list (Matrix F))) w',
    predict uninit X y w =
      (inr ((λ D : list (Matrix F), estimator_output (self w) <$> D) <$> designs),
       w') ∧
    ∀ j l g ids m,
      list_imputation_mod (self w) !! j = Some l →
      groups (self w) = Some g → g !! (inl j : group_key) = Some ids →
      heap w !! l = Some (Estimator m) → NoDup ids →
      ∃ X_j X_minus_j X_j_hat D,
        take_cols ids X = inr X_j ∧ np_delete_cols ids X = inr X_minus_j ∧
        reshape (n_rows X_j) (n_cols X_j) (im_predict m X_minus_j)
          = inr X_j_hat ∧
        designs !! j = Some D ∧ length D = n_perm (self w) ∧
        ∀ X_perm, X_perm ∈ D →
          ∃ idx,
            idx ≡ₚ seq 0 (n_rows X) ∧
            rows (take_rows idx (mat_zip fsub X_j X_j_hat))
              ≡ₚ rows (mat_zip fsub X_j X_j_hat) ∧
            take_cols ids X_perm =
              inr (mat_zip fadd X_j_hat
                     (take_rows idx (mat_zip fsub X_j X_j_hat))).
Proof.
  intros Hready Hwf.
  destruct (predict_run uninit X y w Hready) as (designs & Hrun & Hlen & Hrows).
  eexists designs, _. split; [exact Hrun|].
  intros j l g ids m Hl Hg Hids Hm Hnd.
  destruct (predict_row uninit X y w designs j l Hready Hl Hrows)
    as (g' & ids' & m' & Hg' & Hids' & Hm' & Hr & Hsz & HD).
  assert (g' = g) as -> by congruence.
  assert (ids' = ids) as -> by congruence.
  assert (m' = m) as -> by congruence.
  exists (cols ids X), (without_cols ids X),
    (mkMatrix (length ids)
       (chunks (n_rows X) (length ids) (im_predict m (without_cols ids X)))).
  eexists. split_and!.
  - by apply take_cols_in_range.
  - by apply np_delete_cols_in_range.
  - unfold reshape. rewrite n_rows_cols. cbn [n_cols cols].
    by rewrite Hsz, Nat.eqb_refl.
  - exact HD.
  - by rewrite length_fmap, draws_length.
  - intros X_perm (idx & -> & Hidx%draws_perm)%list_elem_of_fmap.
    exists idx. split_and!; [done| |by apply perturbed_group_cols].
    apply take_idx_Permutation.
    change (idx ≡ₚ seq 0 (n_rows (mat_zip fsub (cols ids X)
              (mkMatrix (length ids) (chunks (n_rows X) (length ids)
                 (im_predict m (without_cols ids X))))))).
    by rewrite n_rows_residual.
Qed.

(** C4. In every permutation round of [predict] for group [j], the
    perturbed design matrix has the shape of [X] and each of its
    columns outside the group is the column of [X]: only the group's
    columns are modified. *)
Theorem predict_other_columns uninit X (y : option Y) w :
  models_ready w X → wf_matrix X →
  ∃ (designs : list (list (Matrix F))) w',
    predict uninit X y w =
      (inr ((λ D : list (Matrix F), estimator_output (self w) <$> D) <$> designs),
       w') ∧
    ∀ j l g ids,
      list_imputation_mod (self w) !! j = Some l →
      groups (self w) = Some g → g !! (inl j : group_key) = Some ids →
      ∃ D,
        designs !! j = Some D ∧ length D = n_perm (self w) ∧
        ∀ X_perm, X_perm ∈ D →
          n_cols X_perm = n_cols X ∧ n_rows X_perm = n_rows X ∧
          ∀ col, col < n_cols X → col ∉ ids →
                 take_cols [col] X_perm = take_cols [col] X.
Proof.
  intros Hready Hwf.
  destruct (predict_run uninit X y w Hready) as (designs & Hrun & Hlen & Hrows).
  eexists designs, _. split; [exact Hrun|].
  intros j l g ids Hl Hg Hids.
  destruct (predict_row uninit X y w designs j l Hready Hl Hrows)
    as (g' & ids' & m & Hg' & Hids' & Hm & Hr & Hsz & HD).
  assert (g' = g) as -> by congruence.
  assert (ids' = ids) as -> by congruence.
  eexists. split_and!; [exact HD|by rewrite length_fmap, draws_length|].
  intros X_perm (idx & -> & Hidx%draws_perm)%list_elem_of_fmap.
  destruct (perturbed_shape X ids m idx Hr Hsz Hidx uninit) as [Hc Hn].
  split_and!; [done|done|].
  intros col Hcol Hni. by apply perturbed_other_col.
Qed.

(** C8. [predict] returns one stacked array: its first axis has one
    entry per group, each entry has [n_perm] entries, and these are the
    predictions of the predictive model on the perturbed design
    matrices, by [predict_proba] when [score_proba] is set and by
    [predict] otherwise. *)
Theorem predict_stacked uninit X (y : option Y) w nb :
  models_ready w X →
  nb_groups (self w) = Some nb →
  length (list_imputation_mod (self w)) = nb →
  ∃ (designs : list (list (Matrix F))) w',
    predict uninit X y w =
      (inr ((λ D : list (Matrix F),
               (if score_proba (self w)
                then est_predict_proba (estimator (self w))
                else est_predict (estimator (self w))) <$> D) <$> designs),
       w') ∧
    length designs = nb ∧
    Forall (λ D, length D = n_perm (self w)) designs ∧
    ∀ j l g ids m,
      list_imputation_mod (self w) !! j = Some l →
      groups (self w) = Some g → g !! (inl j : group_key) = Some ids →
      heap w !! l = Some (Estimator m) →
      designs !! j =
        Some (perturbed uninit X ids m
                <$> (draws (n_perm (self w)) (n_rows X)
                       (rng_after (j * n_perm (self w)) (n_rows X)
                          (rng (self w)))).1).
Proof.
  intros Hready Hnb Hlen.
  destruct (predict_run uninit X y w Hready) as (designs & Hrun & Hld & Hrows).
  eexists designs, _. split_and!.
  - rewrite Hrun. f_equal. f_equal. apply list_fmap_ext. intros _ D _.
    apply list_fmap_ext. intros _ Xp _. unfold estimator_output.
    by destruct (score_proba (self w)).
  - by rewrite Hld.
  - apply Forall_forall. intros D [j Hj]%list_elem_of_lookup.
    destruct (lookup_lt_is_Some_2 (list_imputation_mod (self w)) j) as [l Hl].
    { rewrite <- Hld. by eapply lookup_lt_Some. }
    destruct (predict_row uninit X y w designs j l Hready Hl Hrows)
      as (g & ids & m & _ & _ & _ & _ & _ & HD).
    rewrite HD in Hj. injection Hj as <-.
    by rewrite length_fmap, draws_length.
  - exact Hrows.
Qed.

(** C6, as the code has it. The tasks of [predict] share the random
    generator of the instance and nothing else: the output of the task
    of group [j] is what [joblib_predict_one_gp] computes from the
    generator state that the [j] tasks before it left, which is the
    state at entry advanced by [j * n_perm] shuffles of [n_rows X]
    indices; it is made of [X], the group's own columns, the group's
    own model and that generator state, and the task changes nothing
    but the generator state. *)
Theorem predict_tasks_share_rng uninit X (y : option Y) w :
  models_ready w X →
  ∃ outs,
    predict uninit X y w =
      (inr outs,
       with_rng (rng_after (length (list_imputation_mod (self w))
                              * n_perm (self w)) (n_rows X)
                   (rng (self w))) w) ∧
    length outs = length (list_imputation_mod (self w)) ∧
    ∀ j l g ids m,
      list_imputation_mod (self w) !! j = Some l →
      groups (self w) = Some g → g !! (inl j : group_key) = Some ids →
      heap w !! l = Some (Estimator m) →
      let r_j := rng_after (j * n_perm (self w)) (n_rows X) (rng (self w)) in
      ∃ out_j,
        outs !! j = Some out_j ∧
        joblib_predict_one_gp uninit l X j (with_rng r_j w) =
          (inr out_j,
           with_rng (rng_after (n_perm (self w)) (n_rows X) r_j) w) ∧
        out_j =
          (λ idx, estimator_output (self w) (perturbed uninit X ids m idx))
            <$> (draws (n_perm (self w)) (n_rows X) r_j).1.
Proof.
  intros Hready.
  destruct (predict_run uninit X y w Hready) as (designs & Hrun & Hlen & Hrows).
  eexists. split_and!; [exact Hrun|by rewrite length_fmap|].
  intros j l g ids m Hl Hg Hids Hm r_j.
  destruct (predict_row uninit X y w designs j l Hready Hl Hrows)
    as (g' & ids' & m' & Hg' & Hids' & Hm' & Hr & Hsz & HD).
  assert (g' = g) as -> by congruence.
  assert (ids' = ids) as -> by congruence.
  assert (m' = m) as -> by congruence.
  eexists. split_and!.
  - rewrite list_lookup_fmap, HD. simpl. by rewrite <- list_fmap_compose.
  - by rewrite (joblib_predict_one_gp_run uninit l X j (with_rng r_j w) g ids m).
  - done.
Qed.

(** ** What [fit] leaves of the groups *)

Lemma keeps_groups_bind {A B} (m : M F Pred Y E Mo R A) (f : A → M F Pred Y E Mo R B) :
  keeps_groups m → (∀ a, keeps_groups (f a)) → keeps_groups (bind m f).
Proof.
  intros Hm Hf w. unfold bind. specialize (Hm w).
  destruct (m w) as [[e|a] w1]; [done|].
  destruct (Hf a w1) as [H1 H2]. simpl in Hm. destruct Hm as [H3 H4].
  split; congruence.
Qed.

Lemma keeps_groups_heap {A} (m : M F Pred Y E Mo R A) :
  (∀ w, self (m w).2 = self w) → keeps_groups m.
Proof. intros H w. by rewrite H. Qed.

Lemma keeps_groups_repeatM {A} n (m : M F Pred Y E Mo R A) :
  keeps_groups m → keeps_groups (repeatM n m).
Proof.
  intros Hm. induction n as [|n IH]; [done|]. cbn [repeatM].
  apply keeps_groups_bind; [done|]. intros a.
  apply keeps_groups_bind; [done|]. done.
Qed.

Lemma keeps_groups_forM {A B} (f : A → M F Pred Y E Mo R B) l :
  (∀ a, keeps_groups (f a)) → keeps_groups (forM f l).
Proof.
  intros Hf. induction l as [|a l IH]; [done|]. cbn [forM].
  apply keeps_groups_bind; [done|]. intros b.
  apply keeps_groups_bind; [done|]. done.
Qed.

Lemma keeps_groups_for_enumerate {A B} (f : nat → A → M F Pred Y E Mo R B) l :
  (∀ j a, keeps_groups (f j a)) → ∀ j, keeps_groups (for_enumerate f j l).
Proof.
  intros Hf. induction l as [|a l IH]; intros j; [done|]. cbn [for_enumerate].
  apply keeps_groups_bind; [done|]. intros b.
  apply keeps_groups_bind; [done|]. done.
Qed.

Lemma keeps_groups_lookup_group j :
  keeps_groups (lookup_group j : M F Pred Y E Mo R _).
Proof.
  intros w. cbv [lookup_group bind get_self ret raise].
  destruct (groups (self w)) as [g|] eqn:Hg; [|done].
  by destruct (g !! _).
Qed.

Lemma keeps_groups_clone_estimator l :
  keeps_groups (clone_estimator l : M F Pred Y E Mo R _).
Proof.
  apply keeps_groups_heap. intros w. unfold clone_estimator, alloc.
  by destruct (heap w !! l) as [[m|]|].
Qed.

Lemma keeps_groups_clone a : keeps_groups (clone a : M F Pred Y E Mo R _).
Proof.
  destruct a as [l|ls]; [apply keeps_groups_clone_estimator|]. cbn [clone].
  apply keeps_groups_bind; [|done].
  apply keeps_groups_forM, keeps_groups_clone_estimator.
Qed.

Lemma keeps_groups_get_nb_groups :
  keeps_groups (get_nb_groups : M F Pred Y E Mo R _).
Proof.
  intros w. cbv [get_nb_groups bind get_self ret raise].
  by destruct (nb_groups (self w)) eqn:Hnb.
Qed.

Lemma keeps_groups_prepare_models :
  keeps_groups (prepare_models : M F Pred Y E Mo R _).
Proof.
  unfold prepare_models. apply keeps_groups_bind; [done|]. intros c.
  destruct (length (list_imputation_mod c) =? 0); [|done].
  apply keeps_groups_bind; [apply keeps_groups_get_nb_groups|]. intros nb.
  apply keeps_groups_bind; [|done].
  apply keeps_groups_repeatM, keeps_groups_clone.
Qed.

Lemma keeps_groups_joblib_fit_one_gp l X (y : Y) j :
  keeps_groups (joblib_fit_one_gp l X y j : M F Pred Y E Mo R _).
Proof.
  unfold joblib_fit_one_gp.
  apply keeps_groups_bind; [apply keeps_groups_lookup_group|]. intros ids.
  apply keeps_groups_bind; [done|]. intros X_j.
  apply keeps_groups_bind; [apply keeps_groups_lookup_group|]. intros ids'.
  apply keeps_groups_bind; [done|]. intros X_mj.
  apply keeps_groups_bind; [|done].
  apply keeps_groups_heap. intros w. unfold estimator_fit.
  by destruct (heap w !! l) as [[m|]|].
Qed.

Lemma keeps_groups_fit_imputation_models X (y : Y) :
  keeps_groups (fit_imputation_models X y : M F Pred Y E Mo R _).
Proof.
  unfold fit_imputation_models. apply keeps_groups_bind; [done|]. intros c.
  apply keeps_groups_bind; [|done].
  apply keeps_groups_for_enumerate. intros j l.
  apply keeps_groups_joblib_fit_one_gp.
Qed.

Lemma fit_groups_kept X (y : Y) w :
  groups (self (fit X y w).2) = Some (fit_groups (self w) X) ∧
  nb_groups (self (fit X y w).2) = Some (fit_nb_groups (self w) X).
Proof.
  unfold fit. rewrite (bind_run _ _ _ _ _ (prepare_groups_run X w)).
  assert (keeps_groups (bind prepare_models (λ _, fit_imputation_models X y)
                          : M F Pred Y E Mo R _)) as Hk.
  { apply keeps_groups_bind; [apply keeps_groups_prepare_models|]. intros _.
    apply keeps_groups_fit_imputation_models. }
  destruct (Hk (fit_prepared w X)) as [-> ->]. done.
Qed.

(** C9. When [groups] is [None] at construction, [fit] gives every
    feature its own group: [nb_groups] is the number of columns of [X],
    and the dictionary has exactly the keys [0 .. n_cols X - 1], the
    group of key [j] being the one column [j]. *)
Theorem fit_default_groups (est : E) arg k (lo : Y → Pred → F) sp rs nj (ent : R)
    c (h : gmap loc (pyobj Mo)) X (y : Y) :
  __init__ est arg k None lo sp rs nj ent = inr c →
  ∃ g,
    groups (self (fit X y (mkWorld c h)).2) = Some g ∧
    nb_groups (self (fit X y (mkWorld c h)).2) = Some (n_cols X) ∧
    size g = n_cols X ∧
    (∀ j, j < n_cols X → g !! (inl j : group_key) = Some [j]) ∧
    (∀ key ids, g !! key = Some ids →
                ∃ j, key = inl j ∧ j < n_cols X ∧ ids = [j]).
Proof.
  intros [_ ->]%init_inv.
  destruct (fit_groups_kept X y
              (mkWorld (mkCPI est arg
                 (match arg with Multi ls => ls | Single _ => [] end)
                 k None rs lo sp nj
                 (match rs with Some s => rs_seed s | None => ent end) None) h))
    as [Hg Hnb].
  exists (singleton_groups (n_cols X)). split_and!; [done|done|..].
  - apply singleton_groups_size.
  - intros j Hj. rewrite singleton_groups_lookup. by case_decide.
  - intros key ids. rewrite singleton_groups_lookup.
    destruct key as [j|s]; [|done]. case_decide; [|done].
    intros [= <-]. eauto.
Qed.

(** [np.delete(X, ids, axis=1)] is [X] restricted to the columns that
    are not in [ids], in their order. *)
Lemma without_cols_as_take_cols ids X :
  wf_matrix X →
  take_cols (filter (λ col, col ∉ ids) (seq 0 (n_cols X))) X
    = inr (without_cols ids X).
Proof.
  intros Hwf. rewrite take_cols_in_range.
  - f_equal. unfold cols, without_cols. rewrite delete_from_seq. f_equal.
    apply Forall_fmap_ext_1. eapply Forall_impl; [apply Hwf|].
    intros r Hr. simpl in *. by rewrite delete_from_take_idx, Hr.
  - apply in_range_Forall, Forall_forall.
    intros i [_ Hi%elem_of_seq]%list_elem_of_filter. lia.
Qed.

(** What [fit] does to a freshly constructed instance. *)
Lemma fit_fresh_run (est : E) arg k grp (lo : Y → Pred → F) sp rs nj (ent : R)
    c h X (y : Y) :
  __init__ est arg k grp lo sp rs nj ent = inr c →
  (∀ j, j < fit_nb_groups c X → group_fittable (fit_groups c X) X j) →
  models_supplied h arg (fit_nb_groups c X) →
  ∃ w',
    fit X y (mkWorld c h) = (inr tt, w') ∧
    groups (self w') = Some (fit_groups c X) ∧
    nb_groups (self w') = Some (fit_nb_groups c X) ∧
    length (list_imputation_mod (self w')) = fit_nb_groups c X ∧
    NoDup (list_imputation_mod (self w')) ∧
    self w' = set_list_imputation_mod (list_imputation_mod (self w'))
                (self (fit_prepared (mkWorld c h) X)) ∧
    (∀ l, l ∈ dom h → l ∉ list_imputation_mod (self w') →
          heap w' !! l = h !! l) ∧
    match arg with
    | Single l0 =>
        (∀ l, l ∈ list_imputation_mod (self w') → l ∉ dom h) ∧
        ∀ j l ids X_j X_mj m0,
          list_imputation_mod (self w') !! j = Some l →
          h !! l0 = Some (Estimator m0) →
          fit_groups c X !! (inl j : group_key) = Some ids →
          take_cols ids X = inr X_j → np_delete_cols ids X = inr X_mj →
          heap w' !! l = Some (Estimator (im_fit (im_clone m0) X_mj X_j))
    | Multi ls =>
        list_imputation_mod (self w') = ls ∧ dom (heap w') = dom h ∧
        ∀ j l ids X_j X_mj m,
          ls !! j = Some l → h !! l = Some (Estimator m) →
          fit_groups c X !! (inl j : group_key) = Some ids →
          take_cols ids X = inr X_j → np_delete_cols ids X = inr X_mj →
          heap w' !! l = Some (Estimator (im_fit m X_mj X_j))
    end.
Proof.
  intros [_ ->]%init_inv Hgroups Hmodels.
  set (c := mkCPI est arg _ k grp rs lo sp nj _ None) in *.
  destruct arg as [l0|ls].
  - destruct Hmodels as [m0 Hl0].
    destruct (fit_single_run X y (mkWorld c h) l0 m0)
      as (ls & h' & Hrun & Hlen & Hnd & Hnew & Hold & Hfit); [done..|].
    eexists. split; [exact Hrun|]. cbn [self heap] in *.
    split_and!; try done.
    + intros l _ Hl. by apply Hold.
    + intros j l ids X_j X_mj m0' Hl Hl0' Hids HXj HXmj.
      assert (m0' = m0) as -> by congruence. by eapply Hfit.
  - destruct Hmodels as (Hlen & Hnd & Hall).
    destruct (fit_list_run X y (mkWorld c h) ls)
      as (h' & Hrun & Hdom & Hold & Hfit); [done| |done| |].
    { destruct ls; [right|left]; done. }
    { intros i l Hl. split.
      - apply Hgroups. cbn [self]. rewrite <- Hlen. by eapply lookup_lt_Some.
      - apply Hall. by eapply list_elem_of_lookup_2. }
    eexists. split; [exact Hrun|]. cbn [self heap] in *.
    split_and!; try done.
    + intros l _ Hl. by apply Hold.
    + intros j l ids X_j X_mj m Hl Hm Hids HXj HXmj. by eapply Hfit.
Qed.

Lemma fit_fresh_config (est : E) arg k grp (lo : Y → Pred → F) sp rs nj (ent : R)
    c w' h X :
  __init__ est arg k grp lo sp rs nj ent = inr c →
  self w' = set_list_imputation_mod (list_imputation_mod (self w'))
              (self (fit_prepared (mkWorld c h) X)) →
  est_is_fitted est = true ∧
  estimator (self w') = est ∧ n_perm (self w') = k ∧ loss (self w') = lo ∧
  score_proba (self w') = sp ∧
  rng (self w') = match rs with Some s => rs_seed s | None => ent end.
Proof. intros [Hf ->]%init_inv ->. done. Qed.

(** C2. On a freshly constructed instance [fit] returns; the instance
    it returns is the one it was called on, with the groups, their
    number and the list of models set, and there is one fitted
    imputation model per group: for every group [j], the [j]-th model
    has been fitted to predict the group's columns of [X] from [X]
    with exactly the group's columns deleted. *)
Theorem fit_trains_each_group (est : E) arg k grp (lo : Y → Pred → F) sp rs nj
    (ent : R) c (h : gmap loc (pyobj Mo)) X (y : Y) :
  __init__ est arg k grp lo sp rs nj ent = inr c →
  wf_matrix X →
  (∀ j, j < fit_nb_groups c X → group_fittable (fit_groups c X) X j) →
  models_supplied h arg (fit_nb_groups c X) →
  ∃ w',
    fit X y (mkWorld c h) = (inr tt, w') ∧
    groups (self w') = Some (fit_groups c X) ∧
    nb_groups (self w') = Some (fit_nb_groups c X) ∧
    self w' = set_list_imputation_mod (list_imputation_mod (self w'))
                (self (fit_prepared (mkWorld c h) X)) ∧
    length (list_imputation_mod (self w')) = fit_nb_groups c X ∧
    ∀ j, j < fit_nb_groups c X →
      ∃ l m0 ids X_j X_minus_j,
        list_imputation_mod (self w') !! j = Some l ∧
        fit_groups c X !! (inl j : group_key) = Some ids ∧
        take_cols ids X = inr X_j ∧
        np_delete_cols ids X = inr X_minus_j ∧
        take_cols (filter (λ col, col ∉ ids) (seq 0 (n_cols X))) X
          = inr X_minus_j ∧
        heap w' !! l = Some (Estimator (im_fit m0 X_minus_j X_j)) ∧
        im_is_fitted (im_fit m0 X_minus_j X_j) = true.
Proof.
  intros Hinit Hwf Hgroups Hmodels.
  destruct (fit_fresh_run est arg k grp lo sp rs nj ent c h X y Hinit Hgroups Hmodels)
    as (w' & Hrun & Hg & Hnb & Hlen & Hnd & Hself & Hold & Harg).
  exists w'. split_and!; try done.
  intros j Hj.
  destruct (lookup_lt_is_Some_2 (list_imputation_mod (self w')) j) as [l Hl]; [lia|].
  destruct (Hgroups j Hj) as (ids & Hids & Hr).
  assert (∃ m0, heap w' !! l =
                  Some (Estimator (im_fit m0 (without_cols ids X) (cols ids X))))
    as [m0 Hm0].
  { destruct arg as [l0|ls].
    - destruct Hmodels as [m0 Hl0]. exists (im_clone m0).
      eapply (proj2 Harg); try done.
      + by apply take_cols_in_range.
      + by apply np_delete_cols_in_range.
    - destruct Harg as (Hls & _ & Hfit). rewrite Hls in Hl.
      destruct Hmodels as (_ & _ & Hall).
      destruct (Hall l) as [m Hm]; [by eapply list_elem_of_lookup_2|].
      exists m. eapply Hfit; try done.
      + by apply take_cols_in_range.
      + by apply np_delete_cols_in_range. }
  exists l, m0, ids, (cols ids X), (without_cols ids X). split_and!; try done.
  - by apply take_cols_in_range.
  - by apply np_delete_cols_in_range.
  - by apply without_cols_as_take_cols.
  - apply im_fit_fitted.
Qed.

(** C7. When one imputation model is supplied to the constructor, [fit]
    makes one clone of it per group and fits the clones: the models of
    the fitted instance are that many new, pairwise different objects,
    each in the state that fitting a clone of the supplied model
    gives, and the supplied model and every other object of the store
    are left as they were. When a list of models is supplied, the
    models of the fitted instance are exactly the objects of the list,
    fitted in place, and no object is created. *)
Theorem fit_clones_or_uses_list (est : E) arg k grp (lo : Y → Pred → F) sp rs nj
    (ent : R) c (h : gmap loc (pyobj Mo)) X (y : Y) :
  __init__ est arg k grp lo sp rs nj ent = inr c →
  (∀ j, j < fit_nb_groups c X → group_fittable (fit_groups c X) X j) →
  models_supplied h arg (fit_nb_groups c X) →
  ∃ w',
    fit X y (mkWorld c h) = (inr tt, w') ∧
    match arg with
    | Single l0 =>
        length (list_imputation_mod (self w')) = fit_nb_groups c X ∧
        NoDup (list_imputation_mod (self w')) ∧
        (∀ l, l ∈ list_imputation_mod (self w') → l ∉ dom h) ∧
        (∀ l, l ∈ dom h → heap w' !! l = h !! l) ∧
        ∀ j l ids X_j X_mj m0,
          list_imputation_mod (self w') !! j = Some l →
          h !! l0 = Some (Estimator m0) →
          fit_groups c X !! (inl j : group_key) = Some ids →
          take_cols ids X = inr X_j → np_delete_cols ids X = inr X_mj →
          heap w' !! l = Some (Estimator (im_fit (im_clone m0) X_mj X_j))
    | Multi ls =>
        list_imputation_mod (self w') = ls ∧ dom (heap w') = dom h ∧
        ∀ j l ids X_j X_mj m,
          ls !! j = Some l → h !! l = Some (Estimator m) →
          fit_groups c X !! (inl j : group_key) = Some ids →
          take_cols ids X = inr X_j → np_delete_cols ids X = inr X_mj →
          heap w' !! l = Some (Estimator (im_fit m X_mj X_j))
    end.
Proof.
  intros Hinit Hgroups Hmodels.
  destruct (fit_fresh_run est arg k grp lo sp rs nj ent c h X y Hinit Hgroups Hmodels)
    as (w' & Hrun & Hg & Hnb & Hlen & Hnd & Hself & Hold & Harg).
  exists w'. split; [done|]. destruct arg as [l0|ls]; [|done].
  destruct Harg as [Hnew Hfit]. split_and!; try done.
  intros l Hl. apply Hold; [done|]. intros Hin. by apply (Hnew l).
Qed.

(** ** The checks before [predict] and [score] *)

Lemma check_imputation_models_state w :
  ∃ r, check_imputation_models w = (r, w).
Proof.
  cbv [check_imputation_models bind get_self ret raise].
  destruct (length (list_imputation_mod (self w)) =? 0); [by eauto|].
  destruct (forM_check_is_fitted (list_imputation_mod (self w)) w) as (r & -> & _).
  destruct r; eauto.
Qed.

Lemma keeps_groups_predict uninit X (y : option Y) :
  keeps_groups (predict uninit X y : M F Pred Y E Mo R _).
Proof.
  unfold predict. apply keeps_groups_bind.
  { intros w. destruct (check_imputation_models_state w) as [r ->]. done. }
  intros _. apply keeps_groups_bind; [done|]. intros c.
  apply keeps_groups_for_enumerate. intros j l. unfold joblib_predict_one_gp.
  apply keeps_groups_bind; [apply keeps_groups_lookup_group|]. intros ids.
  apply keeps_groups_bind; [done|]. intros X_j.
  apply keeps_groups_bind; [apply keeps_groups_lookup_group|]. intros ids'.
  apply keeps_groups_bind; [done|]. intros X_mj.
  apply keeps_groups_bind.
  { apply keeps_groups_heap. intros w. unfold estimator_predict.
    by destruct (heap w !! l) as [[m|]|]. }
  intros flat. apply keeps_groups_bind; [done|]. intros X_j_hat.
  apply keeps_groups_bind; [apply keeps_groups_lookup_group|]. intros gids.
  apply keeps_groups_bind; [done|]. intros ng.
  apply keeps_groups_bind; [done|]. intros c'.
  apply keeps_groups_repeatM. unfold permutation_round.
  apply keeps_groups_bind; [done|]. intros P.
  apply keeps_groups_bind; done.
Qed.

Lemma predict_raises uninit X (y : option Y) w :
  models_not_fitted w → ∃ e, predict uninit X y w = (inl e, w).
Proof.
  intros Hbad. destruct (check_imputation_models_raises w Hbad) as [e He].
  exists e. unfold predict. by rewrite (bind_raise _ _ _ _ _ He).
Qed.

Lemma score_raises uninit X (y : Y) w :
  models_not_fitted w → ∃ e, score uninit X y w = (inl e, w).
Proof.
  intros Hbad. destruct (check_imputation_models_raises w Hbad) as [e He].
  unfold score. unfold get_self at 1, bind at 1.
  unfold check_is_fitted_estimator.
  destruct (est_is_fitted (estimator (self w))).
  - exists e. unfold lift at 1, bind at 1. by rewrite (bind_raise _ _ _ _ _ He).
  - by exists NotFittedError.
Qed.

Lemma score_raises_before_fit uninit X (y : Y) w :
  nb_groups (self w) = None → ∃ e w', score uninit X y w = (inl e, w').
Proof.
  intros Hnb. unfold score. unfold get_self at 1, bind at 1.
  unfold check_is_fitted_estimator.
  destruct (est_is_fitted (estimator (self w))); [|by eauto].
  unfold lift at 1, bind at 1.
  destruct (check_imputation_models_state w) as [[e|[]] Hc].
  { rewrite (bind_raise _ _ _ _ _ Hc). eauto. }
  rewrite (bind_run _ _ _ _ _ Hc). unfold get_self at 1, bind at 1.
  destruct (keeps_groups_predict uninit X (Some y) w) as [_ Hk].
  destruct (predict uninit X (Some y) w) as [[e|outs] w1] eqn:Hp.
  { rewrite (bind_raise _ _ _ _ _ Hp). eauto. }
  rewrite (bind_run _ _ _ _ _ Hp). unfold get_self at 1, bind at 1.
  simpl in Hk. rewrite Hnb in Hk.
  assert (get_nb_groups w1 = (inl AttributeError, w1)) as Hget.
  { cbv [get_nb_groups bind get_self ret raise]. by rewrite Hk. }
  rewrite (bind_raise _ _ _ _ _ Hget). eauto.
Qed.

(** C5, as the code has it. The constructor raises when the predictive
    model is not fitted. [predict] and [score] raise, and leave the
    state as it is, when the list of imputation models is empty, which
    it is until [fit] is called on an instance built with a single
    model, or when it holds an object that is not a fitted estimator.
    [score] moreover raises whenever [fit] has never been called. *)
Theorem prerequisite_checks :
  (∀ (est : E) arg k grp (lo : Y → Pred → F) sp rs nj (ent : R),
     est_is_fitted est = false →
     __init__ est arg k grp lo sp rs nj ent = inl NotFittedError) ∧
  (∀ uninit X (y : Y) w,
     models_not_fitted w →
     (∃ e, predict uninit X (Some y) w = (inl e, w)) ∧
     (∃ e, score uninit X y w = (inl e, w))) ∧
  (∀ (est : E) l0 k grp (lo : Y → Pred → F) sp rs nj (ent : R) c
     (h : gmap loc (pyobj Mo)) uninit X (y : Y),
     __init__ est (Single l0) k grp lo sp rs nj ent = inr c →
     predict uninit X (Some y) (mkWorld c h) = (inl ValueError, mkWorld c h) ∧
     score uninit X y (mkWorld c h) = (inl ValueError, mkWorld c h)) ∧
  (∀ uninit X (y : Y) w,
     nb_groups (self w) = None → ∃ e w', score uninit X y w = (inl e, w')).
Proof.
  split_and!.
  - intros est arg k grp lo sp rs nj ent Hf.
    unfold __init__, check_is_fitted_estimator. by rewrite Hf.
  - intros uninit X y w Hbad. split; [by apply predict_raises|by apply score_raises].
  - intros est l0 k grp lo sp rs nj ent c h uninit X y [Hf ->]%init_inv. split.
    + done.
    + unfold score. unfold get_self at 1, bind at 1.
      unfold check_is_fitted_estimator. cbn [self estimator]. by rewrite Hf.
  - intros uninit X y w. apply score_raises_before_fit.
Qed.

(** ** Reproducibility *)

Lemma n_rows_without_cols ids X : n_rows (without_cols ids X) = n_rows X.
Proof. unfold n_rows, without_cols. simpl. apply length_fmap. Qed.

(** A freshly constructed instance, fitted, is ready for [predict] and
    [score] on the same [X]; its models are the fitted pre-fit states. *)
Lemma fit_fresh_ready (est : E) arg k grp (lo : Y → Pred → F) sp rs nj (ent : R)
    c h X (y : Y) :
  __init__ est arg k grp lo sp rs nj ent = inr c →
  (∀ j, j < fit_nb_groups c X → group_fittable (fit_groups c X) X j) →
  models_supplied h arg (fit_nb_groups c X) →
  imputer_shapes → 0 < fit_nb_groups c X →
  ∃ w',
    fit X y (mkWorld c h) = (inr tt, w') ∧
    models_ready w' X ∧
    groups (self w') = Some (fit_groups c X) ∧
    nb_groups (self w') = Some (fit_nb_groups c X) ∧
    length (list_imputation_mod (self w')) = fit_nb_groups c X ∧
    (estimator (self w') = est ∧ n_perm (self w') = k ∧ loss (self w') = lo ∧
     score_proba (self w') = sp ∧
     rng (self w') = match rs with Some s => rs_seed s | None => ent end) ∧
    est_is_fitted est = true ∧
    ∀ j l ids,
      list_imputation_mod (self w') !! j = Some l →
      fit_groups c X !! (inl j : group_key) = Some ids →
      ∃ m0, prefit_state h arg j m0 ∧
            heap w' !! l =
              Some (Estimator (im_fit m0 (without_cols ids X) (cols ids X))).
Proof.
  intros Hinit Hgroups Hmodels Hshapes Hpos.
  destruct (fit_fresh_run est arg k grp lo sp rs nj ent c h X y Hinit Hgroups Hmodels)
    as (w' & Hrun & Hg & Hnb & Hlen & Hnd & Hself & Hold & Harg).
  destruct (fit_fresh_config est arg k grp lo sp rs nj ent c w' h X Hinit Hself)
    as (Hf & He & Hk & Hlo & Hsp & Hrng).
  assert (∀ j l ids,
            list_imputation_mod (self w') !! j = Some l →
            fit_groups c X !! (inl j : group_key) = Some ids →
            in_range (n_cols X) ids = true →
            ∃ m0, prefit_state h arg j m0 ∧
                  heap w' !! l =
                    Some (Estimator (im_fit m0 (without_cols ids X) (cols ids X))))
    as Hstates.
  { intros j l ids Hl Hids Hr. destruct arg as [l0|ls].
    - destruct Hmodels as [m Hl0]. exists (im_clone m). split; [by exists m|].
      eapply (proj2 Harg); try done.
      + by apply take_cols_in_range.
      + by apply np_delete_cols_in_range.
    - destruct Harg as (Hls & _ & Hfit). rewrite Hls in Hl.
      destruct Hmodels as (_ & _ & Hall).
      destruct (Hall l) as [m Hm]; [by eapply list_elem_of_lookup_2|].
      exists m. split; [by exists l|]. eapply Hfit; try done.
      + by apply take_cols_in_range.
      + by apply np_delete_cols_in_range. }
  exists w'. split_and!; try done.
  - split.
    + intros Hnil. rewrite Hnil in Hlen. simpl in Hlen. lia.
    + intros j l Hl.
      destruct (Hgroups j) as (ids & Hids & Hr).
      { rewrite <- Hlen. by eapply lookup_lt_Some. }
      destruct (Hstates j l ids Hl Hids Hr) as (m0 & _ & Hm).
      exists (fit_groups c X), ids,
        (im_fit m0 (without_cols ids X) (cols ids X)), (without_cols ids X).
      split_and!; try done.
      * by apply np_delete_cols_in_range.
      * apply im_fit_fitted.
      * rewrite Hshapes, n_rows_without_cols. done.
  - intros j l ids Hl Hids.
    destruct (Hgroups j) as (ids' & Hids' & Hr).
    { rewrite <- Hlen. by eapply lookup_lt_Some. }
    assert (ids' = ids) as -> by congruence. by apply Hstates.
Qed.

Lemma prefit_state_alike h1 a1 h2 a2 nb j m1 m2 :
  models_alike h1 a1 h2 a2 nb →
  prefit_state h1 a1 j m1 → prefit_state h2 a2 j m2 → m1 = m2.
Proof.
  destruct a1 as [l1|ls1], a2 as [l2|ls2]; simpl; try done.
  - intros (m & H1 & H2) (m' & H1' & ->) (m'' & H2' & ->). congruence.
  - intros (_ & _ & _ & ms & F1 & F2) (l & Hl & Hm1) (l' & Hl' & Hm2).
    destruct (Forall2_lookup_l _ _ _ _ _ F1 Hl) as (x & Hx & Hx').
    destruct (Forall2_lookup_l _ _ _ _ _ F2 Hl') as (x' & Hx2 & Hx2').
    congruence.
Qed.

Lemma models_alike_supplied h1 a1 h2 a2 nb :
  models_alike h1 a1 h2 a2 nb →
  models_supplied h1 a1 nb ∧ models_supplied h2 a2 nb.
Proof.
  destruct a1 as [l1|ls1], a2 as [l2|ls2]; simpl; try done.
  - intros (m & H1 & H2). eauto.
  - intros (Hlen & Hnd1 & Hnd2 & ms & F1 & F2). split; split_and!; try done.
    + intros l [i Hi]%list_elem_of_lookup.
      destruct (Forall2_lookup_l _ _ _ _ _ F1 Hi) as (x & _ & Hx). eauto.
    + rewrite <- Hlen.
      by rewrite (Forall2_length _ _ _ F1), (Forall2_length _ _ _ F2).
    + intros l [i Hi]%list_elem_of_lookup.
      destruct (Forall2_lookup_l _ _ _ _ _ F2 Hi) as (x & _ & Hx). eauto.
Qed.

Lemma estimator_output_config c1 c2 X :
  estimator c1 = estimator c2 → score_proba c1 = score_proba c2 →
  estimator_output c1 X = estimator_output c2 X.
Proof. unfold estimator_output. by intros -> ->. Qed.

(** C10. Two instances freshly constructed with the same arguments, a
    fixed integer [random_state] and [n_jobs=1], fitted and scored on
    the same [X] and [y], return the same dictionary from [score]: the
    generator of each is seeded once, by the constructor, from
    [random_state], and neither the entropy of the system, nor the
    contents of newly allocated arrays, nor the identity of the objects
    in the store shows in the result. *)
Theorem score_reproducible (est : E) arg1 arg2 k grp (lo : Y → Pred → F) sp seed
    (ent1 ent2 : R) c1 c2 (h1 h2 : gmap loc (pyobj Mo)) uninit1 uninit2 X (y : Y) :
  __init__ est arg1 k grp lo sp (Some seed) 1 ent1 = inr c1 →
  __init__ est arg2 k grp lo sp (Some seed) 1 ent2 = inr c2 →
  models_alike h1 arg1 h2 arg2 (fit_nb_groups c1 X) →
  wf_matrix X → 0 < fit_nb_groups c1 X →
  (∀ j, j < fit_nb_groups c1 X → group_fittable (fit_groups c1 X) X j) →
  imputer_shapes →
  rng c1 = rs_seed seed ∧ rng c2 = rs_seed seed ∧
  ∃ w1 w2 out w1' w2',
    fit X y (mkWorld c1 h1) = (inr tt, w1) ∧
    fit X y (mkWorld c2 h2) = (inr tt, w2) ∧
    score uninit1 X y w1 = (inr out, w1') ∧
    score uninit2 X y w2 = (inr out, w2').
Proof.
  intros Hinit1 Hinit2 Halike Hwf Hpos Hgroups Hshapes.
  pose proof (init_inv _ _ _ _ _ _ _ _ _ _ Hinit1) as [_ Hc1].
  pose proof (init_inv _ _ _ _ _ _ _ _ _ _ Hinit2) as [_ Hc2].
  split; [by rewrite Hc1|]. split; [by rewrite Hc2|].
  assert (fit_groups c2 X = fit_groups c1 X) as Hg21 by (by rewrite Hc1, Hc2).
  assert (fit_nb_groups c2 X = fit_nb_groups c1 X) as Hn21 by (by rewrite Hc1, Hc2).
  set (nb := fit_nb_groups c1 X) in *. set (g := fit_groups c1 X) in *.
  destruct (models_alike_supplied _ _ _ _ _ Halike) as [Hs1 Hs2].
  destruct (fit_fresh_ready est arg1 k grp lo sp (Some seed) 1 ent1 c1 h1 X y)
    as (w1 & Hfit1 & Hready1 & Hg1 & Hnb1 & Hlen1 &
        (He1 & Hk1 & Hlo1 & Hsp1 & Hrng1) & Hf & Hst1); try done.
  destruct (fit_fresh_ready est arg2 k grp lo sp (Some seed) 1 ent2 c2 h2 X y)
    as (w2 & Hfit2 & Hready2 & Hg2 & Hnb2 & Hlen2 &
        (He2 & Hk2 & Hlo2 & Hsp2 & Hrng2) & _ & Hst2); try done.
  { by rewrite Hn21, Hg21. }
  { by rewrite Hn21. }
  { by rewrite Hn21. }
  rewrite Hg21 in Hg2, Hst2. rewrite Hn21 in Hnb2, Hlen2.
  destruct (predict_run uninit1 X (Some y) w1 Hready1) as (D1 & Hp1 & HlD1 & Hrows1).
  destruct (predict_run uninit2 X (Some y) w2 Hready2) as (D2 & Hp2 & HlD2 & Hrows2).
  assert (D1 = D2) as HD.
  { apply list_eq. intros j. destruct (decide (j < nb)) as [Hj|Hj].
    - destruct (lookup_lt_is_Some_2 (list_imputation_mod (self w1)) j) as [l1 Hl1]; [lia|].
      destruct (lookup_lt_is_Some_2 (list_imputation_mod (self w2)) j) as [l2 Hl2]; [lia|].
      destruct (Hgroups j Hj) as (ids & Hids & Hr).
      destruct (Hst1 j l1 ids Hl1 Hids) as (m1 & Hpre1 & Hm1).
      destruct (Hst2 j l2 ids Hl2 Hids) as (m2 & Hpre2 & Hm2).
      assert (m1 = m2) as <- by (by eapply prefit_state_alike).
      rewrite (Hrows1 j l1 g ids _ Hl1 Hg1 Hids Hm1).
      rewrite (Hrows2 j l2 g ids _ Hl2 Hg2 Hids Hm2).
      rewrite Hk1, Hk2, Hrng1, Hrng2. f_equal.
      apply Forall_fmap_ext_1, Forall_forall. intros idx Hidx%draws_perm.
      apply perturbed_memory_irrelevant; try done.
      rewrite Hshapes, n_rows_without_cols. done.
    - rewrite !lookup_ge_None_2; [done|lia|lia]. }
  subst D2.
  assert (∀ Xp, estimator_output (self w2) Xp = estimator_output (self w1) Xp) as Heo.
  { intros Xp. apply estimator_output_config; congruence. }
  rewrite (list_fmap_ext _ (λ D : list (Matrix F), estimator_output (self w1) <$> D))
    in Hp2.
  2:{ intros _ D _. apply list_fmap_ext. intros _ Xp _. apply Heo. }
  assert (est_is_fitted (estimator (self w1)) = true) as Hf1 by (by rewrite He1).
  assert (est_is_fitted (estimator (self w2)) = true) as Hf2 by (by rewrite He2).
  pose proof (score_run uninit1 X y w1 _ _ nb Hf1 (proj1 Hready1)
                (models_ready_fitted w1 X Hready1) Hp1 eq_refl Hnb1) as Hrun1.
  pose proof (score_run uninit2 X y w2 _ _ nb Hf2 (proj1 Hready2)
                (models_ready_fitted w2 X Hready2) Hp2 eq_refl Hnb2) as Hrun2.
  rewrite Hlo2, Heo, <- Hlo1 in Hrun2.
  destruct (collect_scores_rows (loss (self w1)) y
              (loss (self w1) y (estimator_output (self w1) X))
              ((λ D : list (Matrix F), estimator_output (self w1) <$> D) <$> D1)
              nb) as (out & Hout & _).
  { intros j Hj. apply lookup_lt_is_Some_2. rewrite length_fmap. lia. }
  rewrite Hout in Hrun1, Hrun2.
  eexists w1, w2, out, _, _. split_and!; [done|done|exact Hrun1|exact Hrun2].
Qed.
End method_facts.

(** * What the methods leave alone, and how they fail *)

(** The statements below that rest on the tasks of [Parallel] running
    one after the other in the process of the caller, on the models and
    on the generator of the instance themselves, are stated for
    [n_jobs = 1], the default, which is the run the embedding models. *)

Section behaviour_facts.
Context {F Pred Y E Mo R : Type}.
Context `{!Scalar F, !Predictor E F Pred, !Imputer Mo F, !RandomStateOps R}.
Implicit Types (c : CPI F Pred Y E R) (w : world F Pred Y E Mo R).
Implicit Types (X : Matrix F) (h : gmap loc (pyobj Mo)) (ls : list loc).
Implicit Types (g : gmap group_key (list nat)).

(** ** Bodies that only advance the generator *)

Lemma only_rng_bind {A B} (m : M F Pred Y E Mo R A) (f : A → M F Pred Y E Mo R B) :
  only_rng m → (∀ a, only_rng (f a)) → only_rng (bind m f).
Proof.
  intros Hm Hf w. unfold bind. destruct (Hm w) as [r Hr].
  destruct (m w) as [[e|a] w1]; simpl in *.
  - eauto.
  - destruct (Hf a w1) as [r' Hr']. exists r'.
    rewrite Hr', Hr. apply with_rng_with_rng.
Qed.

Lemma only_rng_pure {A} (m : M F Pred Y E Mo R A) :
  (∀ w, (m w).2 = w) → only_rng m.
Proof. intros Hm w. exists (rng (self w)). by rewrite Hm, with_rng_same. Qed.

Lemma only_rng_ret {A} (a : A) : only_rng (ret a : M F Pred Y E Mo R A).
Proof. by apply only_rng_pure. Qed.

Lemma only_rng_lift {A} (r : result A) : only_rng (lift r : M F Pred Y E Mo R A).
Proof. by apply only_rng_pure. Qed.

Lemma only_rng_get_self : only_rng (get_self : M F Pred Y E Mo R _).
Proof. by apply only_rng_pure. Qed.

Lemma only_rng_lookup_group j : only_rng (lookup_group j : M F Pred Y E Mo R _).
Proof.
  apply only_rng_pure. intros w. cbv [lookup_group bind get_self raise ret].
  destruct (groups (self w)) as [g|]; [|done].
  by destruct (g !! (inl j : group_key)).
Qed.

Lemma only_rng_get_nb_groups : only_rng (get_nb_groups : M F Pred Y E Mo R _).
Proof.
  apply only_rng_pure. intros w. cbv [get_nb_groups bind get_self raise ret].
  by destruct (nb_groups (self w)).
Qed.

Lemma only_rng_estimator_predict l A :
  only_rng (estimator_predict l A : M F Pred Y E Mo R _).
Proof.
  apply only_rng_pure. intros w. unfold estimator_predict.
  by destruct (heap w !! l) as [[]|].
Qed.

Lemma only_rng_rng_permutation A :
  only_rng (rng_permutation A : M F Pred Y E Mo R _).
Proof. intros w. by eexists. Qed.

Lemma only_rng_repeatM {A} n (m : M F Pred Y E Mo R A) :
  only_rng m → only_rng (repeatM n m).
Proof.
  intros Hm. induction n as [|n IH]; simpl.
  - apply only_rng_ret.
  - apply only_rng_bind; [done|]. intros a.
    apply only_rng_bind; [done|]. intros l. apply only_rng_ret.
Qed.

Lemma only_rng_for_enumerate {A B} (f : nat → A → M F Pred Y E Mo R B) l :
  (∀ j a, only_rng (f j a)) → ∀ j, only_rng (for_enumerate f j l).
Proof.
  intros Hf. induction l as [|a l IH]; intros j; simpl.
  - apply only_rng_ret.
  - apply only_rng_bind; [done|]. intros b.
    apply only_rng_bind; [done|]. intros bs. apply only_rng_ret.
Qed.

Lemma only_rng_check_imputation_models :
  only_rng (check_imputation_models : M F Pred Y E Mo R _).
Proof.
  apply only_rng_pure. intros w.
  destruct (check_imputation_models_state w) as [r ->]. done.
Qed.

Lemma only_rng_joblib_predict_one_gp uninit l X j :
  only_rng (joblib_predict_one_gp uninit l X j : M F Pred Y E Mo R _).
Proof.
  unfold joblib_predict_one_gp, permutation_round.
  repeat first
    [ apply only_rng_lookup_group | apply only_rng_lift
    | apply only_rng_estimator_predict | apply only_rng_get_self
    | apply only_rng_repeatM | apply only_rng_rng_permutation
    | apply only_rng_ret
    | apply only_rng_bind; [|intros ?] ].
Qed.

Lemma only_rng_predict uninit X (y : option Y) :
  only_rng (predict uninit X y : M F Pred Y E Mo R _).
Proof.
  unfold predict, Parallel.
  apply only_rng_bind; [apply only_rng_check_imputation_models|]. intros _.
  apply only_rng_bind; [apply only_rng_get_self|]. intros c.
  apply only_rng_for_enumerate. intros j l.
  apply only_rng_joblib_predict_one_gp.
Qed.

Lemma only_rng_score uninit X (y : Y) :
  only_rng (score uninit X y : M F Pred Y E Mo R _).
Proof.
  unfold score.
  repeat first
    [ apply only_rng_predict | apply only_rng_lift
    | apply only_rng_check_imputation_models | apply only_rng_get_self
    | apply only_rng_get_nb_groups | apply only_rng_ret
    | apply only_rng_bind; [|intros ?] ].
Qed.

(** X1. [predict] and [score] change nothing but the state of the
    generator: whether they return or raise, the objects of the store
    (the imputation models among them) and every attribute of the
    instance other than [rng] are afterwards what they were before. *)
Theorem predict_score_only_advance_rng uninit X (y : Y) (yo : option Y) w :
  (∃ r, (predict uninit X yo w).2 = mkWorld (set_rng r (self w)) (heap w)) ∧
  (∃ r, (score uninit X y w).2 = mkWorld (set_rng r (self w)) (heap w)).
Proof.
  split; [apply (only_rng_predict uninit X yo w)|apply (only_rng_score uninit X y w)].
Qed.

(** ** What [fit] leaves alone *)

Lemma set_list_imputation_mod_same c :
  set_list_imputation_mod (list_imputation_mod c) c = c.
Proof. by destruct c. Qed.

Lemma joblib_fit_one_gp_frame l X (y : Y) j w :
  ∃ r h', joblib_fit_one_gp l X y j w = (r, mkWorld (self w) h') ∧
          dom h' = dom (heap w) ∧
          (∀ l', l' ≠ l → h' !! l' = heap w !! l') ∧
          (∀ a, r = inr a → a = l).
Proof.
  cbv [joblib_fit_one_gp bind lookup_group get_self lift estimator_fit ret raise].
  destruct w as [c h]; cbn [self heap].
  repeat case_match; simplify_eq/=;
    eexists _, _; (split; [reflexivity|]); split_and!; try done.
  - apply dom_insert_lookup_L. eauto.
  - intros l' Hne. by rewrite lookup_insert_ne.
  - by intros a [= <-].
Qed.

Lemma fit_loop_frame X (y : Y) ls : ∀ j w,
  ∃ r h', for_enumerate (λ j e, joblib_fit_one_gp e X y j) j ls w
            = (r, mkWorld (self w) h') ∧
          dom h' = dom (heap w) ∧
          (∀ l, l ∉ ls → h' !! l = heap w !! l) ∧
          (∀ a, r = inr a → a = ls).
Proof.
  induction ls as [|l ls IH]; intros j w.
  - exists (inr []), (heap w). simpl. unfold ret. destruct w.
    split_and!; try done. by intros a [= <-].
  - destruct (joblib_fit_one_gp_frame l X y j w)
      as (r1 & h1 & Hrun1 & Hdom1 & Hother1 & Hr1).
    destruct r1 as [e|a].
    + exists (inl e), h1. split_and!; try done.
      * simpl. by rewrite (bind_raise _ _ _ _ _ Hrun1).
      * intros l' [Hne _]%not_elem_of_cons. by apply Hother1.
    + rewrite (Hr1 a eq_refl) in Hrun1.
      destruct (IH (S j) (mkWorld (self w) h1))
        as (r2 & h2 & Hrun2 & Hdom2 & Hother2 & Hr2).
      cbn [self heap] in *.
      exists (match r2 with inl e => inl e | inr ys => inr (l :: ys) end), h2.
      split_and!.
      * simpl. rewrite (bind_run _ _ _ _ _ Hrun1).
        destruct r2 as [e|ys].
        -- by rewrite (bind_raise _ _ _ _ _ Hrun2).
        -- by rewrite (bind_run _ _ _ _ _ Hrun2).
      * by rewrite Hdom2.
      * intros l' [Hne Hl']%not_elem_of_cons.
        rewrite Hother2 by done. by apply Hother1.
      * intros a'. destruct r2 as [e|ys]; [done|].
        intros [= <-]. by rewrite (Hr2 ys eq_refl).
Qed.

Lemma fit_imputation_models_frame X (y : Y) w :
  ∃ r h', fit_imputation_models X y w = (r, mkWorld (self w) h') ∧
          dom h' = dom (heap w) ∧
          (∀ l, l ∉ list_imputation_mod (self w) → h' !! l = heap w !! l).
Proof.
  destruct (fit_loop_frame X y (list_imputation_mod (self w)) 0 w)
    as (r & h' & Hrun & Hdom & Hother & Hr).
  cbv [fit_imputation_models bind get_self update_self Parallel].
  rewrite Hrun. destruct r as [e|a].
  - by exists (inl e), h'.
  - exists (inr tt), h'. cbn [self heap].
    rewrite (Hr a eq_refl), set_list_imputation_mod_same. done.
Qed.

Lemma clone_estimator_frame l w :
  ∃ r h', clone_estimator l w = (r, mkWorld (self w) h') ∧
          heap w ⊆ h' ∧ (∀ l', r = inr l' → l' ∉ dom (heap w)).
Proof.
  unfold clone_estimator, alloc. destruct w as [c h]; cbn [self heap].
  destruct (h !! l) as [[m|]|]; eexists _, _; (split; [reflexivity|]);
    split; try done.
  - apply insert_subseteq, not_elem_of_dom, is_fresh.
  - intros l' [= <-]. apply is_fresh.
Qed.

Lemma forM_clone_estimator_frame ls : ∀ w,
  ∃ r h', forM clone_estimator ls w = (r, mkWorld (self w) h') ∧ heap w ⊆ h'.
Proof.
  induction ls as [|l ls IH]; intros w.
  - exists (inr []), (heap w). simpl. unfold ret. by destruct w.
  - destruct (clone_estimator_frame l w) as (r1 & h1 & Hrun1 & Hsub1 & _).
    destruct r1 as [e|a].
    + exists (inl e), h1. simpl. by rewrite (bind_raise _ _ _ _ _ Hrun1).
    + destruct (IH (mkWorld (self w) h1)) as (r2 & h2 & Hrun2 & Hsub2).
      cbn [self heap] in *.
      exists (match r2 with inl e => inl e | inr ys => inr (a :: ys) end), h2.
      split; [|by etrans].
      simpl. rewrite (bind_run _ _ _ _ _ Hrun1). destruct r2 as [e|ys].
      * by rewrite (bind_raise _ _ _ _ _ Hrun2).
      * by rewrite (bind_run _ _ _ _ _ Hrun2).
Qed.

Lemma clone_frame a w :
  ∃ r h', clone a w = (r, mkWorld (self w) h') ∧
          heap w ⊆ h' ∧ (∀ l', r = inr l' → l' ∉ dom (heap w)).
Proof.
  destruct a as [l0|ls]; [apply clone_estimator_frame|].
  destruct (forM_clone_estimator_frame ls w) as (r1 & h1 & Hrun1 & Hsub1).
  unfold clone. destruct r1 as [e|a].
  - exists (inl e), h1. by rewrite (bind_raise _ _ _ _ _ Hrun1).
  - rewrite (bind_run _ _ _ _ _ Hrun1). unfold alloc. cbn [self heap].
    eexists _, _. split; [reflexivity|]. split.
    + etrans; [exact Hsub1|]. apply insert_subseteq, not_elem_of_dom, is_fresh.
    + intros l' [= <-] Hin. apply (is_fresh (dom h1)).
      by apply (subseteq_dom _ _ Hsub1).
Qed.

Lemma repeatM_clone_frame a n : ∀ w,
  ∃ r h', repeatM n (clone a) w = (r, mkWorld (self w) h') ∧
          heap w ⊆ h' ∧
          (∀ ls, r = inr ls → ∀ l, l ∈ ls → l ∉ dom (heap w)).
Proof.
  induction n as [|n IH]; intros w.
  - exists (inr []), (heap w). simpl. unfold ret. destruct w.
    split_and!; try done. intros ls [= <-] l Hl. by apply elem_of_nil in Hl.
  - destruct (clone_frame a w) as (r1 & h1 & Hrun1 & Hsub1 & Hfresh1).
    destruct r1 as [e|l1].
    + exists (inl e), h1. simpl. by rewrite (bind_raise _ _ _ _ _ Hrun1).
    + destruct (IH (mkWorld (self w) h1)) as (r2 & h2 & Hrun2 & Hsub2 & Hfresh2).
      cbn [self heap] in *.
      exists (match r2 with inl e => inl e | inr ys => inr (l1 :: ys) end), h2.
      split_and!.
      * simpl. rewrite (bind_run _ _ _ _ _ Hrun1). destruct r2 as [e|ys].
        -- by rewrite (bind_raise _ _ _ _ _ Hrun2).
        -- by rewrite (bind_run _ _ _ _ _ Hrun2).
      * by etrans.
      * intros ls Hls l Hl. destruct r2 as [e|ys]; [done|].
        injection Hls as <-. apply elem_of_cons in Hl as [->|Hl].
        -- by apply Hfresh1.
        -- intros Hin. apply (Hfresh2 ys eq_refl l Hl).
           by apply (subseteq_dom _ _ Hsub1).
Qed.

Lemma prepare_models_frame w :
  ∃ r ls' h',
    prepare_models w = (r, mkWorld (set_list_imputation_mod ls' (self w)) h') ∧
    heap w ⊆ h' ∧
    (list_imputation_mod (self w) ≠ [] →
       ls' = list_imputation_mod (self w) ∧ h' = heap w) ∧
    (list_imputation_mod (self w) = [] → ∀ l, l ∈ ls' → l ∉ dom (heap w)).
Proof.
  cbv [prepare_models bind get_self].
  destruct (list_imputation_mod (self w)) as [|l0 ls0] eqn:Hls; cbn [length Nat.eqb].
  - assert (set_list_imputation_mod [] (self w) = self w) as Hsame.
    { rewrite <- Hls. apply set_list_imputation_mod_same. }
    unfold get_nb_groups, bind, get_self, raise, ret.
    destruct (nb_groups (self w)) as [nb|].
    + destruct (repeatM_clone_frame (imputation_model (self w)) nb w)
        as (r & h' & Hrun & Hsub & Hfresh).
      rewrite Hrun. destruct r as [e|ls].
      * exists (inl e), [], h'. rewrite Hsame. split_and!; try done.
        intros _ l Hl. by apply elem_of_nil in Hl.
      * exists (inr tt), ls, h'. unfold update_self. cbn [self heap].
        split_and!; try done. intros _. by apply Hfresh.
    + exists (inl AttributeError), [], (heap w). rewrite Hsame.
      destruct w. split_and!; try done.
      intros _ l Hl. by apply elem_of_nil in Hl.
  - exists (inr tt), (l0 :: ls0), (heap w). rewrite <- Hls.
    rewrite set_list_imputation_mod_same. unfold ret.
    split_and!; try done; [by destruct w|]. by rewrite Hls.
Qed.

(** X2. [fit], whether it returns or raises, assigns none of the
    attributes that the constructor set other than the list of models
    and the groups (the generator among them is left in its state), and
    it changes no object of the store that is not in the list of models
    it found: a single model handed to the constructor is never fitted
    itself. *)
Theorem fit_leaves_the_rest_alone X (y : Y) w :
  ∃ r w',
    fit X y w = (r, w') ∧
    same_settings (self w) (self w') ∧
    ∀ l, l ∈ dom (heap w) → l ∉ list_imputation_mod (self w) →
         heap w' !! l = heap w !! l.
Proof.
  unfold fit. rewrite (bind_run _ _ _ _ _ (prepare_groups_run X w)).
  destruct (prepare_models_frame (fit_prepared w X))
    as (r1 & ls' & h1 & Hrun1 & Hsub1 & Hlist & Hempty).
  assert (∀ l, l ∈ dom (heap w) → h1 !! l = heap w !! l) as Hold.
  { intros l [o Ho]%elem_of_dom. rewrite Ho.
    by apply (lookup_weaken (heap w)). }
  destruct r1 as [e|[]].
  - rewrite (bind_raise _ _ _ _ _ Hrun1). eexists _, _. split; [done|].
    split; [by repeat split|]. intros l Hl _. by apply Hold.
  - rewrite (bind_run _ _ _ _ _ Hrun1).
    destruct (fit_imputation_models_frame X y
                (mkWorld (set_list_imputation_mod ls' (self (fit_prepared w X))) h1))
      as (r2 & h2 & Hrun2 & Hdom2 & Hother2).
    rewrite Hrun2. eexists _, _. split; [done|].
    split; [by repeat split|]. cbn [self heap] in *.
    intros l Hl Hnl. rewrite Hother2; [by apply Hold|].
    change (l ∉ ls').
    rewrite fit_prepared_list in Hlist, Hempty.
    destruct (list_imputation_mod (self w)) as [|l0 ls0] eqn:Hls.
    + intros Hin. by apply (Hempty eq_refl l Hin).
    + destruct Hlist as [-> _]; done.
Qed.

(** ** The first task that fails *)

Lemma for_enumerate_raise {A B} (f : nat → A → M F Pred Y E Mo R B) l1 x l2 :
  ∀ j w ys w1 e w2,
    for_enumerate f j l1 w = (inr ys, w1) →
    f (j + length l1) x w1 = (inl e, w2) →
    for_enumerate f j (l1 ++ x :: l2) w = (inl e, w2).
Proof.
  induction l1 as [|a l1 IH]; intros j w ys w1 e w2 H1 H2; simpl in *.
  - unfold ret in H1. simplify_eq. rewrite Nat.add_0_r in H2.
    by rewrite (bind_raise _ _ _ _ _ H2).
  - unfold bind in H1 |- *. destruct (f j a w) as [[e1|b] w'] eqn:Hf; [done|].
    destruct (for_enumerate f (S j) l1 w') as [[e2|bs] w''] eqn:Hrest; [done|].
    unfold ret in H1. simplify_eq.
    rewrite (IH (S j) w' bs w1 e w2 Hrest); [done|].
    by replace (S j + length l1) with (j + S (length l1)) by lia.
Qed.

Lemma fit_task_error_None g X j :
  fit_task_error g X j = None ↔ group_fittable g X j.
Proof.
  unfold fit_task_error, group_fittable. split.
  - destruct (g !! (inl j : group_key)) as [ids|]; [|done].
    destruct (in_range (n_cols X) ids) eqn:Hr; [|done]. eauto.
  - intros (ids & -> & ->). done.
Qed.

Lemma joblib_fit_one_gp_raise l X (y : Y) j w g e :
  groups (self w) = Some g → fit_task_error g X j = Some e →
  joblib_fit_one_gp l X y j w = (inl e, w).
Proof.
  intros Hg He. unfold fit_task_error in He.
  cbv [joblib_fit_one_gp bind lookup_group get_self lift estimator_fit ret raise].
  step Hg. destruct (g !! (inl j : group_key)) as [ids|]; [|by simplify_eq].
  unfold take_cols. destruct (in_range (n_cols X) ids); by simplify_eq.
Qed.

(** The loop of fitting tasks over models that need not be different
    objects: every model of the list ends up fitted. *)
Lemma fit_loop_any X (y : Y) g ls : ∀ j w,
  groups (self w) = Some g →
  (∀ i l, ls !! i = Some l →
     group_fittable g X (j + i) ∧ ∃ m, heap w !! l = Some (Estimator m)) →
  ∃ h', for_enumerate (λ j e, joblib_fit_one_gp e X y j) j ls w
          = (inr ls, mkWorld (self w) h') ∧
        ∀ l m, heap w !! l = Some (Estimator m) →
          ∃ m', h' !! l = Some (Estimator m') ∧
                (l ∈ ls ∨ im_is_fitted m = true → im_is_fitted m' = true).
Proof.
  induction ls as [|l ls IH]; intros j w Hg Hok.
  - exists (heap w). simpl. unfold ret. split; [by destruct w|].
    intros l m Hl. exists m. split; [done|].
    intros [Hin|Hf]; [by apply elem_of_nil in Hin|done].
  - destruct (Hok 0 l eq_refl) as [(ids & Hids & Hr) [m Hm]].
    rewrite Nat.add_0_r in Hids.
    destruct (in_range_take_cols _ _ Hr) as [X_j HXj].
    destruct (in_range_np_delete_cols _ _ Hr) as [X_mj HXmj].
    set (w1 := mkWorld (self w) (<[l := Estimator (im_fit m X_mj X_j)]> (heap w))).
    destruct (IH (S j) w1) as (h' & Hrun & Hst); [done| |].
    { intros i l' Hl'. destruct (Hok (S i) l' Hl') as [Hgf [m' Hm']].
      split; [by replace (S j + i) with (j + S i) by lia|].
      simpl. destruct (decide (l' = l)) as [->|Hne].
      - rewrite lookup_insert_eq. eauto.
      - rewrite lookup_insert_ne by done. eauto. }
    exists h'. split.
    + simpl.
      rewrite (bind_run _ _ _ _ _
                 (joblib_fit_one_gp_run l X y j w g ids m X_j X_mj Hg Hids HXj HXmj Hm)).
      by rewrite (bind_run _ _ _ _ _ Hrun).
    + intros l0 m0 Hl0. destruct (decide (l0 = l)) as [->|Hne].
      * destruct (Hst l (im_fit m X_mj X_j)) as (m' & Hm' & Hf).
        { simpl. by rewrite lookup_insert_eq. }
        exists m'. split; [done|]. intros _. apply Hf. right. apply im_fit_fitted.
      * destruct (Hst l0 m0) as (m' & Hm' & Hf).
        { simpl. by rewrite lookup_insert_ne. }
        exists m'. split; [done|].
        intros [[->|Hin]%elem_of_cons|Hfit]; [done|apply Hf; by left|apply Hf; by right].
Qed.

Lemma fit_tasks_raise X (y : Y) w g ls j e :
  groups (self w) = Some g → list_imputation_mod (self w) = ls →
  j < length ls →
  (∀ l, l ∈ ls → ∃ m, heap w !! l = Some (Estimator m)) →
  (∀ i, i < j → fit_task_error g X i = None) →
  fit_task_error g X j = Some e →
  ∃ h', fit_imputation_models X y w = (inl e, mkWorld (self w) h') ∧
        ∀ i l, i < j → ls !! i = Some l →
               ∃ m, h' !! l = Some (Estimator m) ∧ im_is_fitted m = true.
Proof.
  intros Hg Hls Hj Hest Hbefore He.
  destruct (lookup_lt_is_Some_2 ls j Hj) as [lj Hlj].
  destruct (fit_loop_any X y g (take j ls) 0 w Hg) as (h' & Hrun & Hst).
  { intros i l Hl. apply lookup_take_Some in Hl as [Hl Hi]. split.
    - apply fit_task_error_None, Hbefore. lia.
    - apply Hest. by eapply list_elem_of_lookup_2. }
  exists h'. split.
  - cbv [fit_imputation_models bind get_self Parallel]. rewrite Hls.
    rewrite <- (take_drop_middle ls j lj Hlj) at 1.
    assert (joblib_fit_one_gp lj X y (0 + length (take j ls))
              (mkWorld (self w) h') = (inl e, mkWorld (self w) h')) as Hfail.
    { apply (joblib_fit_one_gp_raise _ _ _ _ _ g); [done|].
      rewrite length_take_le by lia. done. }
    by rewrite (for_enumerate_raise
                  (λ j e, joblib_fit_one_gp e X y j) _ _ _ 0 w _ _ e _ Hrun Hfail).
  - intros i l Hi Hl. destruct (Hest l) as [m Hm]; [by eapply list_elem_of_lookup_2|].
    destruct (Hst l m Hm) as (m' & Hm' & Hf). exists m'. split; [done|].
    apply Hf. left. apply (list_elem_of_lookup_2 _ i). by rewrite lookup_take_lt.
Qed.

(** X3. With [n_jobs=1], where the fitting tasks run one after the
    other on the models themselves, [fit] stops at the first group
    whose columns it cannot take: with [KeyError] when the dictionary
    of groups has no entry under the integer [j] for the [j]-th model
    (groups keyed by names, or more models than groups), with
    [IndexError] when group [j] lists a column that [X] does not have.
    The models of the groups before [j] have been fitted by then and
    stay so. *)
Theorem fit_raises_at_first_bad_group (est : E) arg k grp (lo : Y → Pred → F)
    sp rs (ent : R) c (h : gmap loc (pyobj Mo)) X (y : Y) j e :
  __init__ est arg k grp lo sp rs 1 ent = inr c →
  models_given h arg →
  j < match arg with Single _ => fit_nb_groups c X | Multi ls => length ls end →
  (∀ i, i < j → fit_task_error (fit_groups c X) X i = None) →
  fit_task_error (fit_groups c X) X j = Some e →
  ∃ w',
    fit X y (mkWorld c h) = (inl e, w') ∧
    ∀ i l, i < j → list_imputation_mod (self w') !! i = Some l →
           ∃ m, heap w' !! l = Some (Estimator m) ∧ im_is_fitted m = true.
Proof.
  intros Hinit Hgiven Hj Hbefore He.
  pose proof (init_inv _ _ _ _ _ _ _ _ _ _ Hinit) as [_ Hc].
  assert (list_imputation_mod c
          = match arg with Multi ls => ls | Single _ => [] end) as Hlc
    by (by rewrite Hc).
  assert (imputation_model c = arg) as Hac by (by rewrite Hc).
  clear Hc. set (w := mkWorld c h). unfold fit.
  rewrite (bind_run _ _ _ _ _ (prepare_groups_run X w)).
  assert (∃ ls h1,
            prepare_models (fit_prepared w X)
              = (inr tt, mkWorld (set_list_imputation_mod ls
                                    (self (fit_prepared w X))) h1) ∧
            j < length ls ∧
            ∀ l, l ∈ ls → ∃ m, h1 !! l = Some (Estimator m))
    as (ls & h1 & Hpm & Hlen & Hest).
  { destruct arg as [l0|ls].
    - destruct Hgiven as [m0 Hm0].
      destruct (prepare_models_single (fit_prepared w X) l0 m0
                  (fit_nb_groups c X) Hlc eq_refl Hac Hm0)
        as (ls & h1 & Hpm & Hlen & _ & Hin & _).
      exists ls, h1. split_and!; [done|lia|].
      intros l Hl. exists (im_clone m0). by apply Hin.
    - exists ls, h. split_and!; [|done|done].
      rewrite prepare_models_list.
      + rewrite <- Hlc at 1.
        change (list_imputation_mod c)
          with (list_imputation_mod (self (fit_prepared w X))).
        by rewrite set_list_imputation_mod_same.
      + rewrite fit_prepared_list. simpl. rewrite Hlc.
        intros ->. simpl in Hj. lia. }
  rewrite (bind_run _ _ _ _ _ Hpm).
  destruct (fit_tasks_raise X y
              (mkWorld (set_list_imputation_mod ls (self (fit_prepared w X))) h1)
              (fit_groups c X) ls j e) as (h' & Hrun & Hfitted); try done.
  eexists. split; [exact Hrun|]. done.
Qed.

Lemma predict_tasks uninit X (y : option Y) w :
  list_imputation_mod (self w) ≠ [] → models_fitted w →
  predict uninit X y w =
    for_enumerate (λ j l, joblib_predict_one_gp uninit l X j) 0
      (list_imputation_mod (self w)) w.
Proof.
  intros Hne Hall. unfold predict.
  by rewrite (bind_run _ _ _ _ _ (check_imputation_models_ok w Hne Hall)).
Qed.

Lemma score_raises_with_predict uninit X (y : Y) w e w' :
  est_is_fitted (estimator (self w)) = true →
  list_imputation_mod (self w) ≠ [] → models_fitted w →
  predict uninit X (Some y) w = (inl e, w') →
  score uninit X y w = (inl e, w').
Proof.
  intros Hest Hne Hall Hpred. unfold score.
  unfold get_self at 1, bind at 1. unfold check_is_fitted_estimator.
  rewrite Hest. unfold lift at 1, bind at 1.
  rewrite (bind_run _ _ _ _ _ (check_imputation_models_ok w Hne Hall)).
  unfold get_self at 1, bind at 1.
  by rewrite (bind_raise _ _ _ _ _ Hpred).
Qed.

Lemma joblib_predict_one_gp_raise uninit l X j w m e :
  heap w !! l = Some (Estimator m) →
  predict_task_error (self w) X j m = Some e →
  joblib_predict_one_gp uninit l X j w = (inl e, w).
Proof.
  intros Hl He. unfold predict_task_error in He.
  cbv [joblib_predict_one_gp bind lookup_group get_self lift estimator_predict
       ret raise take_cols np_delete_cols].
  destruct (groups (self w)) as [g|] eqn:Hg; [|by simplify_eq].
  cbv beta iota.
  destruct (g !! (inl j : group_key)) as [ids|] eqn:Hj; [|by simplify_eq].
  cbv beta iota.
  destruct (in_range (n_cols X) ids) eqn:Hr; [|by simplify_eq].
  cbv beta iota. repeat first [step Hg | step Hj | step Hr | step Hl].
  unfold reshape. rewrite n_rows_cols. cbn [n_cols cols].
  destruct (_ =? _); by simplify_eq.
Qed.

(** X4. With [n_jobs=1], where the tasks run one after the other on
    the instance itself, [predict] stops at the first group whose task
    cannot build its arrays: with [TypeError] when [groups] is still [None] (a list of
    fitted models was given and [fit] never called), [KeyError] when
    the group has no entry under its integer, [IndexError] when it
    lists a column that [X] does not have, [ValueError] when the
    prediction of its imputation model cannot be reshaped to the
    group's columns. The tasks before it have drawn their permutations
    by then: the generator is left advanced by [j * n_perm] draws.
    [score] raises the same exception in the same state. *)
Theorem predict_raises_at_first_bad_task uninit X (y : Y) (yo : option Y) w j l m e :
  n_jobs (self w) = 1%Z →
  models_fitted w →
  (∀ i l', i < j → list_imputation_mod (self w) !! i = Some l' →
           group_ready w X i l') →
  list_imputation_mod (self w) !! j = Some l →
  heap w !! l = Some (Estimator m) →
  predict_task_error (self w) X j m = Some e →
  ∃ w',
    w' = with_rng (rng_after (j * n_perm (self w)) (n_rows X) (rng (self w))) w ∧
    predict uninit X yo w = (inl e, w') ∧
    (est_is_fitted (estimator (self w)) = true →
     score uninit X y w = (inl e, w')).
Proof.
  intros _ Hall Hbefore Hl Hm He.
  set (ls := list_imputation_mod (self w)) in *.
  assert (ls ≠ []) as Hne by (intros Hnil; by rewrite Hnil in Hl).
  assert (j < length ls) as Hj by (by eapply lookup_lt_Some).
  destruct (predict_loop uninit X (take j ls) 0 w) as (designs & Hrun & _).
  { intros i l' Hl'. apply lookup_take_Some in Hl' as [Hl' Hi].
    by apply Hbefore. }
  rewrite length_take_le in Hrun by lia.
  set (w' := with_rng _ w) in Hrun.
  assert (∀ yo', predict uninit X yo' w = (inl e, w')) as Hpred.
  { intros yo'. rewrite predict_tasks by done. fold ls.
    rewrite <- (take_drop_middle ls j l Hl).
    apply (for_enumerate_raise
             (λ j l, joblib_predict_one_gp uninit l X j) _ _ _ 0 w _ _ e _ Hrun).
    rewrite length_take_le by lia.
    by apply (joblib_predict_one_gp_raise _ _ _ _ _ m). }
  exists w'. split_and!; [done|apply Hpred|].
  intros Hest. by apply score_raises_with_predict.
Qed.

(** ** Fewer models than groups *)

Lemma rmapM_raise {A B} (f : A → result B) l1 x l2 e :
  (∀ a, a ∈ l1 → ∃ b, f a = inr b) → f x = inl e →
  rmapM f (l1 ++ x :: l2) = inl e.
Proof.
  intros Hok Hx. induction l1 as [|a l1 IH]; simpl.
  - by rewrite Hx.
  - destruct (Hok a) as [b ->]; [by left|]. simpl.
    rewrite IH; [done|]. intros a' Ha'. apply Hok. by right.
Qed.

Lemma collect_scores_short (lo : Y → Pred → F) (y : Y) (ref : F)
    (outs : list (list Pred)) nb :
  length outs < nb → collect_scores lo y ref outs nb = inl KeyError.
Proof.
  intros Hlen. unfold collect_scores.
  replace nb with (length outs + S (nb - S (length outs))) by lia.
  rewrite seq_app. cbn [seq].
  rewrite (rmapM_raise _ _ _ _ KeyError); [done| |].
  - intros j Hj%elem_of_seq. rewrite fill_loss_perm_lookup.
    destruct (lookup_lt_is_Some_2 outs j) as [preds ->]; [lia|]. simpl. eauto.
  - rewrite fill_loss_perm_lookup, lookup_ge_None_2; [done|]. simpl. lia.
Qed.

(** A list of different objects, fitted by [fit] on groups whose
    columns are there, is ready for [predict] on the same [X]. *)
Lemma fit_list_ready X (y : Y) w ls :
  list_imputation_mod (self w) = ls → ls ≠ [] → NoDup ls →
  (∀ i l, ls !! i = Some l →
     group_fittable (fit_groups (self w) X) X i ∧
     ∃ m, heap w !! l = Some (Estimator m)) →
  imputer_shapes →
  ∃ h', fit X y w = (inr tt, mkWorld (self (fit_prepared w X)) h') ∧
        models_ready (mkWorld (self (fit_prepared w X)) h') X.
Proof.
  intros Hls Hne Hnd Hok Hshapes.
  destruct (fit_list_run X y w ls Hls (or_introl Hne) Hnd Hok)
    as (h' & Hrun & _ & _ & Hfit).
  exists h'. split; [done|]. split.
  - cbn [self heap]. by rewrite fit_prepared_list, Hls.
  - cbn [self heap]. rewrite fit_prepared_list, Hls. intros j l Hl.
    destruct (Hok j l Hl) as [(ids & Hids & Hr) [m Hm]].
    exists (fit_groups (self w) X), ids,
      (im_fit m (without_cols ids X) (cols ids X)), (without_cols ids X).
    split_and!; try done.
    + by apply np_delete_cols_in_range.
    + cbn [heap]. eapply Hfit; try done.
      * by apply take_cols_in_range.
      * by apply np_delete_cols_in_range.
    + apply im_fit_fitted.
    + rewrite Hshapes, n_rows_without_cols. done.
Qed.

(** X5. The length of a list of imputation models is not checked
    against the number of groups. With fewer models than groups [fit]
    returns, having fitted one model for each of the first groups;
    [score] then computes the predictions of those groups and raises
    [KeyError] on the first group without a model. *)
Theorem score_fewer_models_than_groups (est : E) ls k grp (lo : Y → Pred → F)
    sp rs nj (ent : R) c (h : gmap loc (pyobj Mo)) uninit X (y : Y) :
  __init__ est (Multi ls) k grp lo sp rs nj ent = inr c →
  ls ≠ [] → NoDup ls → models_given h (Multi ls) →
  length ls < fit_nb_groups c X →
  (∀ j, j < length ls → group_fittable (fit_groups c X) X j) →
  imputer_shapes →
  ∃ w1 outs w2,
    fit X y (mkWorld c h) = (inr tt, w1) ∧
    list_imputation_mod (self w1) = ls ∧
    nb_groups (self w1) = Some (fit_nb_groups c X) ∧
    predict uninit X (Some y) w1 = (inr outs, w2) ∧
    length outs = length ls ∧
    score uninit X y w1 = (inl KeyError, w2).
Proof.
  intros Hinit Hne Hnd Hgiven Hshort Hgroups Hshapes.
  pose proof (init_inv _ _ _ _ _ _ _ _ _ _ Hinit) as [Hest Hc].
  assert (list_imputation_mod c = ls) as Hlc by (by rewrite Hc).
  assert (estimator c = est) as Hec by (by rewrite Hc).
  clear Hc. set (w := mkWorld c h).
  destruct (fit_list_ready X y w ls Hlc Hne Hnd) as (h' & Hfit & Hready); [|done|].
  { intros i l Hl. split.
    - apply Hgroups. by eapply lookup_lt_Some.
    - apply Hgiven. by eapply list_elem_of_lookup_2. }
  set (w1 := mkWorld (self (fit_prepared w X)) h') in *.
  assert (list_imputation_mod (self w1) = ls) as Hl1 by done.
  destruct (predict_run uninit X (Some y) w1 Hready) as (designs & Hp & HlD & _).
  rewrite Hl1 in HlD.
  eexists w1, _, _. split_and!; [done|done|done|exact Hp| |].
  { by rewrite length_fmap. }
  rewrite (score_run uninit X y w1 _ _ (fit_nb_groups c X)
             ltac:(by cbn; rewrite Hec) (proj1 Hready)
             (models_ready_fitted w1 X Hready) Hp eq_refl eq_refl).
  rewrite collect_scores_short; [done|]. by rewrite length_fmap, HlD.
Qed.

(** ** No group at all *)

Lemma check_imputation_models_empty w :
  list_imputation_mod (self w) = [] →
  check_imputation_models w = (inl ValueError, w).
Proof.
  intros Hls. cbv [check_imputation_models bind get_self raise]. by rewrite Hls.
Qed.

(** X6. With no group to work on (an [X] without columns and the
    default groups, or an empty dictionary of groups) [fit] on an
    instance built from a single model returns without cloning
    anything: the list of models stays empty, and [predict] and [score]
    raise the [ValueError] of a missing fit although [fit] was called. *)
Theorem fit_without_groups_leaves_no_model (est : E) arg k grp
    (lo : Y → Pred → F) sp rs nj (ent : R) c (h : gmap loc (pyobj Mo))
    uninit X (y : Y) :
  __init__ est arg k grp lo sp rs nj ent = inr c →
  list_imputation_mod c = [] →
  fit_nb_groups c X = 0 →
  ∃ w',
    fit X y (mkWorld c h) = (inr tt, w') ∧
    heap w' = h ∧ list_imputation_mod (self w') = [] ∧
    nb_groups (self w') = Some 0 ∧
    predict uninit X (Some y) w' = (inl ValueError, w') ∧
    score uninit X y w' = (inl ValueError, w').
Proof.
  intros Hinit Hlc Hnb.
  pose proof (init_inv _ _ _ _ _ _ _ _ _ _ Hinit) as [Hest Hc].
  assert (estimator c = est) as Hec by (by rewrite Hc).
  clear Hc. set (w := mkWorld c h).
  destruct (fit_list_run X y w [] Hlc (or_intror Hnb)) as (h' & Hfit & _ & Hsame & _).
  { constructor. }
  { intros i l Hl. by rewrite lookup_nil in Hl. }
  assert (h' = h) as ->.
  { apply map_eq. intros l. apply Hsame, not_elem_of_nil. }
  set (w' := mkWorld (self (fit_prepared w X)) h) in *.
  assert (list_imputation_mod (self w') = []) as Hl' by done.
  exists w'. split_and!; try done.
  - cbn. by rewrite Hnb.
  - unfold predict. by rewrite (bind_raise _ _ _ _ _ (check_imputation_models_empty w' Hl')).
  - unfold score. unfold get_self at 1, bind at 1. unfold check_is_fitted_estimator.
    change (estimator (self w')) with (estimator c). rewrite Hec, Hest.
    unfold lift at 1, bind at 1.
    by rewrite (bind_raise _ _ _ _ _ (check_imputation_models_empty w' Hl')).
Qed.

(** ** Calling [fit] again *)

Lemma size_fit_groups c X : size (fit_groups c X) = fit_nb_groups c X.
Proof.
  unfold fit_groups, fit_nb_groups. destruct (groups c); [done|].
  apply singleton_groups_size.
Qed.

Lemma fit_with_list_frame X (y : Y) w :
  list_imputation_mod (self w) ≠ [] →
  ∃ r h', fit X y w = (r, mkWorld (self (fit_prepared w X)) h') ∧
          dom h' = dom (heap w).
Proof.
  intros Hne. unfold fit.
  rewrite (bind_run _ _ _ _ _ (prepare_groups_run X w)).
  rewrite (bind_run _ _ _ _ _ (prepare_models_list (fit_prepared w X) Hne)).
  destruct (fit_imputation_models_frame X y (fit_prepared w X))
    as (r & h' & Hrun & Hdom & _).
  by exists r, h'.
Qed.

(** X7. With [n_jobs=1], where the tasks return the models they were
    given, the groups are settled by the first call of [fit]: a later
    call, on whatever [X'], finds [groups] set and keeps the dictionary
    and the number of groups of the first call (the default groups are
    the columns of the first [X]). Nor does a later call clone again:
    when the first call left a list of models, the later one works on
    those very objects and creates none. *)
Theorem fit_again_keeps_groups_and_models X (y : Y) X' (y' : Y) w :
  n_jobs (self w) = 1%Z →
  ∃ r1 w1 r2 w2,
    fit X y w = (r1, w1) ∧ fit X' y' w1 = (r2, w2) ∧
    groups (self w1) = Some (fit_groups (self w) X) ∧
    groups (self w2) = groups (self w1) ∧
    nb_groups (self w2) = nb_groups (self w1) ∧
    (list_imputation_mod (self w1) ≠ [] →
     list_imputation_mod (self w2) = list_imputation_mod (self w1) ∧
     dom (heap w2) = dom (heap w1)).
Proof.
  intros _.
  destruct (fit X y w) as [r1 w1] eqn:Hfit1.
  destruct (fit X' y' w1) as [r2 w2] eqn:Hfit2.
  destruct (fit_groups_kept X y w) as [Hg1 Hnb1]. rewrite Hfit1 in Hg1, Hnb1.
  destruct (fit_groups_kept X' y' w1) as [Hg2 Hnb2]. rewrite Hfit2 in Hg2, Hnb2.
  cbn [snd] in *.
  assert (fit_groups (self w1) X' = fit_groups (self w) X) as Hsame.
  { unfold fit_groups at 1. by rewrite Hg1. }
  exists r1, w1, r2, w2. split_and!; try done.
  - by rewrite Hg2, Hsame.
  - rewrite Hnb2, Hnb1, <- !size_fit_groups. by rewrite Hsame.
  - intros Hne. destruct (fit_with_list_frame X' y' w1 Hne) as (r & h' & Hrun & Hdom).
    rewrite Hfit2 in Hrun. by simplify_eq.
Qed.

(** ** The memory of the new arrays *)

Lemma bind_congr {A B} (m m' : M F Pred Y E Mo R A)
    (f f' : A → M F Pred Y E Mo R B) w :
  m w = m' w → (∀ a w', m w = (inr a, w') → f a w' = f' a w') →
  bind m f w = bind m' f' w.
Proof.
  intros Hm Hf. unfold bind. rewrite <- Hm.
  destruct (m w) as [[e|a] w']; [done|]. by apply Hf.
Qed.

Lemma predict_memory_irrelevant uninit uninit' X (yo : option Y) w :
  models_ready w X → wf_matrix X →
  predict uninit X yo w = predict uninit' X yo w.
Proof.
  intros Hready Hwf.
  destruct (predict_run uninit X yo w Hready) as (D1 & Hp1 & HlD1 & Hrows1).
  destruct (predict_run uninit' X yo w Hready) as (D2 & Hp2 & HlD2 & Hrows2).
  rewrite Hp1, Hp2. do 3 f_equal.
  apply list_eq. intros j.
  destruct (decide (j < length (list_imputation_mod (self w)))) as [Hj|Hj].
  - destruct (lookup_lt_is_Some_2 _ j Hj) as [l Hl].
    destruct (proj2 Hready j l Hl) as (g & ids & m & X_mj & Hg & Hids & HXmj & Hm & _ & Hsz).
    apply np_delete_cols_inv in HXmj as [Hr ->].
    rewrite (Hrows1 j l g ids m Hl Hg Hids Hm), (Hrows2 j l g ids m Hl Hg Hids Hm).
    f_equal. apply Forall_fmap_ext_1, Forall_forall. intros idx Hidx%draws_perm.
    by apply perturbed_memory_irrelevant.
  - rewrite !lookup_ge_None_2; [done|lia|lia].
Qed.

(** X8. What [np.empty_like] finds in memory never reaches the
    predictive model: every entry of the new array is overwritten
    before the model sees it, so that [predict] and [score] return the
    same, and leave the same state, whatever the new arrays hold when
    they are allocated. *)
Theorem predict_ignores_uninitialised_memory uninit uninit' X (y : Y)
    (yo : option Y) w :
  models_ready w X → wf_matrix X →
  predict uninit X yo w = predict uninit' X yo w ∧
  score uninit X y w = score uninit' X y w.
Proof.
  intros Hready Hwf. split; [by apply predict_memory_irrelevant|].
  unfold score.
  apply bind_congr; [done|]. intros c w1 [= <- <-].
  apply bind_congr; [done|]. intros u w1 Hchk.
  assert (w1 = w) as Hw by (unfold lift in Hchk; by simplify_eq).
  subst w1. clear u Hchk.
  apply bind_congr; [done|]. intros u w1 Hchk.
  assert (w1 = w) as Hw.
  { destruct (check_imputation_models_state w) as [r Hr]. congruence. }
  subst w1. clear u Hchk.
  apply bind_congr; [done|]. intros c w1 [= <- <-].
  apply bind_congr; [|done]. by apply predict_memory_irrelevant.
Qed.

(** ** Calling [predict] again *)

(** X9. With [n_jobs=1], where the tasks draw from the generator of
    the instance itself, a second call of [predict] does not start
    over: the generator
    is seeded once, by the constructor, and the second call draws on
    from where the first one stopped. Its task for group [j] uses the
    draws that follow the first [(len + j) * n_perm] of the generator,
    [len] being the number of models, and the two calls leave the
    generator advanced by [2 * len * n_perm] draws. *)
Theorem predict_again_continues_generator uninit X (yo : option Y) w :
  n_jobs (self w) = 1%Z →
  models_ready w X →
  ∃ outs1 w1 outs2 w2,
    predict uninit X yo w = (inr outs1, w1) ∧
    predict uninit X yo w1 = (inr outs2, w2) ∧
    w2 = with_rng (rng_after (2 * (length (list_imputation_mod (self w))
                                   * n_perm (self w)))
                     (n_rows X) (rng (self w))) w ∧
    ∀ j l g ids m,
      list_imputation_mod (self w) !! j = Some l →
      groups (self w) = Some g → g !! (inl j : group_key) = Some ids →
      heap w !! l = Some (Estimator m) →
      outs2 !! j =
        Some ((λ idx, estimator_output (self w) (perturbed uninit X ids m idx))
                <$> (draws (n_perm (self w)) (n_rows X)
                       (rng_after ((length (list_imputation_mod (self w)) + j)
                                   * n_perm (self w))
                          (n_rows X) (rng (self w)))).1).
Proof.
  intros _ Hready.
  destruct (predict_run uninit X yo w Hready) as (D1 & Hp1 & HlD1 & Hrows1).
  set (len := length (list_imputation_mod (self w))) in *.
  set (r1 := rng_after (len * n_perm (self w)) (n_rows X) (rng (self w))) in *.
  assert (models_ready (with_rng r1 w) X) as Hready1.
  { destruct Hready as [Hne Hall]. split; [done|].
    intros j l Hl. apply group_ready_with_rng. by apply Hall. }
  destruct (predict_run uninit X yo (with_rng r1 w) Hready1)
    as (D2 & Hp2 & HlD2 & Hrows2).
  cbn [with_rng self heap set_rng list_imputation_mod n_perm rng groups] in Hp2, HlD2, Hrows2.
  fold len in Hp2, HlD2.
  eexists _, _, _, _. split_and!; [exact Hp1|exact Hp2| |].
  - rewrite with_rng_with_rng. unfold r1. rewrite <- rng_after_add.
    do 2 f_equal. lia.
  - intros j l g ids m Hl Hg Hids Hm.
    rewrite list_lookup_fmap, (Hrows2 j l g ids m Hl Hg Hids Hm). simpl.
    rewrite <- list_fmap_compose. unfold r1. rewrite <- rng_after_add.
    rewrite Nat.mul_add_distr_r. done.
Qed.

(** ** One object for several groups *)

Lemma fit_loop_last X (y : Y) g ls : ∀ j w,
  groups (self w) = Some g →
  (∀ i l, ls !! i = Some l →
     group_fittable g X (j + i) ∧ ∃ m, heap w !! l = Some (Estimator m)) →
  ∃ h', for_enumerate (λ j e, joblib_fit_one_gp e X y j) j ls w
          = (inr ls, mkWorld (self w) h') ∧
        (∀ l, l ∉ ls → h' !! l = heap w !! l) ∧
        ∀ i l ids,
          ls !! i = Some l → (∀ i', i < i' → ls !! i' ≠ Some l) →
          g !! (inl (j + i) : group_key) = Some ids →
          ∃ m', h' !! l =
                  Some (Estimator (im_fit m' (without_cols ids X) (cols ids X))).
Proof.
  induction ls as [|l ls IH]; intros j w Hg Hok.
  - exists (heap w). simpl. unfold ret. split; [by destruct w|].
    split; [done|]. intros i l ids Hl. by rewrite lookup_nil in Hl.
  - destruct (Hok 0 l eq_refl) as [(ids & Hids & Hr) [m Hm]].
    rewrite Nat.add_0_r in Hids.
    pose proof (take_cols_in_range _ _ Hr) as HXj.
    pose proof (np_delete_cols_in_range _ _ Hr) as HXmj.
    set (w1 := mkWorld (self w)
                 (<[l := Estimator (im_fit m (without_cols ids X) (cols ids X))]>
                    (heap w))).
    destruct (IH (S j) w1) as (h' & Hrun & Hother & Hlast); [done| |].
    { intros i l' Hl'. destruct (Hok (S i) l' Hl') as [Hgf [m' Hm']].
      split; [by replace (S j + i) with (j + S i) by lia|].
      simpl. destruct (decide (l' = l)) as [->|Hne].
      - rewrite lookup_insert_eq. eauto.
      - rewrite lookup_insert_ne by done. eauto. }
    exists h'. split_and!.
    + simpl.
      rewrite (bind_run _ _ _ _ _
                 (joblib_fit_one_gp_run l X y j w g ids m _ _ Hg Hids HXj HXmj Hm)).
      by rewrite (bind_run _ _ _ _ _ Hrun).
    + intros l' [Hne Hl']%not_elem_of_cons.
      rewrite Hother by done. simpl. by rewrite lookup_insert_ne.
    + intros [|i] l' ids' Hl' Hafter Hids'; simplify_eq/=.
      * rewrite Nat.add_0_r in Hids'. assert (ids' = ids) as -> by congruence.
        exists m. rewrite Hother.
        -- simpl. by rewrite lookup_insert_eq.
        -- intros [i Hi]%list_elem_of_lookup_1. apply (Hafter (S i)); [lia|done].
      * apply (Hlast i l' ids' Hl').
        -- intros i' Hi'. apply (Hafter (S i')). lia.
        -- by rewrite Nat.add_succ_r in Hids'.
Qed.

(** X10. With [n_jobs=1], the models of a list are fitted in place,
    one task after the other, so that an object listed for several groups is fitted
    several times and keeps the last fit only. After [fit], the model
    that [predict] will use for a group [i] is the one fitted on the
    columns of the last group [j] that has the same object in the list. *)
Theorem fit_shared_model_keeps_last_fit X (y : Y) w ls :
  n_jobs (self w) = 1%Z →
  list_imputation_mod (self w) = ls → ls ≠ [] →
  (∀ i l, ls !! i = Some l →
     group_fittable (fit_groups (self w) X) X i ∧
     ∃ m, heap w !! l = Some (Estimator m)) →
  ∃ w',
    fit X y w = (inr tt, w') ∧ list_imputation_mod (self w') = ls ∧
    ∀ i j l ids,
      ls !! i = Some l → ls !! j = Some l →
      (∀ j', j < j' → ls !! j' ≠ Some l) →
      fit_groups (self w) X !! (inl j : group_key) = Some ids →
      ∃ m', heap w' !! l =
              Some (Estimator (im_fit m' (without_cols ids X) (cols ids X))).
Proof.
  intros _ Hls Hne Hok.
  destruct (fit_loop_last X y (fit_groups (self w) X) ls 0 (fit_prepared w X))
    as (h' & Hrun & _ & Hlast); [done|done|].
  exists (mkWorld (self (fit_prepared w X)) h'). split_and!.
  - unfold fit. rewrite (bind_run _ _ _ _ _ (prepare_groups_run X w)).
    rewrite (bind_run _ _ _ _ _ (prepare_models_list (fit_prepared w X)
                                   ltac:(by rewrite fit_prepared_list, Hls))).
    cbv [fit_imputation_models bind get_self update_self Parallel].
    rewrite fit_prepared_list, Hls, Hrun. cbn [self heap].
    rewrite <- Hls at 1. rewrite <- (fit_prepared_list w X).
    by rewrite set_list_imputation_mod_same.
  - by rewrite <- Hls.
  - intros i j l ids _ Hl Hafter Hids. by apply (Hlast j l ids).
Qed.

(** ** An empty list of models *)

Lemma clone_empty_list_loop : ∀ n w,
  ∃ ls h', (repeatM n (clone (Multi [])) w = (inr ls, mkWorld (self w) h')) ∧
           length ls = n ∧
           (∀ l, l ∈ ls → (l ∉ dom (heap w)) ∧ h' !! l = Some NotEstimator) ∧
           (∀ l, l ∉ ls → h' !! l = heap w !! l).
Proof.
  induction n as [|n IH]; intros w.
  - exists [], (heap w). simpl. unfold ret. destruct w.
    split_and!; try done. by intros l ?%elem_of_nil.
  - set (l1 := fresh (dom (heap w))).
    assert (l1 ∉ dom (heap w)) as Hfresh by apply is_fresh.
    set (w1 := mkWorld (self w) (<[l1 := NotEstimator]> (heap w))).
    destruct (IH w1) as (ls & h' & Hrun & Hlen & Hin & Hout).
    assert (l1 ∉ ls) as Hl1.
    { intros [Hd _]%Hin. apply Hd. simpl. rewrite dom_insert_L.
      by apply elem_of_union_l, elem_of_singleton. }
    exists (l1 :: ls), h'. split_and!.
    + assert (clone (Multi []) w = (inr l1, w1)) as Hclone by done.
      simpl. by rewrite (bind_run _ _ _ _ _ Hclone), (bind_run _ _ _ _ _ Hrun).
    + simpl. by rewrite Hlen.
    + intros l [->|Hl]%elem_of_cons.
      * split; [done|]. rewrite Hout by done. simpl. by rewrite lookup_insert_eq.
      * destruct (Hin l Hl) as [Hd Hh]. split; [|done].
        intros Hd'. apply Hd. simpl. rewrite dom_insert_L.
        by apply elem_of_union_r.
    + intros l [Hne' Hl]%not_elem_of_cons. rewrite Hout by done. simpl.
      by rewrite lookup_insert_ne.
Qed.

(** X17. An empty list of imputation models is taken for a single
    model: [fit] finds no model in the list, clones the empty list once
    per group, and raises [AttributeError] when it calls [fit] on the
    first clone. The list of models then holds the clones, one new
    object per group, none of them an estimator. *)
Theorem fit_empty_list_of_models_raises (est : E) k grp (lo : Y → Pred → F)
    sp rs nj (ent : R) c (h : gmap loc (pyobj Mo)) X (y : Y) :
  __init__ est (Multi []) k grp lo sp rs nj ent = inr c →
  0 < fit_nb_groups c X →
  fit_task_error (fit_groups c X) X 0 = None →
  ∃ w',
    fit X y (mkWorld c h) = (inl AttributeError, w') ∧
    length (list_imputation_mod (self w')) = fit_nb_groups c X ∧
    (∀ l, l ∈ list_imputation_mod (self w') →
          (l ∉ dom h) ∧ heap w' !! l = Some NotEstimator) ∧
    (∀ l, l ∈ dom h → heap w' !! l = h !! l).
Proof.
  intros Hinit Hpos Hgroup.
  pose proof (init_inv _ _ _ _ _ _ _ _ _ _ Hinit) as [_ Hc].
  assert (list_imputation_mod c = []) as Hlc by (by rewrite Hc).
  assert (imputation_model c = Multi []) as Hac by (by rewrite Hc).
  clear Hc. set (w := mkWorld c h).
  destruct (clone_empty_list_loop (fit_nb_groups c X) (fit_prepared w X))
    as (ls & h' & Hclones & Hlen & Hin & Hout).
  set (w2 := mkWorld (set_list_imputation_mod ls (self (fit_prepared w X))) h').
  assert (prepare_models (fit_prepared w X) = (inr tt, w2)) as Hpm.
  { cbv [prepare_models bind get_self get_nb_groups ret update_self].
    change (list_imputation_mod (self (fit_prepared w X)))
      with (list_imputation_mod c).
    rewrite Hlc. cbn [length Nat.eqb].
    change (nb_groups (self (fit_prepared w X))) with (Some (fit_nb_groups c X)).
    cbv beta iota.
    change (imputation_model (self (fit_prepared w X))) with (imputation_model c).
    rewrite Hac. by step Hclones. }
  destruct ls as [|l0 ls]; [simpl in Hlen; lia|].
  apply fit_task_error_None in Hgroup as (ids & Hids & Hr).
  assert (groups (self w2) = Some (fit_groups c X)) as Hg2 by done.
  assert (heap w2 !! l0 = Some NotEstimator) as Hl0.
  { apply Hin. by left. }
  assert (joblib_fit_one_gp l0 X y 0 w2 = (inl AttributeError, w2)) as Htask.
  { cbv [joblib_fit_one_gp bind lookup_group get_self lift estimator_fit ret raise
         take_cols np_delete_cols].
    by repeat first [step Hg2 | step Hids | step Hr | step Hl0]. }
  exists w2. split_and!.
  - unfold fit. rewrite (bind_run _ _ _ _ _ (prepare_groups_run X w)).
    rewrite (bind_run _ _ _ _ _ Hpm).
    cbv [fit_imputation_models Parallel]. unfold get_self at 1, bind at 1.
    change (list_imputation_mod (self w2)) with (l0 :: ls).
    cbn [for_enumerate]. unfold bind at 1.
    by rewrite (bind_raise _ _ _ _ _ Htask).
  - done.
  - intros l Hl. by apply Hin.
  - intros l Hl. change (heap w2) with h'. rewrite Hout; [done|].
    intros [Hd _]%Hin. by apply Hd.
Qed.
End behaviour_facts.

(** * The DNN learner *)

Section ndarray_facts.
Context {F : Type}.
Implicit Types (a X : ndarray F) (s : list nat) (d : list F).

Lemma size_of_squeeze s : size_of (filter (λ n, n ≠ 1) s) = size_of s.
Proof.
  induction s as [|n s IH]; [done|]. rewrite filter_cons.
  case_decide as Hn; simpl; [by rewrite IH|].
  assert (n = 1) as -> by lia. lia.
Qed.

Lemma wf_nd_squeeze a : wf_nd a → wf_nd (np_squeeze a).
Proof. unfold wf_nd, np_squeeze. simpl. by rewrite size_of_squeeze. Qed.

Lemma drop_join_replicate d i j :
  drop (i * length d) (mjoin (replicate (i + j) d)) = mjoin (replicate j d).
Proof.
  induction i as [|i IH]; [done|]. simpl. by rewrite drop_app_add.
Qed.

Lemma index_first_repeat k a i :
  wf_nd a →
  index_first i (np_array_repeat k a) =
    if decide (i < k) then inr a else inl IndexError.
Proof.
  intros Hwf. unfold wf_nd in Hwf. destruct k as [|k].
  - destruct (decide (i < 0)); [lia|done].
  - unfold index_first. cbn [np_array_repeat shape data].
    case_decide as Hi.
    + rewrite (proj2 (Nat.ltb_lt _ _) Hi). f_equal.
      destruct a as [s d]. cbn [shape data] in *. f_equal. rewrite <- Hwf.
      replace (S k) with (i + S (k - i)) by lia.
      rewrite drop_join_replicate. simpl. by rewrite take_app_length.
    + by rewrite (proj2 (Nat.ltb_ge _ _)) by lia.
Qed.
End ndarray_facts.

Section learner_facts.
Context {F V Est Pr XT : Type} `{!Dnn.SingleLearner F V Est Pr XT}.
Implicit Types (self : Dnn.Dnn_learner V Est Pr XT) (X : ndarray F).

(** Whether [check_X_dim] and [fit] keep [X] as it is, for [k] copies. *)
Lemma check_X_dim_kept self X :
  length (shape X) = 3 → hd 0 (shape X) = Dnn.dim_repeat self →
  Dnn.check_X_dim self X = X.
Proof.
  intros H3 Hk. unfold Dnn.check_X_dim.
  rewrite H3, Hk, !Nat.eqb_refl. done.
Qed.

Lemma check_X_dim_repeated self X :
  length (shape X) ≠ 3 ∨ hd 0 (shape X) ≠ Dnn.dim_repeat self →
  Dnn.check_X_dim self X = np_array_repeat (Dnn.dim_repeat self) (np_squeeze X).
Proof.
  intros Hne. unfold Dnn.check_X_dim.
  destruct (length (shape X) =? 3) eqn:H3; [|done]. simpl.
  destruct (hd 0 (shape X) =? Dnn.dim_repeat self) eqn:Hk; [|done].
  apply Nat.eqb_eq in H3, Hk. by destruct Hne.
Qed.

(** X11. [check_X_dim] returns an array with three axes whose first
    axis has the length [dim_repeat] as it is. Any other array is
    squeezed and copied [dim_repeat] times: below [dim_repeat], every
    index of the first axis of the result holds the squeezed array,
    which is what the estimator of that index is handed, and any other
    index is out of bounds. *)
Theorem check_X_dim_slices self X :
  wf_nd X →
  (length (shape X) = 3 ∧ hd 0 (shape X) = Dnn.dim_repeat self ∧
   Dnn.check_X_dim self X = X) ∨
  ((length (shape X) ≠ 3 ∨ hd 0 (shape X) ≠ Dnn.dim_repeat self) ∧
   ∀ i, index_first i (Dnn.check_X_dim self X) =
        if decide (i < Dnn.dim_repeat self) then inr (np_squeeze X)
        else inl IndexError).
Proof.
  intros Hwf.
  destruct (decide (length (shape X) = 3)) as [H3|H3];
    [destruct (decide (hd 0 (shape X) = Dnn.dim_repeat self)) as [Hk|Hk]|].
  - left. split_and!; [done|done|by apply check_X_dim_kept].
  - right. split; [by right|]. intros i.
    rewrite check_X_dim_repeated by (by right).
    by apply index_first_repeat, wf_nd_squeeze.
  - right. split; [by left|]. intros i.
    rewrite check_X_dim_repeated by (by left).
    by apply index_first_repeat, wf_nd_squeeze.
Qed.

(** X12. On a matrix with [n] rows and [p] columns, neither of them
    one, [check_X_dim] returns the array of shape [(dim_repeat, n, p)],
    and a second call changes nothing. *)
Theorem check_X_dim_matrix_stable self n p (d : list F) :
  n ≠ 1 → p ≠ 1 → 0 < Dnn.dim_repeat self →
  shape (Dnn.check_X_dim self (mkNd [n; p] d)) = [Dnn.dim_repeat self; n; p] ∧
  Dnn.check_X_dim self (Dnn.check_X_dim self (mkNd [n; p] d))
    = Dnn.check_X_dim self (mkNd [n; p] d).
Proof.
  intros Hn Hp Hk.
  assert (shape (Dnn.check_X_dim self (mkNd [n; p] d))
          = [Dnn.dim_repeat self; n; p]) as Hshape.
  { rewrite check_X_dim_repeated by (left; simpl; lia).
    destruct (Dnn.dim_repeat self) as [|k]; [lia|].
    cbn [np_array_repeat np_squeeze shape]. f_equal.
    rewrite !filter_cons, filter_nil. by repeat case_decide. }
  split; [done|]. apply check_X_dim_kept; by rewrite Hshape.
Qed.

(** ** [fit] *)

Lemma set_list_estimators_same self :
  Dnn.set_list_estimators (Dnn.list_estimators self) self = self.
Proof. by destruct self. Qed.

Lemma fit_reshape_repeated X (ya : ndarray F) k self :
  last (shape ya) = Some k →
  length (shape X) ≠ 3 ∨ hd 0 (shape X) ≠ k →
  Dnn.fit_reshape X (Some ya) self =
    (inr (np_array_repeat k (np_squeeze X)), Dnn.set_dim_repeat k self).
Proof.
  intros Hk Hne. unfold Dnn.fit_reshape, last_dim. rewrite Hk. cbn [rbind].
  destruct (length (shape X) =? 3) eqn:H3; [|done]. cbn [negb].
  destruct (hd 0 (shape X) =? k) eqn:Hhd; [|done].
  apply Nat.eqb_eq in H3, Hhd. by destruct Hne.
Qed.

Lemma fit_reshape_kept X (ya : ndarray F) k self :
  last (shape ya) = Some k → length (shape X) = 3 → hd 0 (shape X) = k →
  Dnn.fit_reshape X (Some ya) self = (inr X, self).
Proof.
  intros Hk H3 Hhd. unfold Dnn.fit_reshape, last_dim.
  rewrite Hk, H3, Hhd. cbn [rbind]. rewrite !Nat.eqb_refl. reflexivity.
Qed.

Lemma fit_column_run X (ya : ndarray F) c self X_c y_c :
  c < length (Dnn.list_estimators self) →
  index_first c X = inr X_c → index_column c ya = inr y_c →
  Dnn.fit_column X (Some ya) c self =
    (inr tt,
     Dnn.set_list_estimators
       (<[c := Some (Dnn.single_fit (Dnn.single_new (Dnn.params self)) X_c y_c)]>
          (Dnn.list_estimators self)) self).
Proof.
  intros Hc HX Hy. unfold Dnn.fit_column.
  rewrite (proj2 (Nat.ltb_lt _ _) Hc). cbn [Dnn.set_list_estimators Dnn.list_estimators].
  rewrite list_lookup_insert_eq by done. rewrite HX, Hy.
  by rewrite list_insert_insert_eq.
Qed.

Lemma fit_columns_run X (ya : ndarray F) (X_at y_at : nat → ndarray F) :
  ∀ ycols self,
    NoDup ycols →
    (∀ c, c ∈ ycols →
       c < length (Dnn.list_estimators self) ∧
       index_first c X = inr (X_at c) ∧ index_column c ya = inr (y_at c)) →
    ∃ l',
      Dnn.fit_columns X (Some ya) ycols self
        = (inr tt, Dnn.set_list_estimators l' self) ∧
      length l' = length (Dnn.list_estimators self) ∧
      (∀ c, c ∈ ycols →
         l' !! c = Some (Some (Dnn.single_fit (Dnn.single_new (Dnn.params self))
                                 (X_at c) (y_at c)))) ∧
      (∀ c, c ∉ ycols → l' !! c = Dnn.list_estimators self !! c).
Proof.
  induction ycols as [|c ycols IH]; intros self Hnd Hok.
  - exists (Dnn.list_estimators self). simpl.
    rewrite set_list_estimators_same. split_and!; try done.
    intros c Hc. by apply elem_of_nil in Hc.
  - apply NoDup_cons in Hnd as [Hc Hnd].
    destruct (Hok c) as (Hlt & HX & Hy); [by left|].
    set (fitted := Dnn.single_fit (Dnn.single_new (Dnn.params self)) (X_at c) (y_at c)).
    set (self1 := Dnn.set_list_estimators
                    (<[c := Some fitted]> (Dnn.list_estimators self)) self).
    destruct (IH self1 Hnd) as (l' & Hrun & Hlen & Hin & Hout).
    { intros c' Hc'. destruct (Hok c') as (Hlt' & HX' & Hy'); [by right|].
      split_and!; try done. simpl. by rewrite length_insert. }
    exists l'. split_and!.
    + simpl. rewrite (fit_column_run X ya c self _ _ Hlt HX Hy).
      fold fitted. fold self1. rewrite Hrun. by destruct self.
    + rewrite Hlen. simpl. by rewrite length_insert.
    + intros c' [->|Hc']%elem_of_cons.
      * rewrite Hout by done. simpl. by rewrite list_lookup_insert_eq.
      * by apply Hin.
    + intros c' [Hne Hc']%not_elem_of_cons. rewrite Hout by done.
      simpl. by rewrite list_lookup_insert_ne.
Qed.

Lemma index_column_matrix n k (dy : list F) c :
  c < k → ∃ y_c, index_column c (mkNd [n; k] dy) = inr y_c ∧ shape y_c = [n; 1].
Proof.
  intros Hc. unfold index_column. cbn [shape].
  rewrite (proj2 (Nat.ltb_lt _ _) Hc). eauto.
Qed.

(** The part of [fit] after the array is settled. *)
Lemma fit_after_reshape X X' n k (dy : list F) self self1 (X_at : nat → ndarray F) :
  Dnn.fit_reshape X (Some (mkNd [n; k] dy)) self = (inr X', self1) →
  (∀ c, c < k → index_first c X' = inr (X_at c)) →
  ∃ l',
    Dnn.fit X (Some (mkNd [n; k] dy)) self =
      (inr tt,
       Dnn.set_list_estimators l' (Dnn.set_X_test (replicate k None) self1)) ∧
    length l' = k ∧
    ∀ c, c < k →
      ∃ y_c, index_column c (mkNd [n; k] dy) = inr y_c ∧
             l' !! c = Some (Some (Dnn.single_fit
                                     (Dnn.single_new (Dnn.params self1))
                                     (X_at c) y_c)).
Proof.
  intros Hre HX. unfold Dnn.fit. rewrite Hre. cbn [last_dim shape last].
  set (self2 := Dnn.set_X_test _ _).
  set (y_at := λ c, match index_column c (mkNd [n; k] dy) with
                    | inr y_c => y_c
                    | inl _ => mkNd [] []
                    end).
  destruct (fit_columns_run X' (mkNd [n; k] dy) X_at y_at (seq 0 k) self2)
    as (l' & Hrun & Hlen & Hin & _).
  { apply NoDup_seq. }
  { intros c Hc%elem_of_seq. split_and!.
    - simpl. rewrite length_replicate. lia.
    - apply HX. lia.
    - unfold y_at. destruct (index_column_matrix n k dy c) as (y_c & -> & _); [lia|done]. }
  exists l'. split_and!.
  - rewrite Hrun. unfold self2. by destruct self1.
  - rewrite Hlen. simpl. by rewrite length_replicate.
  - intros c Hc. destruct (index_column_matrix n k dy c Hc) as (y_c & Hy & _).
    exists y_c. split; [done|]. rewrite Hin by (apply elem_of_seq; lia).
    unfold y_at. rewrite Hy. by destruct self1.
Qed.

(** X13. [fit] on targets with [k] columns and an array that is not
    already stacked (three axes, the first of length [k]) returns with
    [k] estimators: each is newly constructed from the keyword
    arguments of the learner and fitted on the squeezed array and on
    its own column of the targets, kept as a column. [dim_repeat] is
    [k] afterwards and [X_test] has [k] empty entries. *)
Theorem fit_one_estimator_per_column self X n k (dy : list F) :
  wf_nd X →
  length (shape X) ≠ 3 ∨ hd 0 (shape X) ≠ k →
  ∃ self',
    Dnn.fit X (Some (mkNd [n; k] dy)) self = (inr tt, self') ∧
    Dnn.dim_repeat self' = k ∧ Dnn.params self' = Dnn.params self ∧
    Dnn.X_test self' = Some (replicate k None) ∧
    length (Dnn.list_estimators self') = k ∧
    ∀ c, c < k →
      ∃ y_c,
        index_column c (mkNd [n; k] dy) = inr y_c ∧ shape y_c = [n; 1] ∧
        Dnn.list_estimators self' !! c =
          Some (Some (Dnn.single_fit (Dnn.single_new (Dnn.params self))
                        (np_squeeze X) y_c)).
Proof.
  intros Hwf Hne.
  destruct (fit_after_reshape X (np_array_repeat k (np_squeeze X)) n k dy self
              (Dnn.set_dim_repeat k self) (λ _, np_squeeze X))
    as (l' & Hfit & Hlen & Hl').
  { by apply fit_reshape_repeated. }
  { intros c Hc. rewrite index_first_repeat by (by apply wf_nd_squeeze).
    by case_decide. }
  eexists. split; [exact Hfit|]. split_and!; try done.
  intros c Hc. destruct (Hl' c Hc) as (y_c & Hy & Hc').
  destruct (index_column_matrix n k dy c Hc) as (y_c' & Hy' & Hshape).
  assert (y_c' = y_c) as -> by congruence. by exists y_c.
Qed.

(** X14. Targets with one axis are not served: on a [y] of shape
    [(n,)], [n] positive, [fit] raises [IndexError] when it takes the
    first column [y[:, [0]]], whatever the array [X]. By then it has
    made room for [n] estimators and constructed the first. *)
Theorem fit_vector_targets_raises self X n (dy : list F) :
  0 < n →
  ∃ self',
    Dnn.fit X (Some (mkNd [n] dy)) self = (inl IndexError, self') ∧
    Dnn.list_estimators self'
      = Some (Dnn.single_new (Dnn.params self)) :: replicate (n - 1) None ∧
    Dnn.X_test self' = Some (replicate n None).
Proof.
  intros Hn.
  assert (∃ X' self1 a s,
            Dnn.fit_reshape X (Some (mkNd [n] dy)) self = (inr X', self1) ∧
            Dnn.params self1 = Dnn.params self ∧ shape X' = a :: s ∧ 0 < a)
    as (X' & self1 & a & s & Hre & Hpar & Hshape & Ha).
  { destruct (decide (length (shape X) = 3)) as [H3|H3];
      [destruct (decide (hd 0 (shape X) = n)) as [Hhd|Hhd]|].
    - exists X, self. destruct (shape X) as [|a s] eqn:HsX; [done|].
      exists a, s. rewrite (fit_reshape_kept X _ n); rewrite ?HsX; try done.
      split_and!; try done. simpl in Hhd. lia.
    - eexists _, _, n, _. rewrite (fit_reshape_repeated X _ n) by (done || by right).
      split_and!; [done|done| |done]. by destruct n; [lia|].
    - eexists _, _, n, _. rewrite (fit_reshape_repeated X _ n) by (done || by left).
      split_and!; [done|done| |done]. by destruct n; [lia|]. }
  unfold Dnn.fit. rewrite Hre. cbn [last_dim shape last].
  destruct n as [|n']; [lia|]. cbn [seq Dnn.fit_columns].
  unfold Dnn.fit_column.
  cbn [Dnn.set_list_estimators Dnn.set_X_test Dnn.list_estimators Dnn.params].
  rewrite length_replicate. cbn [Nat.ltb Nat.leb replicate].
  cbn [insert list_insert lookup list_lookup].
  unfold index_first. rewrite Hshape.
  rewrite (proj2 (Nat.ltb_lt _ _) Ha). cbn [index_column shape].
  eexists. split; [reflexivity|]. cbn. rewrite Hpar, Nat.sub_0_r. done.
Qed.

(** ** [predict] *)

Lemma predict_one_run (Xa : ndarray F) scale c self est X_c xt :
  Dnn.list_estimators self !! c = Some (Some est) →
  index_first c Xa = inr X_c →
  Dnn.X_test self = Some xt → c < length xt →
  Dnn.predict_one (Dnn.OneArray Xa) scale c self =
    (inr (Dnn.single_predict est (Dnn.OneArray X_c) scale).1,
     Dnn.set_X_test
       (<[c := Some (Dnn.single_X_test
                       (Dnn.single_predict est (Dnn.OneArray X_c) scale).2)]> xt)
       (Dnn.set_list_estimators
          (<[c := Some (Dnn.single_predict est (Dnn.OneArray X_c) scale).2]>
             (Dnn.list_estimators self)) self)).
Proof.
  intros Hest HX Hxt Hc. unfold Dnn.predict_one. rewrite Hest, HX.
  destruct (Dnn.single_predict est (Dnn.OneArray X_c) scale) as [res est'].
  cbn [Dnn.set_list_estimators Dnn.X_test]. rewrite Hxt.
  by rewrite (proj2 (Nat.ltb_lt _ _) Hc).
Qed.

Lemma predict_each_run (Xa : ndarray F) scale (X_at : nat → ndarray F)
    (est_at : nat → Est) :
  ∀ inds acc self xt,
    NoDup inds → Dnn.X_test self = Some xt →
    (∀ c, c ∈ inds →
       c < length xt ∧
       Dnn.list_estimators self !! c = Some (Some (est_at c)) ∧
       index_first c Xa = inr (X_at c)) →
    ∃ l' xt',
      Dnn.predict_each (Dnn.OneArray Xa) scale inds acc self =
        (inr (acc ++ ((λ c, (Dnn.single_predict (est_at c)
                               (Dnn.OneArray (X_at c)) scale).1) <$> inds)),
         Dnn.set_X_test xt' (Dnn.set_list_estimators l' self)) ∧
      length l' = length (Dnn.list_estimators self) ∧
      length xt' = length xt ∧
      (∀ c, c ∈ inds →
         l' !! c = Some (Some (Dnn.single_predict (est_at c)
                                 (Dnn.OneArray (X_at c)) scale).2) ∧
         xt' !! c = Some (Some (Dnn.single_X_test
                                  (Dnn.single_predict (est_at c)
                                     (Dnn.OneArray (X_at c)) scale).2))) ∧
      (∀ c, c ∉ inds →
         l' !! c = Dnn.list_estimators self !! c ∧ xt' !! c = xt !! c).
Proof.
  induction inds as [|c inds IH]; intros acc self xt Hnd Hxt Hok.
  - exists (Dnn.list_estimators self), xt. simpl. rewrite app_nil_r.
    split_and!; try done.
    + do 2 f_equal. destruct self. simpl in *. by subst.
    + intros c Hc. by apply elem_of_nil in Hc.
  - apply NoDup_cons in Hnd as [Hc Hnd].
    destruct (Hok c) as (Hlt & Hest & HX); [by left|].
    pose proof (predict_one_run Xa scale c self _ _ xt Hest HX Hxt Hlt) as Hone.
    set (post := (Dnn.single_predict (est_at c) (Dnn.OneArray (X_at c)) scale).2) in *.
    set (self1 := Dnn.set_X_test _ _) in Hone.
    destruct (IH (acc ++ [(Dnn.single_predict (est_at c)
                             (Dnn.OneArray (X_at c)) scale).1])
                self1 (<[c := Some (Dnn.single_X_test post)]> xt) Hnd eq_refl)
      as (l' & xt' & Hrun & Hlen & Hlenx & Hin & Hout).
    { intros c' Hc'. destruct (Hok c') as (Hlt' & Hest' & HX'); [by right|].
      assert (c ≠ c') by (by intros ->).
      split_and!; try done.
      - by rewrite length_insert.
      - simpl. by rewrite list_lookup_insert_ne. }
    exists l', xt'. split_and!.
    + cbn [Dnn.predict_each]. rewrite Hone, Hrun.
      rewrite <- app_assoc. simpl. by destruct self.
    + rewrite Hlen. simpl. by rewrite length_insert.
    + rewrite Hlenx. by rewrite length_insert.
    + intros c' [->|Hc']%elem_of_cons; [|by apply Hin].
      destruct (Hout c Hc) as [-> ->]. simpl.
      rewrite !list_lookup_insert_eq; [done|done|].
      by eapply lookup_lt_Some.
    + intros c' [Hne Hc']%not_elem_of_cons.
      destruct (Hout c' Hc') as [-> ->]. simpl.
      by rewrite !list_lookup_insert_ne.
Qed.

Lemma fmap_seq_lookups {A B} (f : A → B) (g : nat → B) (l : list A) :
  (∀ i x, l !! i = Some x → g i = f x) →
  g <$> seq 0 (length l) = f <$> l.
Proof.
  intros Hg. apply list_eq. intros i. rewrite !list_lookup_fmap.
  destruct (l !! i) as [x|] eqn:Hi.
  - rewrite lookup_seq_lt by (by eapply lookup_lt_Some). simpl.
    by rewrite (Hg i x).
  - rewrite lookup_seq_ge; [done|]. by apply lookup_ge_None.
Qed.

(** X15. [predict] on a learner whose [k] estimators are all there
    (as [fit] leaves them), given one array that is not already stacked,
    hands the squeezed array to every estimator in turn and returns
    their [k] results in the order of the columns. It leaves every
    estimator in the state its own [predict] left it in, stores a copy
    of its [X_test] at its position, and changes nothing else. *)
Theorem predict_one_result_per_estimator self X scale (ests : list Est) xt :
  Dnn.list_estimators self = Some <$> ests →
  Dnn.X_test self = Some xt → length xt = length ests →
  Dnn.dim_repeat self = length ests →
  wf_nd X →
  length (shape X) ≠ 3 ∨ hd 0 (shape X) ≠ length ests →
  ∃ self',
    Dnn.predict (Dnn.OneArray X) scale self =
      (inr ((λ e, (Dnn.single_predict e
                     (Dnn.OneArray (np_squeeze X)) scale).1) <$> ests),
       self') ∧
    Dnn.list_estimators self' =
      (λ e, Some (Dnn.single_predict e
                    (Dnn.OneArray (np_squeeze X)) scale).2) <$> ests ∧
    Dnn.X_test self' =
      Some ((λ e, Some (Dnn.single_X_test
                          (Dnn.single_predict e
                             (Dnn.OneArray (np_squeeze X)) scale).2)) <$> ests) ∧
    Dnn.dim_repeat self' = Dnn.dim_repeat self ∧
    Dnn.params self' = Dnn.params self.
Proof.
  intros Hl Hxt Hlenx Hk Hwf Hne.
  destruct ests as [|e0 ests0] eqn:Hests.
  { exists self. unfold Dnn.predict. rewrite Hl. simpl.
    split_and!; try done. destruct xt; [by rewrite Hxt|done]. }
  rewrite <- Hests in *. clear Hests ests0.
  set (est_at := λ c, match ests !! c with Some e => e | None => e0 end).
  assert (∀ c e, ests !! c = Some e → est_at c = e) as Hat.
  { intros c e Hc. unfold est_at. by rewrite Hc. }
  unfold Dnn.predict.
  rewrite check_X_dim_repeated by (by rewrite Hk).
  rewrite Hl, length_fmap.
  destruct (predict_each_run (np_array_repeat (Dnn.dim_repeat self) (np_squeeze X))
              scale (λ _, np_squeeze X) est_at (seq 0 (length ests)) [] self xt)
    as (l' & xt' & Hrun & Hlen & Hlenx' & Hin & _); [apply NoDup_seq|done| |].
  { intros c [_ Hc]%elem_of_seq. simpl in Hc.
    destruct (lookup_lt_is_Some_2 ests c Hc) as [e He].
    split_and!; [lia| |].
    - rewrite Hl, list_lookup_fmap, He. simpl. by rewrite (Hat c e).
    - rewrite index_first_repeat by (by apply wf_nd_squeeze).
      rewrite Hk. by case_decide. }
  rewrite Hrun. cbn [app].
  exists (Dnn.set_X_test xt' (Dnn.set_list_estimators l' self)).
  split_and!; [| | |reflexivity|reflexivity].
  - do 2 f_equal. apply fmap_seq_lookups. intros i e He. by rewrite (Hat i e).
  - cbn. apply list_eq. intros i. rewrite list_lookup_fmap.
    destruct (ests !! i) as [e|] eqn:He.
    + destruct (Hin i) as [-> _].
      { apply elem_of_seq. apply lookup_lt_Some in He. lia. }
      by rewrite (Hat i e).
    + apply lookup_ge_None. rewrite Hlen, Hl, length_fmap.
      by apply lookup_ge_None.
  - cbn. f_equal. apply list_eq. intros i. rewrite list_lookup_fmap.
    destruct (ests !! i) as [e|] eqn:He.
    + destruct (Hin i) as [_ ->].
      { apply elem_of_seq. apply lookup_lt_Some in He. lia. }
      by rewrite (Hat i e).
    + apply lookup_ge_None. rewrite Hlenx', Hlenx.
      by apply lookup_ge_None.
Qed.


(** ** [fit] after [fit] *)

(** X18. [fit] starts afresh. On an array that is not already stacked
    for the targets, what it returns and the learner it leaves depend on
    the learner only through what the constructor stored: the
    estimators, the [X_test] entries and the [dim_repeat] that earlier
    calls of [fit] and [predict] left are all replaced. *)
Theorem fit_forgets_previous_fit self1 self2 X (ya : ndarray F) k :
  last (shape ya) = Some k →
  length (shape X) ≠ 3 ∨ hd 0 (shape X) ≠ k →
  Dnn.same_keywords self1 self2 →
  Dnn.fit X (Some ya) self1 = Dnn.fit X (Some ya) self2.
Proof.
  intros Hk Hne (Hpar & Hpred & Henc & His). unfold Dnn.fit.
  rewrite !(fit_reshape_repeated X ya k) by done.
  unfold last_dim. rewrite Hk. f_equal.
  destruct self1, self2. cbn in *. by subst.
Qed.

(** ** [predict] on a list of arrays *)

Lemma predict_one_list_run (Xs : list (ndarray F)) scale c self est curr :
  Dnn.list_estimators self !! c = Some (Some est) →
  rmapM (index_first c) Xs = inr curr →
  Dnn.predict_one (Dnn.ArrayList Xs) scale c self =
    (inr (Dnn.single_predict est (Dnn.ArrayList curr) scale).1,
     Dnn.set_list_estimators
       (<[c := Some (Dnn.single_predict est (Dnn.ArrayList curr) scale).2]>
          (Dnn.list_estimators self)) self).
Proof.
  intros Hest HX. unfold Dnn.predict_one. rewrite Hest, HX.
  by destruct (Dnn.single_predict est (Dnn.ArrayList curr) scale).
Qed.

Lemma predict_each_list_run (Xs : list (ndarray F)) scale
    (curr : list (ndarray F)) (est_at : nat → Est) :
  ∀ inds acc self,
    NoDup inds →
    (∀ c, c ∈ inds →
       Dnn.list_estimators self !! c = Some (Some (est_at c)) ∧
       rmapM (index_first c) Xs = inr curr) →
    ∃ l',
      Dnn.predict_each (Dnn.ArrayList Xs) scale inds acc self =
        (inr (acc ++ ((λ c, (Dnn.single_predict (est_at c)
                               (Dnn.ArrayList curr) scale).1) <$> inds)),
         Dnn.set_list_estimators l' self) ∧
      length l' = length (Dnn.list_estimators self) ∧
      (∀ c, c ∈ inds →
         l' !! c = Some (Some (Dnn.single_predict (est_at c)
                                 (Dnn.ArrayList curr) scale).2)) ∧
      (∀ c, c ∉ inds → l' !! c = Dnn.list_estimators self !! c).
Proof.
  induction inds as [|c inds IH]; intros acc self Hnd Hok.
  - exists (Dnn.list_estimators self). simpl. rewrite app_nil_r.
    rewrite set_list_estimators_same. split_and!; try done.
    intros c Hc. by apply elem_of_nil in Hc.
  - apply NoDup_cons in Hnd as [Hc Hnd].
    destruct (Hok c) as (Hest & HX); [by left|].
    pose proof (predict_one_list_run Xs scale c self _ _ Hest HX) as Hone.
    set (self1 := Dnn.set_list_estimators _ _) in Hone.
    destruct (IH (acc ++ [(Dnn.single_predict (est_at c)
                             (Dnn.ArrayList curr) scale).1]) self1 Hnd)
      as (l' & Hrun & Hlen & Hin & Hout).
    { intros c' Hc'. destruct (Hok c') as (Hest' & HX'); [by right|].
      assert (c ≠ c') by (by intros ->).
      split; [|done]. simpl. by rewrite list_lookup_insert_ne. }
    exists l'. split_and!.
    + cbn [Dnn.predict_each]. rewrite Hone, Hrun.
      rewrite <- app_assoc. simpl. by destruct self.
    + rewrite Hlen. simpl. by rewrite length_insert.
    + intros c' [->|Hc']%elem_of_cons; [|by apply Hin].
      rewrite (Hout c Hc). simpl.
      rewrite list_lookup_insert_eq; [done|]. by eapply lookup_lt_Some.
    + intros c' [Hne Hc']%not_elem_of_cons.
      rewrite (Hout c' Hc'). simpl. by rewrite list_lookup_insert_ne.
Qed.

Lemma check_X_dim_list_slices self (Xs : list (ndarray F)) c :
  Forall wf_nd Xs →
  Forall (λ X, length (shape X) ≠ 3 ∨ hd 0 (shape X) ≠ Dnn.dim_repeat self) Xs →
  c < Dnn.dim_repeat self →
  rmapM (index_first c) (Dnn.check_X_dim self <$> Xs) = inr (np_squeeze <$> Xs).
Proof.
  intros Hwf Hne Hc. induction Xs as [|X Xs IH]; [done|].
  apply Forall_cons in Hwf as [HwfX Hwf]. apply Forall_cons in Hne as [HneX Hne].
  cbn [fmap list_fmap rmapM].
  rewrite check_X_dim_repeated by done.
  rewrite index_first_repeat by (by apply wf_nd_squeeze).
  rewrite decide_True by done. cbn [rbind].
  change (list_fmap _ _ (Dnn.check_X_dim self) Xs)
    with (Dnn.check_X_dim self <$> Xs).
  by rewrite IH.
Qed.

(** X19. Given a list of arrays, none of them already stacked,
    [predict] on a learner whose [k] estimators are all there and whose
    [dim_repeat] is [k] squeezes every array and hands the list of the
    squeezed arrays to every estimator in turn. It returns the [k]
    results in the order of the columns, leaves every estimator in the
    state its own [predict] left it in, and does not touch [X_test]. *)
Theorem predict_list_one_result_per_estimator self (Xs : list (ndarray F))
    scale (ests : list Est) :
  Dnn.list_estimators self = Some <$> ests →
  Dnn.dim_repeat self = length ests →
  Forall wf_nd Xs →
  Forall (λ X, length (shape X) ≠ 3 ∨ hd 0 (shape X) ≠ length ests) Xs →
  ∃ self',
    Dnn.predict (Dnn.ArrayList Xs) scale self =
      (inr ((λ e, (Dnn.single_predict e
                     (Dnn.ArrayList (np_squeeze <$> Xs)) scale).1) <$> ests),
       self') ∧
    Dnn.list_estimators self' =
      (λ e, Some (Dnn.single_predict e
                    (Dnn.ArrayList (np_squeeze <$> Xs)) scale).2) <$> ests ∧
    Dnn.X_test self' = Dnn.X_test self ∧
    Dnn.dim_repeat self' = Dnn.dim_repeat self ∧
    Dnn.params self' = Dnn.params self.
Proof.
  intros Hl Hk Hwf Hne.
  destruct ests as [|e0 ests0] eqn:Hests.
  { exists self. unfold Dnn.predict. rewrite Hl. simpl. done. }
  rewrite <- Hests in *. clear Hests ests0.
  set (est_at := λ c, match ests !! c with Some e => e | None => e0 end).
  assert (∀ c e, ests !! c = Some e → est_at c = e) as Hat.
  { intros c e Hc. unfold est_at. by rewrite Hc. }
  unfold Dnn.predict. rewrite Hl, length_fmap.
  destruct (predict_each_list_run (Dnn.check_X_dim self <$> Xs) scale
              (np_squeeze <$> Xs) est_at (seq 0 (length ests)) [] self)
    as (l' & Hrun & Hlen & Hin & _); [apply NoDup_seq| |].
  { intros c [_ Hc]%elem_of_seq. simpl in Hc.
    destruct (lookup_lt_is_Some_2 ests c Hc) as [e He]. split.
    - rewrite Hl, list_lookup_fmap, He. simpl. by rewrite (Hat c e).
    - apply check_X_dim_list_slices; [done| |lia]. by rewrite Hk. }
  rewrite Hrun. cbn [app].
  exists (Dnn.set_list_estimators l' self).
  split_and!; [| |reflexivity|reflexivity|reflexivity].
  - do 2 f_equal. apply fmap_seq_lookups. intros i e He. by rewrite (Hat i e).
  - cbn. apply list_eq. intros i. rewrite list_lookup_fmap.
    destruct (ests !! i) as [e|] eqn:He.
    + rewrite Hin by (apply elem_of_seq; apply lookup_lt_Some in He; lia).
      by rewrite (Hat i e).
    + apply lookup_ge_None. rewrite Hlen, Hl, length_fmap.
      by apply lookup_ge_None.
Qed.
End learner_facts.

(** * The statements on the concrete setting *)

Import Example.

Lemma ex_init_eq : ex_init = inr ex_cpi.
Proof. reflexivity. Qed.

Lemma ex_X_wf : wf_matrix ex_X.
Proof. repeat constructor. Qed.

Lemma ex_groups_fittable j :
  j < fit_nb_groups ex_cpi ex_X →
  group_fittable (fit_groups ex_cpi ex_X) ex_X j.
Proof.
  intros Hj. change (j < 2) in Hj. exists [j]. split.
  - change (singleton_groups 2 !! (inl j : group_key) = Some [j]).
    rewrite singleton_groups_lookup. by case_decide.
  - destruct j as [|[|j]]; [done|done|lia].
Qed.

Lemma ex_fit_returns : (fit ex_X ex_y (mkWorld ex_cpi ex_heap)).1 = inr tt.
Proof. vm_compute. reflexivity. Qed.

(** The fitted example is ready for [predict] and [score]. *)
Lemma ex_fitted_ready : models_ready ex_fitted ex_X.
Proof.
  split.
  - vm_compute. discriminate.
  - intros j l Hl. vm_compute in Hl.
    destruct j as [|[|j]]; simplify_eq.
    + eexists _, _, _, _. split_and!; vm_compute; reflexivity.
    + eexists _, _, _, _. split_and!; vm_compute; reflexivity.
Qed.

Lemma mean_imputer_shapes : imputer_shapes (Mo:=mean_model) (F:=Z).
Proof.
  intros m A B A'. cbn.
  assert (∀ n (l : list Z), length (mjoin (replicate n l)) = n * length l) as H.
  { induction n as [|n IH]; intros l; [done|].
    cbn. rewrite length_app, IH. lia. }
  rewrite H. unfold column_means. by rewrite length_fmap, length_seq.
Qed.

(** The example, evaluated: the predictions for the two groups and two
    rounds, and the dictionary [score] returns. With the squared error
    as loss, the reference loss is 0, the two rounds of group 0 lose 0
    and 42, those of group 1 lose 600 and 0. *)
Lemma ex_predict_value :
  (predict ex_uninit ex_X None ex_fitted).1
    = inr [[[11; 22; 36]; [12; 26; 31]]; [[31; 12; 26]; [11; 22; 36]]]%Z.
Proof. vm_compute. reflexivity. Qed.

Lemma ex_score_value :
  ∃ out w',
    score ex_uninit ex_X ex_y ex_fitted = (inr out, w') ∧
    loss_reference out = 0%Z ∧
    loss_perm out !! 0 = Some [0; 42]%Z ∧ loss_perm out !! 1 = Some [600; 0]%Z ∧
    importance out = [21; 300]%Z ∧
    rng (self w') = 4.
Proof.
  eexists _, _. split; [vm_compute; reflexivity|].
  split_and!; vm_compute; reflexivity.
Qed.

(** Witness of C1. *)
Lemma score_importance_witness :
  ∃ out y_pred_perm w',
    score ex_uninit ex_X ex_y ex_fitted = (inr out, w') ∧
    predict ex_uninit ex_X (Some ex_y) ex_fitted = (inr y_pred_perm, w') ∧
    loss_reference out =
      loss (self ex_fitted) ex_y
        (if score_proba (self ex_fitted)
         then est_predict_proba (estimator (self ex_fitted)) ex_X
         else est_predict (estimator (self ex_fitted)) ex_X) ∧
    length (importance out) = 2 ∧
    (∀ j, j < 2 →
       ∃ preds,
         y_pred_perm !! j = Some preds ∧
         length preds = n_perm (self ex_fitted) ∧
         loss_perm out !! j = Some (loss (self ex_fitted) ex_y <$> preds) ∧
         importance out !! j =
           Some (fsub (fmean (loss (self ex_fitted) ex_y <$> preds))
                   (loss_reference out))) ∧
    ∀ j l g ids m,
      list_imputation_mod (self ex_fitted) !! j = Some l →
      groups (self ex_fitted) = Some g → g !! (inl j : group_key) = Some ids →
      heap ex_fitted !! l = Some (Estimator m) →
      y_pred_perm !! j =
        Some ((λ idx,
                 if score_proba (self ex_fitted)
                 then est_predict_proba (estimator (self ex_fitted))
                        (perturbed ex_uninit ex_X ids m idx)
                 else est_predict (estimator (self ex_fitted))
                        (perturbed ex_uninit ex_X ids m idx))
                <$> (draws (n_perm (self ex_fitted)) (n_rows ex_X)
                       (rng_after (j * n_perm (self ex_fitted)) (n_rows ex_X)
                          (rng (self ex_fitted)))).1).
Proof.
  apply (score_importance ex_uninit ex_X ex_y ex_fitted 2).
  - vm_compute. reflexivity.
  - apply ex_fitted_ready.
  - vm_compute. reflexivity.
  - vm_compute. reflexivity.
Defined.

(** Witness of C2. *)
Lemma fit_trains_each_group_witness :
  ∃ w',
    fit ex_X ex_y (mkWorld ex_cpi ex_heap) = (inr tt, w') ∧
    groups (self w') = Some (fit_groups ex_cpi ex_X) ∧
    nb_groups (self w') = Some (fit_nb_groups ex_cpi ex_X) ∧
    self w' = set_list_imputation_mod (list_imputation_mod (self w'))
                (self (fit_prepared (mkWorld ex_cpi ex_heap) ex_X)) ∧
    length (list_imputation_mod (self w')) = fit_nb_groups ex_cpi ex_X ∧
    ∀ j, j < fit_nb_groups ex_cpi ex_X →
      ∃ l m0 ids X_j X_minus_j,
        list_imputation_mod (self w') !! j = Some l ∧
        fit_groups ex_cpi ex_X !! (inl j : group_key) = Some ids ∧
        take_cols ids ex_X = inr X_j ∧
        np_delete_cols ids ex_X = inr X_minus_j ∧
        take_cols (filter (λ col, col ∉ ids) (seq 0 (n_cols ex_X))) ex_X
          = inr X_minus_j ∧
        heap w' !! l = Some (Estimator (im_fit m0 X_minus_j X_j)) ∧
        im_is_fitted (im_fit m0 X_minus_j X_j) = true.
Proof.
  apply (fit_trains_each_group ex_estimator (Single 1%positive) 2 None ex_loss
           false (Some 0%Z) 1%Z 0 ex_cpi ex_heap ex_X ex_y).
  - reflexivity.
  - apply ex_X_wf.
  - apply ex_groups_fittable.
  - exists (mkMean false []). reflexivity.
Defined.

(** Witness of C3. *)
Lemma predict_group_columns_witness :
  ∃ (designs : list (list (Matrix Z))) w',
    predict ex_uninit ex_X (Some ex_y) ex_fitted =
      (inr ((λ D : list (Matrix Z), estimator_output (self ex_fitted) <$> D)
              <$> designs), w') ∧
    ∀ j l g ids m,
      list_imputation_mod (self ex_fitted) !! j = Some l →
      groups (self ex_fitted) = Some g → g !! (inl j : group_key) = Some ids →
      heap ex_fitted !! l = Some (Estimator m) → NoDup ids →
      ∃ X_j X_minus_j X_j_hat D,
        take_cols ids ex_X = inr X_j ∧ np_delete_cols ids ex_X = inr X_minus_j ∧
        reshape (n_rows X_j) (n_cols X_j) (im_predict m X_minus_j)
          = inr X_j_hat ∧
        designs !! j = Some D ∧ length D = n_perm (self ex_fitted) ∧
        ∀ X_perm, X_perm ∈ D →
          ∃ idx,
            idx ≡ₚ seq 0 (n_rows ex_X) ∧
            rows (take_rows idx (mat_zip fsub X_j X_j_hat))
              ≡ₚ rows (mat_zip fsub X_j X_j_hat) ∧
            take_cols ids X_perm =
              inr (mat_zip fadd X_j_hat
                     (take_rows idx (mat_zip fsub X_j X_j_hat))).
Proof.
  apply (predict_group_columns ex_uninit ex_X (Some ex_y) ex_fitted).
  - apply ex_fitted_ready.
  - apply ex_X_wf.
Defined.

(** Witness of C4. *)
Lemma predict_other_columns_witness :
  ∃ (designs : list (list (Matrix Z))) w',
    predict ex_uninit ex_X (Some ex_y) ex_fitted =
      (inr ((λ D : list (Matrix Z), estimator_output (self ex_fitted) <$> D)
              <$> designs), w') ∧
    ∀ j l g ids,
      list_imputation_mod (self ex_fitted) !! j = Some l →
      groups (self ex_fitted) = Some g → g !! (inl j : group_key) = Some ids →
      ∃ D,
        designs !! j = Some D ∧ length D = n_perm (self ex_fitted) ∧
        ∀ X_perm, X_perm ∈ D →
          n_cols X_perm = n_cols ex_X ∧ n_rows X_perm = n_rows ex_X ∧
          ∀ col, col < n_cols ex_X → col ∉ ids →
                 take_cols [col] X_perm = take_cols [col] ex_X.
Proof.
  apply (predict_other_columns ex_uninit ex_X (Some ex_y) ex_fitted).
  - apply ex_fitted_ready.
  - apply ex_X_wf.
Defined.

(** Witness of C8. *)
Lemma predict_stacked_witness :
  ∃ (designs : list (list (Matrix Z))) w',
    predict ex_uninit ex_X (Some ex_y) ex_fitted =
      (inr ((λ D : list (Matrix Z),
               (if score_proba (self ex_fitted)
                then est_predict_proba (estimator (self ex_fitted))
                else est_predict (estimator (self ex_fitted))) <$> D)
              <$> designs), w') ∧
    length designs = 2 ∧
    Forall (λ D, length D = n_perm (self ex_fitted)) designs ∧
    ∀ j l g ids m,
      list_imputation_mod (self ex_fitted) !! j = Some l →
      groups (self ex_fitted) = Some g → g !! (inl j : group_key) = Some ids →
      heap ex_fitted !! l = Some (Estimator m) →
      designs !! j =
        Some (perturbed ex_uninit ex_X ids m
                <$> (draws (n_perm (self ex_fitted)) (n_rows ex_X)
                       (rng_after (j * n_perm (self ex_fitted)) (n_rows ex_X)
                          (rng (self ex_fitted)))).1).
Proof.
  apply (predict_stacked ex_uninit ex_X (Some ex_y) ex_fitted 2).
  - apply ex_fitted_ready.
  - vm_compute. reflexivity.
  - vm_compute. reflexivity.
Defined.

(** Witness of C6 as amended. *)
Lemma predict_tasks_share_rng_witness :
  ∃ outs,
    predict ex_uninit ex_X (Some ex_y) ex_fitted =
      (inr outs,
       with_rng (rng_after (length (list_imputation_mod (self ex_fitted))
                              * n_perm (self ex_fitted)) (n_rows ex_X)
                   (rng (self ex_fitted))) ex_fitted) ∧
    length outs = length (list_imputation_mod (self ex_fitted)) ∧
    ∀ j l g ids m,
      list_imputation_mod (self ex_fitted) !! j = Some l →
      groups (self ex_fitted) = Some g → g !! (inl j : group_key) = Some ids →
      heap ex_fitted !! l = Some (Estimator m) →
      let r_j := rng_after (j * n_perm (self ex_fitted)) (n_rows ex_X)
                   (rng (self ex_fitted)) in
      ∃ out_j,
        outs !! j = Some out_j ∧
        joblib_predict_one_gp ex_uninit l ex_X j (with_rng r_j ex_fitted) =
          (inr out_j,
           with_rng (rng_after (n_perm (self ex_fitted)) (n_rows ex_X) r_j)
             ex_fitted) ∧
        out_j =
          (λ idx, estimator_output (self ex_fitted)
                    (perturbed ex_uninit ex_X ids m idx))
            <$> (draws (n_perm (self ex_fitted)) (n_rows ex_X) r_j).1.
Proof.
  apply (predict_tasks_share_rng ex_uninit ex_X (Some ex_y) ex_fitted).
  apply ex_fitted_ready.
Defined.

(** C6 as stated fails: the task of group 1, given the same array, the
    same group and the same model, predicts one thing when it runs
    first and another when the task of group 0 has run before it, as
    it has in [predict]. *)
Lemma predict_tasks_not_independent :
  ∃ alone after,
    (joblib_predict_one_gp ex_uninit 3%positive ex_X 1 ex_fitted).1
      = inr alone ∧
    (joblib_predict_one_gp ex_uninit 3%positive ex_X 1
       (joblib_predict_one_gp ex_uninit 2%positive ex_X 0 ex_fitted).2).1
      = inr after ∧
    (predict ex_uninit ex_X None ex_fitted).1
      = inr [[[11; 22; 36]; [12; 26; 31]]; after]%Z ∧
    alone = [[11; 22; 36]; [21; 32; 16]]%Z ∧
    after = [[31; 12; 26]; [11; 22; 36]]%Z ∧
    alone ≠ after.
Proof.
  eexists _, _. split_and!; [vm_compute; reflexivity..|discriminate].
Qed.

(** Witness of C7: a single model, and a list of two models. *)
Lemma fit_clones_or_uses_list_witness :
  (∃ w',
     fit ex_X ex_y (mkWorld ex_cpi ex_heap) = (inr tt, w') ∧
     length (list_imputation_mod (self w')) = fit_nb_groups ex_cpi ex_X ∧
     NoDup (list_imputation_mod (self w')) ∧
     (∀ l, l ∈ list_imputation_mod (self w') → l ∉ dom ex_heap) ∧
     (∀ l, l ∈ dom ex_heap → heap w' !! l = ex_heap !! l) ∧
     ∀ j l ids X_j X_mj m0,
       list_imputation_mod (self w') !! j = Some l →
       ex_heap !! 1%positive = Some (Estimator m0) →
       fit_groups ex_cpi ex_X !! (inl j : group_key) = Some ids →
       take_cols ids ex_X = inr X_j → np_delete_cols ids ex_X = inr X_mj →
       heap w' !! l = Some (Estimator (im_fit (im_clone m0) X_mj X_j))) ∧
  (∃ w',
     fit ex_X ex_y (mkWorld ex_cpi_list ex_heap_two) = (inr tt, w') ∧
     list_imputation_mod (self w') = [4%positive; 7%positive] ∧
     dom (heap w') = dom ex_heap_two ∧
     ∀ j l ids X_j X_mj m,
       [4%positive; 7%positive] !! j = Some l →
       ex_heap_two !! l = Some (Estimator m) →
       fit_groups ex_cpi_list ex_X !! (inl j : group_key) = Some ids →
       take_cols ids ex_X = inr X_j → np_delete_cols ids ex_X = inr X_mj →
       heap w' !! l = Some (Estimator (im_fit m X_mj X_j))).
Proof.
  split.
  - apply (fit_clones_or_uses_list ex_estimator (Single 1%positive) 2 None ex_loss
             false (Some 0%Z) 1%Z 0 ex_cpi ex_heap ex_X ex_y).
    + reflexivity.
    + apply ex_groups_fittable.
    + exists (mkMean false []). reflexivity.
  - apply (fit_clones_or_uses_list ex_estimator
             (Multi [4%positive; 7%positive]) 2 None ex_loss
             false (Some 0%Z) 1%Z 0 ex_cpi_list ex_heap_two ex_X ex_y).
    + reflexivity.
    + apply ex_groups_fittable.
    + split_and!.
      * reflexivity.
      * apply NoDup_cons. split; [|apply NoDup_singleton].
        intros H%list_elem_of_singleton. discriminate.
      * intros l [Hl|Hl%list_elem_of_singleton]%elem_of_cons;
          rewrite Hl; eexists; reflexivity.
Defined.

(** Witness of C9. *)
Lemma fit_default_groups_witness :
  ∃ g,
    groups (self (fit ex_X ex_y (mkWorld ex_cpi ex_heap)).2) = Some g ∧
    nb_groups (self (fit ex_X ex_y (mkWorld ex_cpi ex_heap)).2)
      = Some (n_cols ex_X) ∧
    size g = n_cols ex_X ∧
    (∀ j, j < n_cols ex_X → g !! (inl j : group_key) = Some [j]) ∧
    (∀ key ids, g !! key = Some ids →
                ∃ j, key = inl j ∧ j < n_cols ex_X ∧ ids = [j]).
Proof.
  apply (fit_default_groups ex_estimator (Single 1%positive) 2 ex_loss false
           (Some 0%Z) 1%Z 0 ex_cpi ex_heap ex_X ex_y).
  reflexivity.
Defined.

(** C5 as stated fails for [predict]: an instance built from a list of
    models that were fitted elsewhere, with explicit groups, predicts
    although [fit] was never called on it. *)
Lemma predict_returns_without_fit :
  __init__ ex_estimator (Multi [1%positive]) 2 (Some ex_groups) ex_loss false
    (Some 0%Z) 1%Z 0 = inr ex_cpi_unfitted ∧
  nb_groups ex_cpi_unfitted = None ∧
  (predict ex_uninit ex_X (Some ex_y) (mkWorld ex_cpi_unfitted ex_heap_fitted)).1
    = inr [[[11; 22; 36]; [12; 26; 31]]]%Z.
Proof. split_and!; vm_compute; reflexivity. Qed.

(** Witness of C5 as amended. *)
Lemma prerequisite_checks_witness :
  __init__ (mkLinear false [1; 1]%Z) (Single 1%positive) 2 None ex_loss false
    (Some 0%Z) 1%Z 0
    = (inl NotFittedError : result (CPI Z (list Z) (list Z) linear nat)) ∧
  ((∃ e, predict ex_uninit ex_X (Some ex_y) (mkWorld ex_cpi ex_heap)
           = (inl e, mkWorld ex_cpi ex_heap)) ∧
   (∃ e, score ex_uninit ex_X ex_y (mkWorld ex_cpi ex_heap)
           = (inl e, mkWorld ex_cpi ex_heap))) ∧
  (predict ex_uninit ex_X (Some ex_y) (mkWorld ex_cpi ex_heap)
     = (inl ValueError, mkWorld ex_cpi ex_heap) ∧
   score ex_uninit ex_X ex_y (mkWorld ex_cpi ex_heap)
     = (inl ValueError, mkWorld ex_cpi ex_heap)) ∧
  ∃ e w', score ex_uninit ex_X ex_y (mkWorld ex_cpi_unfitted ex_heap_fitted)
            = (inl e, w').
Proof.
  destruct (prerequisite_checks (F:=Z) (Pred:=list Z) (Y:=list Z) (E:=linear)
              (Mo:=mean_model) (R:=nat)) as (H1 & H2 & H3 & H4).
  split; [apply H1; reflexivity|].
  split; [apply H2; left; reflexivity|].
  split; [|apply H4; reflexivity].
  apply (H3 ex_estimator 1%positive 2 None ex_loss false (Some 0%Z) 1%Z 0).
  reflexivity.
Defined.

(** Witness of C10: two constructions in different stores, with
    different entropy and different memory contents. *)
Lemma score_reproducible_witness :
  rng ex_cpi = rs_seed 0%Z ∧ rng ex_cpi' = rs_seed 0%Z ∧
  ∃ w1 w2 out w1' w2',
    fit ex_X ex_y (mkWorld ex_cpi ex_heap) = (inr tt, w1) ∧
    fit ex_X ex_y (mkWorld ex_cpi' ex_heap') = (inr tt, w2) ∧
    score ex_uninit ex_X ex_y w1 = (inr out, w1') ∧
    score ex_uninit' ex_X ex_y w2 = (inr out, w2').
Proof.
  apply (score_reproducible ex_estimator (Single 1%positive) (Single 5%positive)
           2 None ex_loss false 0%Z 3 9 ex_cpi ex_cpi' ex_heap ex_heap'
           ex_uninit ex_uninit' ex_X ex_y).
  - reflexivity.
  - reflexivity.
  - exists (mkMean false []). split; reflexivity.
  - apply ex_X_wf.
  - cbn. lia.
  - apply ex_groups_fittable.
  - apply mean_imputer_shapes.
Defined.

(** * The further statements on concrete settings *)

Import Scenarios.

Lemma ex_fitted_models_fitted : models_fitted ex_fitted.
Proof. exact (models_ready_fitted ex_fitted ex_X ex_fitted_ready). Qed.

(** Witness of X3: the second of two groups lists a column that [ex_X]
    does not have; the groups are keyed by names. *)
Lemma fit_raises_at_first_bad_group_witness :
  (∃ w',
     fit ex_X ex_y (mkWorld sc_cpi_wide ex_heap_two) = (inl IndexError, w') ∧
     ∀ i l, i < 1 → list_imputation_mod (self w') !! i = Some l →
            ∃ m, heap w' !! l = Some (Estimator m) ∧ im_is_fitted m = true) ∧
  (∃ w',
     fit ex_X ex_y (mkWorld sc_cpi_named ex_heap) = (inl KeyError, w') ∧
     ∀ i l, i < 0 → list_imputation_mod (self w') !! i = Some l →
            ∃ m, heap w' !! l = Some (Estimator m) ∧ im_is_fitted m = true).
Proof.
  split.
  - apply (fit_raises_at_first_bad_group ex_estimator
             (Multi [4%positive; 7%positive]) 2 (Some sc_groups_wide) ex_loss
             false (Some 0%Z) 0 sc_cpi_wide ex_heap_two ex_X ex_y 1 IndexError).
    + reflexivity.
    + intros l [Hl|Hl%list_elem_of_singleton]%elem_of_cons;
        rewrite Hl; eexists; reflexivity.
    + simpl. lia.
    + intros i Hi. assert (i = 0) as -> by lia. reflexivity.
    + reflexivity.
  - apply (fit_raises_at_first_bad_group ex_estimator (Single 1%positive) 2
             (Some sc_groups_named) ex_loss false (Some 0%Z) 0
             sc_cpi_named ex_heap ex_X ex_y 0 KeyError).
    + reflexivity.
    + exists (mkMean false []). reflexivity.
    + vm_compute. lia.
    + intros i Hi. lia.
    + reflexivity.
Defined.

Lemma ex_fitted_ready_narrow i l :
  i < 1 → list_imputation_mod (self ex_fitted) !! i = Some l →
  group_ready ex_fitted sc_X_narrow i l.
Proof.
  intros Hi Hl. assert (i = 0) as -> by lia. vm_compute in Hl. simplify_eq.
  eexists _, _, _, _. split_and!; vm_compute; reflexivity.
Qed.

(** Witness of X4: the fitted example, asked to predict on an array
    with one column only. *)
Lemma predict_raises_at_first_bad_task_witness :
  ∃ w',
    w' = with_rng (rng_after (1 * n_perm (self ex_fitted)) (n_rows sc_X_narrow)
                     (rng (self ex_fitted))) ex_fitted ∧
    predict ex_uninit sc_X_narrow None ex_fitted = (inl IndexError, w') ∧
    (est_is_fitted (estimator (self ex_fitted)) = true →
     score ex_uninit sc_X_narrow ex_y ex_fitted = (inl IndexError, w')).
Proof.
  apply (predict_raises_at_first_bad_task ex_uninit sc_X_narrow ex_y None
           ex_fitted 1 3%positive (mkMean true [20%Z]) IndexError).
  - vm_compute. reflexivity.
  - apply ex_fitted_models_fitted.
  - apply ex_fitted_ready_narrow.
  - vm_compute. reflexivity.
  - vm_compute. reflexivity.
  - vm_compute. reflexivity.
Defined.

(** Witness of X5: one model for the two columns of [ex_X]. *)
Lemma score_fewer_models_than_groups_witness :
  ∃ w1 outs w2,
    fit ex_X ex_y (mkWorld sc_cpi_short ex_heap_two) = (inr tt, w1) ∧
    list_imputation_mod (self w1) = [4%positive] ∧
    nb_groups (self w1) = Some (fit_nb_groups sc_cpi_short ex_X) ∧
    predict ex_uninit ex_X (Some ex_y) w1 = (inr outs, w2) ∧
    length outs = length [4%positive] ∧
    score ex_uninit ex_X ex_y w1 = (inl KeyError, w2).
Proof.
  apply (score_fewer_models_than_groups ex_estimator [4%positive] 2 None ex_loss
           false (Some 0%Z) 1%Z 0 sc_cpi_short ex_heap_two ex_uninit ex_X ex_y).
  - reflexivity.
  - discriminate.
  - apply NoDup_singleton.
  - intros l Hl%list_elem_of_singleton. rewrite Hl. eexists. reflexivity.
  - vm_compute. lia.
  - intros j Hj. apply ex_groups_fittable. simpl in Hj. vm_compute. lia.
  - apply mean_imputer_shapes.
Defined.

(** Witness of X6: the example instance, fitted on an array without
    columns. *)
Lemma fit_without_groups_leaves_no_model_witness :
  ∃ w',
    fit sc_X_empty ex_y (mkWorld ex_cpi ex_heap) = (inr tt, w') ∧
    heap w' = ex_heap ∧ list_imputation_mod (self w') = [] ∧
    nb_groups (self w') = Some 0 ∧
    predict ex_uninit sc_X_empty (Some ex_y) w' = (inl ValueError, w') ∧
    score ex_uninit sc_X_empty ex_y w' = (inl ValueError, w').
Proof.
  apply (fit_without_groups_leaves_no_model ex_estimator (Single 1%positive) 2
           None ex_loss false (Some 0%Z) 1%Z 0 ex_cpi ex_heap ex_uninit
           sc_X_empty ex_y).
  - reflexivity.
  - reflexivity.
  - reflexivity.
Defined.

(** Witness of X7: the example instance, fitted on [ex_X] and then
    on an array with one column only. *)
Lemma fit_again_keeps_groups_and_models_witness :
  ∃ r1 w1 r2 w2,
    fit ex_X ex_y (mkWorld ex_cpi ex_heap) = (r1, w1) ∧
    fit sc_X_narrow ex_y w1 = (r2, w2) ∧
    groups (self w1) = Some (fit_groups (self (mkWorld ex_cpi ex_heap)) ex_X) ∧
    groups (self w2) = groups (self w1) ∧
    nb_groups (self w2) = nb_groups (self w1) ∧
    (list_imputation_mod (self w1) ≠ [] →
     list_imputation_mod (self w2) = list_imputation_mod (self w1) ∧
     dom (heap w2) = dom (heap w1)).
Proof.
  apply (fit_again_keeps_groups_and_models ex_X ex_y sc_X_narrow ex_y
           (mkWorld ex_cpi ex_heap)).
  reflexivity.
Defined.

(** The two calls of that example, evaluated: the second call keeps
    the two groups of the first, fits the model of column 0 again and
    raises on column 1, which the narrow array does not have. *)
Lemma ex_fit_again_value :
  (fit sc_X_narrow ex_y ex_fitted).1 = inl IndexError ∧
  nb_groups (self (fit sc_X_narrow ex_y ex_fitted).2) = Some 2 ∧
  list_imputation_mod (self (fit sc_X_narrow ex_y ex_fitted).2)
    = [2%positive; 3%positive].
Proof. split_and!; vm_compute; reflexivity. Qed.

(** Witness of X8: two contents of the memory. *)
Lemma predict_ignores_uninitialised_memory_witness :
  predict ex_uninit ex_X None ex_fitted = predict ex_uninit' ex_X None ex_fitted ∧
  score ex_uninit ex_X ex_y ex_fitted = score ex_uninit' ex_X ex_y ex_fitted.
Proof.
  apply (predict_ignores_uninitialised_memory ex_uninit ex_uninit' ex_X ex_y
           None ex_fitted).
  - apply ex_fitted_ready.
  - apply ex_X_wf.
Defined.

(** Witness of X9. *)
Lemma predict_again_continues_generator_witness :
  ∃ outs1 w1 outs2 w2,
    predict ex_uninit ex_X None ex_fitted = (inr outs1, w1) ∧
    predict ex_uninit ex_X None w1 = (inr outs2, w2) ∧
    w2 = with_rng (rng_after (2 * (length (list_imputation_mod (self ex_fitted))
                                   * n_perm (self ex_fitted)))
                     (n_rows ex_X) (rng (self ex_fitted))) ex_fitted ∧
    ∀ j l g ids m,
      list_imputation_mod (self ex_fitted) !! j = Some l →
      groups (self ex_fitted) = Some g → g !! (inl j : group_key) = Some ids →
      heap ex_fitted !! l = Some (Estimator m) →
      outs2 !! j =
        Some ((λ idx, estimator_output (self ex_fitted)
                        (perturbed ex_uninit ex_X ids m idx))
                <$> (draws (n_perm (self ex_fitted)) (n_rows ex_X)
                       (rng_after ((length (list_imputation_mod (self ex_fitted)) + j)
                                   * n_perm (self ex_fitted))
                          (n_rows ex_X) (rng (self ex_fitted)))).1).
Proof.
  apply (predict_again_continues_generator ex_uninit ex_X None ex_fitted).
  - vm_compute. reflexivity.
  - apply ex_fitted_ready.
Defined.

(** The two calls of the example, evaluated: the second call does not
    repeat the first. *)
Lemma ex_predict_again_value :
  (predict ex_uninit ex_X None (predict ex_uninit ex_X None ex_fitted).2).1
    = inr [[[12; 26; 31]; [16; 21; 32]]; [[11; 22; 36]; [21; 32; 16]]]%Z.
Proof. vm_compute. reflexivity. Qed.

(** Witness of X10: the same object for the two columns of [ex_X]. *)
Lemma fit_shared_model_keeps_last_fit_witness :
  ∃ w',
    fit ex_X ex_y (mkWorld sc_cpi_shared ex_heap_two) = (inr tt, w') ∧
    list_imputation_mod (self w') = [4%positive; 4%positive] ∧
    ∀ i j l ids,
      [4%positive; 4%positive] !! i = Some l →
      [4%positive; 4%positive] !! j = Some l →
      (∀ j', j < j' → [4%positive; 4%positive] !! j' ≠ Some l) →
      fit_groups (self (mkWorld sc_cpi_shared ex_heap_two)) ex_X
        !! (inl j : group_key) = Some ids →
      ∃ m', heap w' !! l =
              Some (Estimator (im_fit m' (without_cols ids ex_X) (cols ids ex_X))).
Proof.
  apply (fit_shared_model_keeps_last_fit ex_X ex_y
           (mkWorld sc_cpi_shared ex_heap_two) [4%positive; 4%positive]).
  - reflexivity.
  - reflexivity.
  - discriminate.
  - intros i l Hl. split.
    + apply ex_groups_fittable. apply lookup_lt_Some in Hl. simpl in Hl.
      vm_compute. lia.
    + destruct i as [|[|i]]; simplify_eq/=; eexists; reflexivity.
Defined.

(** Witness of X17. *)
Lemma fit_empty_list_of_models_raises_witness :
  ∃ w',
    fit ex_X ex_y (mkWorld sc_cpi_empty ex_heap) = (inl AttributeError, w') ∧
    length (list_imputation_mod (self w')) = fit_nb_groups sc_cpi_empty ex_X ∧
    (∀ l, l ∈ list_imputation_mod (self w') →
          (l ∉ dom ex_heap) ∧ heap w' !! l = Some NotEstimator) ∧
    (∀ l, l ∈ dom ex_heap → heap w' !! l = ex_heap !! l).
Proof.
  apply (fit_empty_list_of_models_raises ex_estimator 2 None ex_loss false
           (Some 0%Z) 1%Z 0 sc_cpi_empty ex_heap ex_X ex_y).
  - reflexivity.
  - vm_compute. lia.
  - reflexivity.
Defined.

(** ** The DNN learner *)

Import DnnExample.

(** The fitted example, evaluated: one estimator per column of the
    targets, each fitted on the matrix and on its column. *)
Lemma dn_fitted_value :
  Dnn.fit dn_X (Some dn_y) dn_new = (inr tt, dn_fitted) ∧
  Dnn.list_estimators dn_fitted =
    [Some (mkMemo (Some (dn_X, mkNd [2; 1] [10; 30]%Z)) None);
     Some (mkMemo (Some (dn_X, mkNd [2; 1] [20; 40]%Z)) None)] ∧
  Dnn.dim_repeat dn_fitted = 2 ∧
  Dnn.X_test dn_fitted = Some [None; None].
Proof. split_and!; vm_compute; reflexivity. Qed.

(** Witness of X11: one sample, on the new learner. The row axis is
    squeezed away: the estimator is handed the three entries as an
    array of one axis. *)
Lemma check_X_dim_slices_witness :
  (length (shape dn_X_row) = 3 ∧ hd 0 (shape dn_X_row) = Dnn.dim_repeat dn_new ∧
   Dnn.check_X_dim dn_new dn_X_row = dn_X_row) ∨
  ((length (shape dn_X_row) ≠ 3 ∨ hd 0 (shape dn_X_row) ≠ Dnn.dim_repeat dn_new) ∧
   ∀ i, index_first i (Dnn.check_X_dim dn_new dn_X_row) =
        if decide (i < Dnn.dim_repeat dn_new) then inr (np_squeeze dn_X_row)
        else inl IndexError).
Proof. apply (check_X_dim_slices dn_new dn_X_row). reflexivity. Defined.

Lemma dn_X_row_squeezed : np_squeeze dn_X_row = mkNd [3] [7; 8; 9]%Z.
Proof. reflexivity. Qed.

(** Witness of X12. *)
Lemma check_X_dim_matrix_stable_witness :
  shape (Dnn.check_X_dim dn_fitted (mkNd [2; 2] [5; 6; 7; 8]%Z))
    = [Dnn.dim_repeat dn_fitted; 2; 2] ∧
  Dnn.check_X_dim dn_fitted (Dnn.check_X_dim dn_fitted (mkNd [2; 2] [5; 6; 7; 8]%Z))
    = Dnn.check_X_dim dn_fitted (mkNd [2; 2] [5; 6; 7; 8]%Z).
Proof.
  apply (check_X_dim_matrix_stable dn_fitted 2 2 [5; 6; 7; 8]%Z).
  - lia.
  - lia.
  - vm_compute. lia.
Defined.

(** Witness of X13. *)
Lemma fit_one_estimator_per_column_witness :
  ∃ self',
    Dnn.fit dn_X (Some (mkNd [2; 2] [10; 20; 30; 40]%Z)) dn_new = (inr tt, self') ∧
    Dnn.dim_repeat self' = 2 ∧ Dnn.params self' = Dnn.params dn_new ∧
    Dnn.X_test self' = Some (replicate 2 None) ∧
    length (Dnn.list_estimators self') = 2 ∧
    ∀ c, c < 2 →
      ∃ y_c,
        index_column c (mkNd [2; 2] [10; 20; 30; 40]%Z) = inr y_c ∧
        shape y_c = [2; 1] ∧
        Dnn.list_estimators self' !! c =
          Some (Some (Dnn.single_fit (Dnn.single_new (Dnn.params dn_new))
                        (np_squeeze dn_X) y_c)).
Proof.
  apply (fit_one_estimator_per_column dn_new dn_X 2 2 [10; 20; 30; 40]%Z).
  - reflexivity.
  - left. simpl. lia.
Defined.

(** Witness of X14. *)
Lemma fit_vector_targets_raises_witness :
  ∃ self',
    Dnn.fit dn_X (Some (mkNd [3] [10; 20; 30]%Z)) dn_new = (inl IndexError, self') ∧
    Dnn.list_estimators self'
      = Some (Dnn.single_new (Dnn.params dn_new)) :: replicate (3 - 1) None ∧
    Dnn.X_test self' = Some (replicate 3 None).
Proof.
  apply (fit_vector_targets_raises dn_new dn_X 3 [10; 20; 30]%Z). lia.
Defined.

(** Witness of X15. *)
Lemma predict_one_result_per_estimator_witness :
  ∃ self',
    Dnn.predict (Dnn.OneArray dn_X_test) true dn_fitted =
      (inr ((λ e, (Dnn.single_predict e
                     (Dnn.OneArray (np_squeeze dn_X_test)) true).1)
              <$> [mkMemo (Some (dn_X, mkNd [2; 1] [10; 30]%Z)) None;
                   mkMemo (Some (dn_X, mkNd [2; 1] [20; 40]%Z)) None]),
       self') ∧
    Dnn.list_estimators self' =
      (λ e, Some (Dnn.single_predict e
                    (Dnn.OneArray (np_squeeze dn_X_test)) true).2)
        <$> [mkMemo (Some (dn_X, mkNd [2; 1] [10; 30]%Z)) None;
             mkMemo (Some (dn_X, mkNd [2; 1] [20; 40]%Z)) None] ∧
    Dnn.X_test self' =
      Some ((λ e, Some (Dnn.single_X_test
                          (Dnn.single_predict e
                             (Dnn.OneArray (np_squeeze dn_X_test)) true).2))
              <$> [mkMemo (Some (dn_X, mkNd [2; 1] [10; 30]%Z)) None;
                   mkMemo (Some (dn_X, mkNd [2; 1] [20; 40]%Z)) None]) ∧
    Dnn.dim_repeat self' = Dnn.dim_repeat dn_fitted ∧
    Dnn.params self' = Dnn.params dn_fitted.
Proof.
  apply (predict_one_result_per_estimator dn_fitted dn_X_test true
           [mkMemo (Some (dn_X, mkNd [2; 1] [10; 30]%Z)) None;
            mkMemo (Some (dn_X, mkNd [2; 1] [20; 40]%Z)) None]
           [None; None]).
  - vm_compute. reflexivity.
  - vm_compute. reflexivity.
  - reflexivity.
  - vm_compute. reflexivity.
  - reflexivity.
  - left. simpl. lia.
Defined.

(** The prediction of the example, evaluated. *)
Lemma dn_predict_value :
  (Dnn.predict (Dnn.OneArray dn_X_test) true dn_fitted).1
    = inr [[10; 30]; [20; 40]]%Z.
Proof. vm_compute. reflexivity. Qed.


(** Witness of X18: [fit] on the fitted learner and on the new one. *)
Lemma fit_forgets_previous_fit_witness :
  Dnn.fit dn_X_test (Some dn_y) dn_fitted = Dnn.fit dn_X_test (Some dn_y) dn_new.
Proof.
  apply (fit_forgets_previous_fit dn_fitted dn_new dn_X_test dn_y 2).
  - reflexivity.
  - left. simpl. lia.
  - split_and!; vm_compute; reflexivity.
Defined.

(** Witness of X19: a list of a matrix and of one sample. *)
Lemma predict_list_one_result_per_estimator_witness :
  ∃ self',
    Dnn.predict (Dnn.ArrayList [dn_X_test; dn_X_row]) true dn_fitted =
      (inr ((λ e, (Dnn.single_predict e
                     (Dnn.ArrayList (np_squeeze <$> [dn_X_test; dn_X_row]))
                     true).1)
              <$> [mkMemo (Some (dn_X, mkNd [2; 1] [10; 30]%Z)) None;
                   mkMemo (Some (dn_X, mkNd [2; 1] [20; 40]%Z)) None]),
       self') ∧
    Dnn.list_estimators self' =
      (λ e, Some (Dnn.single_predict e
                    (Dnn.ArrayList (np_squeeze <$> [dn_X_test; dn_X_row]))
                    true).2)
        <$> [mkMemo (Some (dn_X, mkNd [2; 1] [10; 30]%Z)) None;
             mkMemo (Some (dn_X, mkNd [2; 1] [20; 40]%Z)) None] ∧
    Dnn.X_test self' = Dnn.X_test dn_fitted ∧
    Dnn.dim_repeat self' = Dnn.dim_repeat dn_fitted ∧
    Dnn.params self' = Dnn.params dn_fitted.
Proof.
  apply (predict_list_one_result_per_estimator dn_fitted [dn_X_test; dn_X_row]
           true
           [mkMemo (Some (dn_X, mkNd [2; 1] [10; 30]%Z)) None;
            mkMemo (Some (dn_X, mkNd [2; 1] [20; 40]%Z)) None]).
  - vm_compute. reflexivity.
  - vm_compute. reflexivity.
  - repeat constructor.
  - repeat constructor; simpl; lia.
Defined.
